(** * ELIT: dependency graph, TSV reader and trainable-model template

    A shallow embedding of [elit/structure.py], [elit/reader.py] and
    [elit/component/template/model.py].

    Python objects are mutable and compared by identity, so nodes live in a
    store and are named by references; every operation that mutates a node
    threads the store.  An exception leaves the store as it was at the
    moment it was raised, which is what a caller catching it observes. *)

From stdpp Require Import base option list strings gmap pretty.
From Stdlib Require Import ZArith Lia.

Open Scope Z_scope.

(** ** Python values and exceptions *)

Module Py.

Inductive exn : Type :=
| KeyError
| IndexError
| NameError
| ValueError
| TypeError.

Inductive result (A : Type) : Type :=
| Ok (a : A)
| Raise (e : exn).

Arguments Ok {A} a.
Arguments Raise {A} e.

(** Truthiness of an [Optional[str]]: [None] and the empty string are falsy. *)
Definition truthy (s : option string) : bool :=
  match s with
  | Some (String _ _) => true
  | _ => false
  end.

(** [s if s else d]. *)
Definition str_or (s : option string) (d : string) : string :=
  if truthy s then default d s else d.

(** [l[i]] for a Python int [i]: negative indices count from the right end,
    anything outside [-len, len) raises [IndexError]. *)
Definition index {A} (l : list A) (i : Z) : result A :=
  let n := Z.of_nat (length l) in
  if bool_decide (0 <= i < n) then
    match l !! Z.to_nat i with Some a => Ok a | None => Raise IndexError end
  else if bool_decide (- n <= i < 0) then
    match l !! Z.to_nat (n + i) with Some a => Ok a | None => Raise IndexError end
  else Raise IndexError.

(** [itertools.islice(l, start, stop)] for non-negative bounds. *)
Definition islice {A} (l : list A) (start stop : nat) : list A :=
  drop start (take stop l).

(** [sep.join(l)]. *)
Definition join (sep : string) (l : list string) : string :=
  String.concat sep l.

(** [re.split] with a pattern that is one literal character. *)
Fixpoint split_go (c : Ascii.ascii) (s : string) (cur : string) : list string :=
  match s with
  | EmptyString => [String.rev cur]
  | String a s' =>
      if Ascii.eqb a c then String.rev cur :: split_go c s' EmptyString
      else split_go c s' (String a cur)
  end.

Definition split (c : Ascii.ascii) (s : string) : list string :=
  split_go c s EmptyString.

(** [d[k] = v] on an insertion-ordered [dict]: an existing key keeps its
    place, a new key goes last. *)
Fixpoint dict_set (d : list (string * string)) (k v : string) : list (string * string) :=
  match d with
  | [] => [(k, v)]
  | (k', v') :: d' =>
      if String.eqb k' k then (k, v) :: d' else (k', v') :: dict_set d' k v
  end.

End Py.

Import Py.

(** ** Sorted-sequence utilities ([elit.util.bisect]) *)

Module Bisect.

(** Object identity: a reference into the store. *)
Definition ref : Type := nat.

(** Modelled from the spec: [elit.util.bisect] is imported by
    [structure.py] but is not among the sources.  The spec describes it as
    "leftmost insertion-point search" over a sequence ordered by a node's
    position ([node_id], given here by [key]). *)
Fixpoint bisect_left (key : ref → Z) (a : list ref) (x : ref) : Z :=
  match a with
  | [] => 0
  | y :: a' =>
      if bool_decide (key y < key x) then 1 + bisect_left key a' x else 0
  end.

(** Modelled from the spec: the "rightmost insertion-point search" of
    [elit.util.bisect], which is not among the sources. *)
Fixpoint bisect_right (key : ref → Z) (a : list ref) (x : ref) : Z :=
  match a with
  | [] => 0
  | y :: a' =>
      if bool_decide (key y <= key x) then 1 + bisect_right key a' x else 0
  end.

(** Modelled from the spec: the "identity-based index lookup (returns -1 if
    absent)" of [elit.util.bisect], which is not among the sources. *)
Fixpoint bisect_index (a : list ref) (x : ref) : Z :=
  match a with
  | [] => -1
  | y :: a' =>
      if bool_decide (y = x) then 0
      else let i := bisect_index a' x in if bool_decide (0 <= i) then 1 + i else -1
  end.

(** Modelled from the spec: the "identity-based removal" of
    [elit.util.bisect], which is not among the sources; an element that is
    not in the sequence leaves it as it is. *)
Definition bisect_remove (a : list ref) (x : ref) : list ref :=
  let i := bisect_index a x in
  if bool_decide (0 <= i) then delete (Z.to_nat i) a else a.

(** Modelled from the spec: the "order-preserving insertion" of
    [elit.util.bisect], which is not among the sources: the element goes to
    its rightmost insertion point. *)
Definition insort_right (key : ref → Z) (a : list ref) (x : ref) : list ref :=
  let i := Z.to_nat (bisect_right key a x) in
  take i a ++ x :: drop i a.

End Bisect.

Import Bisect.

(** ** The dependency graph ([elit/structure.py]) *)

Module Structure.

Definition BLANK : string := "_".
Definition ROOT_TAG : string := "@#r$%".
Definition DELIM_FEAT : string := "|".
Definition DELIM_FEAT_KV : string := "=".
Definition DELIM_ARC : string := ";".
Definition DELIM_ARC_KV : string := ":".
Definition TAB : string := String (Ascii.ascii_of_nat 9) EmptyString.
Definition NEWLINE : string := String (Ascii.ascii_of_nat 10) EmptyString.

(** An [NLPNode] object.  [feats] is [None] when the attribute holds Python's
    [None] and [Some d] when it holds the dict [d] (in insertion order);
    [deprels] is keyed by the identity of the head node. *)
Record NLPNode : Type := mkNLPNode {
  node_id : Z;
  word : option string;
  lemma : option string;
  pos : option string;
  nament : option string;
  feats : option (list (string * string));
  parent : option ref;
  children : list ref;
  secondary_parents : list ref;
  secondary_children : list ref;
  deprels : gmap ref string
}.

(** [NLPNode.__init__]: [feats or {}] turns [None] into the empty dict. *)
Definition new_node (node_id : Z) (word lemma pos nament : option string)
    (feats : option (list (string * string))) : NLPNode :=
  {| node_id := node_id; word := word; lemma := lemma; pos := pos; nament := nament;
     feats := Some (match feats with Some (kv :: d) => kv :: d | _ => [] end);
     parent := None; children := []; secondary_parents := [];
     secondary_children := []; deprels := ∅ |}.

(** [NLPNode()] with every default. *)
Definition default_node : NLPNode := new_node (-1) None None None None None.

(** [NLPNode.root()]. *)
Definition root : NLPNode :=
  new_node 0 (Some ROOT_TAG) (Some ROOT_TAG) (Some ROOT_TAG) (Some ROOT_TAG) None.

#[global] Instance NLPNode_inhabited : Inhabited NLPNode := populate default_node.

(** The store: the object behind reference [r] is [h !!! r]. *)
Abbreviation heap := (list NLPNode).

(** Attribute writes. *)
Definition with_node_id (v : Z) (n : NLPNode) : NLPNode :=
  mkNLPNode v (word n) (lemma n) (pos n) (nament n) (feats n) (parent n) (children n)
    (secondary_parents n) (secondary_children n) (deprels n).
Definition with_word (v : option string) (n : NLPNode) : NLPNode :=
  mkNLPNode (node_id n) v (lemma n) (pos n) (nament n) (feats n) (parent n) (children n)
    (secondary_parents n) (secondary_children n) (deprels n).
Definition with_lemma (v : option string) (n : NLPNode) : NLPNode :=
  mkNLPNode (node_id n) (word n) v (pos n) (nament n) (feats n) (parent n) (children n)
    (secondary_parents n) (secondary_children n) (deprels n).
Definition with_pos (v : option string) (n : NLPNode) : NLPNode :=
  mkNLPNode (node_id n) (word n) (lemma n) v (nament n) (feats n) (parent n) (children n)
    (secondary_parents n) (secondary_children n) (deprels n).
Definition with_nament (v : option string) (n : NLPNode) : NLPNode :=
  mkNLPNode (node_id n) (word n) (lemma n) (pos n) v (feats n) (parent n) (children n)
    (secondary_parents n) (secondary_children n) (deprels n).
Definition with_feats (v : option (list (string * string))) (n : NLPNode) : NLPNode :=
  mkNLPNode (node_id n) (word n) (lemma n) (pos n) (nament n) v (parent n) (children n)
    (secondary_parents n) (secondary_children n) (deprels n).
Definition with_parent (v : option ref) (n : NLPNode) : NLPNode :=
  mkNLPNode (node_id n) (word n) (lemma n) (pos n) (nament n) (feats n) v (children n)
    (secondary_parents n) (secondary_children n) (deprels n).
Definition with_children (v : list ref) (n : NLPNode) : NLPNode :=
  mkNLPNode (node_id n) (word n) (lemma n) (pos n) (nament n) (feats n) (parent n) v
    (secondary_parents n) (secondary_children n) (deprels n).
Definition with_secondary_parents (v : list ref) (n : NLPNode) : NLPNode :=
  mkNLPNode (node_id n) (word n) (lemma n) (pos n) (nament n) (feats n) (parent n) (children n)
    v (secondary_children n) (deprels n).
Definition with_secondary_children (v : list ref) (n : NLPNode) : NLPNode :=
  mkNLPNode (node_id n) (word n) (lemma n) (pos n) (nament n) (feats n) (parent n) (children n)
    (secondary_parents n) v (deprels n).
Definition with_deprels (v : gmap ref string) (n : NLPNode) : NLPNode :=
  mkNLPNode (node_id n) (word n) (lemma n) (pos n) (nament n) (feats n) (parent n) (children n)
    (secondary_parents n) (secondary_children n) v.

(** Store-passing computations that may raise. *)
Definition M (A : Type) : Type := heap → heap * result A.

Definition ret {A} (a : A) : M A := λ h, (h, Ok a).
Definition raise {A} (e : exn) : M A := λ h, (h, Raise e).
Definition bind {A B} (c : M A) (k : A → M B) : M B :=
  λ h, match c h with
       | (h', Ok a) => k a h'
       | (h', Raise e) => (h', Raise e)
       end.

Declare Scope py_scope.
Delimit Scope py_scope with py.
Notation "x <- c ;; k" := (bind c (λ x, k))
  (at level 100, c at next level, right associativity) : py_scope.
Notation "c ;;; k" := (bind c (λ _, k))
  (at level 100, right associativity) : py_scope.

(** Reading the store, and writing one object of it. *)
Definition gets {A} (f : heap → A) : M A := λ h, (h, Ok (f h)).
Definition update (r : ref) (f : NLPNode → NLPNode) : M unit :=
  λ h, (<[r := f (h !!! r)]> h, Ok tt).
(** Allocation of a new object. *)
Definition alloc (n : NLPNode) : M ref := λ h, (h ++ [n], Ok (length h)).

(** The ordering key, and [__lt__]; [__gt__] is what [functools.total_ordering]
    derives from [__lt__] and the identity [__eq__]:
    [not (a < b) and a != b]. *)
Definition nid (h : heap) (r : ref) : Z := node_id (h !!! r).
Definition node_lt (h : heap) (a b : ref) : bool := bool_decide (nid h a < nid h b).
Definition node_gt (h : heap) (a b : ref) : bool :=
  negb (node_lt h a b) && negb (bool_decide (a = b)).

(** [l[idx] if 0 <= idx < len(l) else None]. *)
Definition at_index (l : list ref) (idx : Z) : option ref :=
  if bool_decide (0 <= idx < Z.of_nat (length l)) then l !! Z.to_nat idx else None.

(** [NLPNode.set_pos]. *)
Definition set_pos (self : ref) (tag : option string) : M (option string) :=
  (prev <- gets (λ h, pos (h !!! self)) ;;
   update self (with_pos tag) ;;;
   ret prev)%py.

(** [NLPNode.grandparent]. *)
Definition grandparent (h : heap) (self : ref) : option ref :=
  match parent (h !!! self) with
  | Some p => parent (h !!! p)
  | None => None
  end.

(** [NLPNode.get_dependency_label]: an [NLPNode] is always truthy, so
    [if node] only tests for [None]. *)
Definition get_dependency_label (h : heap) (self : ref) (node : option ref) : option string :=
  let node := match node with None => parent (h !!! self) | Some n => Some n end in
  match node with
  | Some n => deprels (h !!! self) !! n
  | None => None
  end.

(** [NLPNode.set_dependency_label]: a falsy label stores nothing. *)
Definition set_dependency_label (self node : ref) (label : option string) : M unit :=
  if truthy label then
    update self (λ n, with_deprels (<[node := default EmptyString label]> (deprels n)) n)
  else ret tt.

(** [del self.deprels[k]]: raises [KeyError] when the key is missing. *)
Definition del_deprel (self k : ref) : M unit :=
  (d <- gets (λ h, deprels (h !!! self)) ;;
   match d !! k with
   | Some _ => update self (with_deprels (delete k d))
   | None => raise KeyError
   end)%py.

(** [NLPNode.set_parent]. *)
Definition set_parent (self : ref) (node : option ref) (label : option string) : M (option ref) :=
  (prev_parent <- gets (λ h, parent (h !!! self)) ;;
   match prev_parent with
   | Some p =>
       update p (λ n, with_children (bisect_remove (children n) self) n) ;;;
       del_deprel self p
   | None => ret tt
   end ;;;
   update self (with_parent node) ;;;
   match node with
   | Some p =>
       (λ h, update p (λ n, with_children (insort_right (nid h) (children n) self) n) h) ;;;
       set_dependency_label self p label
   | None => ret tt
   end ;;;
   ret prev_parent)%py.

(** [NLPNode.child_of]: [self.parent and self.parent == node], read as a
    truth value. *)
Definition child_of (h : heap) (self node : ref) : bool :=
  match parent (h !!! self) with
  | Some p => bool_decide (p = node)
  | None => false
  end.

(** [NLPNode.add_secondary_parent]. *)
Definition add_secondary_parent (self node : ref) (label : option string) : M unit :=
  ((λ h, update self
           (λ n, with_secondary_parents (insort_right (nid h) (secondary_parents n) node) n) h) ;;;
   (λ h, update node
           (λ n, with_secondary_children (insort_right (nid h) (secondary_children n) self) n) h) ;;;
   set_dependency_label self node label)%py.

(** [NLPNode.remove_secondary_parent]. *)
Definition remove_secondary_parent (self node : ref) : M bool :=
  (idx <- gets (λ h, bisect_index (secondary_parents (h !!! self)) node) ;;
   if bool_decide (0 <= idx) then
     update self (λ n, with_secondary_parents (delete (Z.to_nat idx) (secondary_parents n)) n) ;;;
     update self (λ n, with_deprels (delete node (deprels n)) n) ;;;
     ret true
   else ret false)%py.

(** The positional queries over [self.children]. *)
Definition get_leftmost_child (h : heap) (self : ref) (order : Z) : option ref :=
  let c := children (h !!! self) in
  let idx := order in
  match at_index c idx with
  | Some x => if node_lt h x self then Some x else None
  | None => None
  end.

Definition get_rightmost_child (h : heap) (self : ref) (order : Z) : option ref :=
  let c := children (h !!! self) in
  let idx := Z.of_nat (length c) - 1 - order in
  match at_index c idx with
  | Some x => if node_gt h x self then Some x else None
  | None => None
  end.

Definition get_left_nearest_child (h : heap) (self : ref) (order : Z) : option ref :=
  let c := children (h !!! self) in
  let idx := bisect_left (nid h) c self - 1 - order in
  at_index c idx.

Definition get_right_nearest_child (h : heap) (self : ref) (order : Z) : option ref :=
  let c := children (h !!! self) in
  let idx := bisect_right (nid h) c self + order in
  at_index c idx.

(** The positional queries over [self.parent.children]. *)
Definition get_leftmost_sibling (h : heap) (self : ref) (order : Z) : option ref :=
  let idx := order in
  match parent (h !!! self) with
  | Some p =>
      match at_index (children (h !!! p)) idx with
      | Some x => if node_lt h x self then Some x else None
      | None => None
      end
  | None => None
  end.

(** The index is computed from [len(self.children)], the bound and the
    element are taken from [self.parent.children], as the source has it. *)
Definition get_rightmost_sibling (h : heap) (self : ref) (order : Z) : option ref :=
  let idx := Z.of_nat (length (children (h !!! self))) - 1 - order in
  match parent (h !!! self) with
  | Some p =>
      match at_index (children (h !!! p)) idx with
      | Some x => if node_gt h x self then Some x else None
      | None => None
      end
  | None => None
  end.

Definition get_left_nearest_sibling (h : heap) (self : ref) (order : Z) : option ref :=
  match parent (h !!! self) with
  | Some p =>
      let idx := bisect_left (nid h) (children (h !!! p)) self - 1 - order in
      at_index (children (h !!! p)) idx
  | None => None
  end.

Definition get_right_nearest_sibling (h : heap) (self : ref) (order : Z) : option ref :=
  match parent (h !!! self) with
  | Some p =>
      let idx := bisect_right (nid h) (children (h !!! p)) self + 1 + order in
      at_index (children (h !!! p)) idx
  | None => None
  end.

(** [NLPNode.__str__]: the nine fields, before they are joined by tabs.
    [str.join] raises [TypeError] on the [None] that [get_dependency_label]
    returns for a secondary head stored without a label. *)
Definition render_feats (f : option (list (string * string))) : string :=
  match f with
  | Some (kv :: d) =>
      join DELIM_FEAT (map (λ kv, join DELIM_FEAT_KV [kv.1; kv.2]) (kv :: d))
  | _ => BLANK
  end.

Fixpoint render_arcs (h : heap) (self : ref) (ps : list ref) : result (list string) :=
  match ps with
  | [] => Ok []
  | p :: ps' =>
      match get_dependency_label h self (Some p) with
      | Some l =>
          match render_arcs h self ps' with
          | Ok rest => Ok (join DELIM_ARC_KV [pretty (nid h p); l] :: rest)
          | Raise e => Raise e
          end
      | None => Raise TypeError
      end
  end.

Definition str_fields (h : heap) (self : ref) : result (list string) :=
  let n := h !!! self in
  let node_id := pretty (node_id n) in
  let word := str_or (word n) BLANK in
  let lemma := str_or (lemma n) BLANK in
  let pos := str_or (pos n) BLANK in
  let nament := str_or (nament n) BLANK in
  let feats := render_feats (feats n) in
  let head_id := match parent n with Some p => pretty (nid h p) | None => BLANK end in
  let deprel := str_or (get_dependency_label h self (parent n)) BLANK in
  match
    match secondary_parents n with
    | [] => Ok BLANK
    | ps => match render_arcs h self ps with
            | Ok l => Ok (join DELIM_ARC l)
            | Raise e => Raise e
            end
    end
  with
  | Ok sheads => Ok [node_id; word; lemma; pos; feats; head_id; deprel; sheads; nament]
  | Raise e => Raise e
  end.

Definition node_str (h : heap) (self : ref) : result string :=
  match str_fields h self with
  | Ok fs => Ok (join TAB fs)
  | Raise e => Raise e
  end.

(** An [NLPGraph] object: the node list and the cursor that [__iter__]
    stores in [self._iter] (next position and stop of the [islice]). *)
Record NLPGraph : Type := mkNLPGraph {
  nodes : list ref;
  _iter : option (nat * nat)
}.

(** [NLPGraph.__init__]: a new root object goes first; [if nodes] skips
    [None] and the empty list alike. *)
Definition NLPGraph_init (ns : option (list ref)) : M NLPGraph :=
  (r <- alloc root ;;
   ret {| nodes := r :: default [] ns; _iter := None |})%py.

(** [NLPGraph.__len__]. *)
Definition graph_len (g : NLPGraph) : Z := Z.of_nat (length (nodes g)) - 1.

(** [NLPGraph.__iter__]: [islice(self.nodes, 1, len(self.nodes))]. *)
Definition graph_iter (g : NLPGraph) : NLPGraph :=
  {| nodes := nodes g; _iter := Some (1%nat, length (nodes g)) |}.

(** [NLPGraph.__next__]: [None] stands for [StopIteration].  The source
    reads [self._iter], which exists only once [__iter__] has been called;
    a call before that raises [AttributeError] there and is given the
    result [None] here.  Every statement below starts from [graph_iter]. *)
Definition graph_next (g : NLPGraph) : NLPGraph * option ref :=
  match _iter g with
  | Some (i, stop) =>
      if bool_decide (i < stop)%nat then
        match nodes g !! i with
        | Some n => ({| nodes := nodes g; _iter := Some (S i, stop) |}, Some n)
        | None => (g, None)
        end
      else (g, None)
  | None => (g, None)
  end.

(** A [for] loop over the graph: [__iter__], then [__next__] until it
    stops.  The cursor advances at every step, so [length (nodes g)] calls
    are enough to exhaust it. *)
Fixpoint drain (fuel : nat) (g : NLPGraph) : list ref :=
  match fuel with
  | O => []
  | S fuel' =>
      match graph_next g with
      | (g', Some n) => n :: drain fuel' g'
      | (_, None) => []
      end
  end.

Definition graph_nodes (g : NLPGraph) : list ref :=
  drain (length (nodes g)) (graph_iter g).

(** [NLPGraph.__str__]. *)
Fixpoint render_nodes (h : heap) (ns : list ref) : result (list string) :=
  match ns with
  | [] => Ok []
  | n :: ns' =>
      match node_str h n with
      | Ok s =>
          match render_nodes h ns' with
          | Ok rest => Ok (s :: rest)
          | Raise e => Raise e
          end
      | Raise e => Raise e
      end
  end.

Definition graph_str (h : heap) (g : NLPGraph) : result string :=
  match render_nodes h (graph_nodes g) with
  | Ok l => Ok (join NEWLINE l)
  | Raise e => Raise e
  end.

End Structure.

Import Structure.

(** ** The TSV reader ([elit/reader.py]) *)

Module Reader.

(** A [TSVReader] object: the eight column indices ([-1] when the column is
    not configured) and the open file, as the lines still to be read. *)
Record TSVReader : Type := mkTSVReader {
  word_index : Z;
  lemma_index : Z;
  pos_index : Z;
  feats_index : Z;
  head_id_index : Z;
  deprel_index : Z;
  snd_heads_index : Z;
  nament_index : Z;
  fin : list string
}.

Definition with_fin (ls : list string) (rd : TSVReader) : TSVReader :=
  mkTSVReader (word_index rd) (lemma_index rd) (pos_index rd) (feats_index rd)
    (head_id_index rd) (deprel_index rd) (snd_heads_index rd) (nament_index rd) ls.

(** A pure step that may raise, run inside [M]. *)
Definition lift {A} (r : result A) : M A := λ h, (h, r).

(** [str.strip()] on ASCII text: blanks are the codes 9-13, 28-31 and 32. *)
Definition is_space (a : Ascii.ascii) : bool :=
  let n := Ascii.nat_of_ascii a in
  ((9 <=? n) && (n <=? 13) || (28 <=? n) && (n <=? 32))%nat.

Fixpoint lstrip (s : string) : string :=
  match s with
  | String a s' => if is_space a then lstrip s' else s
  | EmptyString => EmptyString
  end.

Definition strip (s : string) : string :=
  String.rev (lstrip (String.rev (lstrip s))).

(** The separators, as the one-character patterns [_TAB], [_FEATS],
    [_FEATS_KV], [_ARC] and [_ARC_KV] match them. *)
Definition c_tab : Ascii.ascii := Ascii.ascii_of_nat 9.
Definition c_feats : Ascii.ascii := Ascii.ascii_of_nat 124.
Definition c_feats_kv : Ascii.ascii := Ascii.ascii_of_nat 61.
Definition c_arc : Ascii.ascii := Ascii.ascii_of_nat 59.
Definition c_arc_kv : Ascii.ascii := Ascii.ascii_of_nat 58.

(** [get_field]: [ROOT_TAG if row is None else row[index] if index >= 0 else None]. *)
Definition get_field (row : option (list string)) (idx : Z) : result (option string) :=
  match row with
  | None => Ok (Some ROOT_TAG)
  | Some r =>
      if bool_decide (0 <= idx) then
        match index r idx with
        | Ok s => Ok (Some s)
        | Raise e => Raise e
        end
      else Ok None
  end.

(** The dict comprehension [{feat[0]: feat[1] for feat in ...}]. *)
Fixpoint feats_dict (pieces : list (list string)) (d : list (string * string))
    : result (list (string * string)) :=
  match pieces with
  | [] => Ok d
  | feat :: rest =>
      match index feat 0, index feat 1 with
      | Ok k, Ok v => feats_dict rest (dict_set d k v)
      | Raise e, _ => Raise e
      | _, Raise e => Raise e
      end
  end.

(** [get_feats]: [None] for an unconfigured column and for the blank
    marker, a dict otherwise. *)
Definition get_feats (rd : TSVReader) (row : list string)
    : result (option (list (string * string))) :=
  if bool_decide (0 <= feats_index rd) then
    match index row (feats_index rd) with
    | Ok f =>
        if String.eqb f BLANK then Ok None
        else
          match feats_dict (map (split c_feats_kv) (split c_feats f)) [] with
          | Ok d => Ok (Some d)
          | Raise e => Raise e
          end
    | Raise e => Raise e
    end
  else Ok None.

(** [init_node]: a default [NLPNode()] whose attributes are then assigned
    one by one; [feats] receives what [get_feats] returns as it is, or the
    empty dict when the row is an empty list. *)
Definition init_node (rd : TSVReader) (tsv : list (list string)) (i : nat) : M ref :=
  (row <- lift (index tsv (Z.of_nat i)) ;;
   node <- alloc default_node ;;
   update node (with_node_id (Z.of_nat i + 1)) ;;;
   w <- lift (get_field (Some row) (word_index rd)) ;;
   update node (with_word w) ;;;
   l <- lift (get_field (Some row) (lemma_index rd)) ;;
   update node (with_lemma l) ;;;
   p <- lift (get_field (Some row) (pos_index rd)) ;;
   update node (with_pos p) ;;;
   ne <- lift (get_field (Some row) (nament_index rd)) ;;
   update node (with_nament ne) ;;;
   f <- match row with
        | [] => ret (Some [])
        | _ :: _ => lift (get_feats rd row)
        end ;;
   update node (with_feats f) ;;;
   ret node)%py.

(** [[init_node(i) for i in range(len(tsv))]]. *)
Fixpoint init_nodes (rd : TSVReader) (tsv : list (list string)) (idxs : list nat) : M (list ref) :=
  match idxs with
  | [] => ret []
  | i :: idxs' =>
      (n <- init_node rd tsv i ;;
       ns <- init_nodes rd tsv idxs' ;;
       ret (n :: ns))%py
  end.

(** The body of the head-resolution loop.  After [t = tsv[i]] the first
    thing evaluated is the name [NLPArc], the callee of
    [NLPArc(g.nodes[int(t[self.head_id_index])], t[self.deprel_index])].
    No module binds that name: [reader.py] gets its names from
    [from elit.structure import *] and [import re], and [structure.py]
    neither defines nor imports an [NLPArc].  The lookup raises [NameError]
    before any argument is evaluated and before [n.parent] is assigned. *)
Definition resolve_heads (rd : TSVReader) (tsv : list (list string)) (i : nat) (n : ref) : M unit :=
  (t <- lift (index tsv (Z.of_nat i)) ;;
   raise NameError)%py.

(** [for i, n in enumerate(g): ...]. *)
Fixpoint for_enumerate (body : nat → ref → M unit) (i : nat) (ns : list ref) : M unit :=
  match ns with
  | [] => ret tt
  | n :: ns' => (body i n ;;; for_enumerate body (S i) ns')%py
  end.

(** [TSVReader.tsv_to_graph]. *)
Definition tsv_to_graph (rd : TSVReader) (tsv : list (list string)) : M NLPGraph :=
  (ns <- init_nodes rd tsv (seq 0 (length tsv)) ;;
   g <- NLPGraph_init (Some ns) ;;
   (if bool_decide (0 <= head_id_index rd) then
      for_enumerate (resolve_heads rd tsv) 0 (graph_nodes g)
    else ret tt) ;;;
   ret g)%py.

(** The loop of [TSVReader.next]: lines are stripped, a non-blank line adds
    a row, a blank line ends the block once it has a row.  The result is
    the block and the lines left in the file. *)
Fixpoint read_block (lines : list string) (tsv : list (list string))
    : list (list string) * list string :=
  match lines with
  | [] => (tsv, [])
  | line :: rest =>
      let line := strip line in
      match line with
      | String _ _ => read_block rest (tsv ++ [split c_tab line])
      | EmptyString =>
          match tsv with
          | _ :: _ => (tsv, rest)
          | [] => read_block rest tsv
          end
      end
  end.

(** [TSVReader.next]: [None] when no row is left. *)
Definition next (rd : TSVReader) : M (TSVReader * option NLPGraph) :=
  let '(tsv, rest) := read_block (fin rd) [] in
  match tsv with
  | _ :: _ => (g <- tsv_to_graph rd tsv ;; ret (with_fin rest rd, Some g))%py
  | [] => ret (with_fin rest rd, None)
  end.

(** A file holding [text], as the lines a reader iterates over, for a
    text whose lines end in a newline character (no lone carriage
    return). *)
Definition open (text : string) (rd : TSVReader) : TSVReader :=
  with_fin (split (Ascii.ascii_of_nat 10) text) rd.

(** [TSVReader.__next__]: [None] stands for [StopIteration].  [if graph]
    tests the truth value of what [next] returned: [None] is falsy, and an
    [NLPGraph] defines [__len__] and no [__bool__], so it is truthy exactly
    when its length is not zero. *)
Definition __next__ (rd : TSVReader) : M (TSVReader * option NLPGraph) :=
  (r <- next rd ;;
   match r.2 with
   | Some g => if bool_decide (graph_len g ≠ 0) then ret (r.1, Some g) else ret (r.1, None)
   | None => ret (r.1, None)
   end)%py.

(** [TSVReader.next_all]: [[graph for graph in self]]; [__iter__] returns
    the reader itself, and the comprehension calls [__next__] until it
    stops.  [None] means the fuel ran out. *)
Fixpoint next_all (fuel : nat) (rd : TSVReader) : M (option (TSVReader * list NLPGraph)) :=
  match fuel with
  | O => ret None
  | S fuel' =>
      (r <- __next__ rd ;;
       match r.2 with
       | Some g =>
           rest <- next_all fuel' r.1 ;;
           ret (match rest with
                | Some (rd', gs) => Some (rd', g :: gs)
                | None => None
                end)
       | None => ret (Some (r.1, []))
       end)%py
  end.

End Reader.

(** ** The trainable-model template ([elit/component/template/model.py]) *)

Module Model.

(** The label vocabulary of an [NLPModel]: [index_map] and [labels]. *)
Record NLPModel : Type := mkNLPModel {
  index_map : gmap string Z;
  labels : list string
}.

(** [NLPModel.__init__]. *)
Definition new_model : NLPModel := {| index_map := ∅; labels := [] |}.

(** [NLPModel.get_label_index]: [self.index_map.get(label, -1)]. *)
Definition get_label_index (m : NLPModel) (label : string) : Z :=
  default (-1) (index_map m !! label).

(** [NLPModel.get_label]: [self.labels[index]]. *)
Definition get_label (m : NLPModel) (idx : Z) : result string :=
  index (labels m) idx.

(** [NLPModel.add_label]. *)
Definition add_label (m : NLPModel) (label : string) : NLPModel * Z :=
  let idx := get_label_index m label in
  if bool_decide (idx < 0) then
    let idx := Z.of_nat (length (labels m)) in
    ({| index_map := <[label := idx]> (index_map m); labels := labels m ++ [label] |}, idx)
  else (m, idx).

(** [NLPModel.num_label]. *)
Definition num_label (m : NLPModel) : Z := Z.of_nat (length (labels m)).

(** [[self.add_label(y) for y in ys]]. *)
Fixpoint add_labels (m : NLPModel) (ys : list string) : NLPModel * list Z :=
  match ys with
  | [] => (m, [])
  | y :: ys' =>
      let '(m1, i) := add_label m y in
      let '(m2, is') := add_labels m1 ys' in
      (m2, i :: is')
  end.

(** The processing-state contract ([elit.component.template.state.NLPState],
    an abstract class whose concrete subclasses are supplied by callers).
    [Score] is the type of one predicted score and [Num] the type of the
    number [eval] returns; [eval] updates the shared two-element [stats]
    array, given here as the pair it holds, and reads the state without
    changing it. *)
Class NLPState (State Score Num : Type) : Type := {
  gold : State → string;
  reset_count : State → Z;
  terminate : State → bool;
  process : State → string → list Score → State;
  reset : State → State;
  eval : State → Z * Z → (Z * Z) * Num
}.

Section Template.

Context {State Score Num Vec : Type} `{!NLPState State Score Num}.

(** The abstract feature function [NLPModel.x]. *)
Variable x : State → Vec.

(** [self.predict(self.bind(xs, batch_size=..., for_training=False))]: the
    prediction matrix of the bound module for a batch size and a data
    matrix.  Evaluation changes no parameter of the module. *)
Variable mxmod_predict : Z → list Vec → list (list Score).

(** The order on scores that [np.argmax] uses. *)
Variable score_lt : Score → Score → bool.

(** The int [0] that [acc] starts as. *)
Variable zero : Num.

(** [np.argmax]: the first position of a greatest entry; [ValueError] on an
    empty vector. *)
Fixpoint argmax_go (best : Score) (besti i : nat) (l : list Score) : nat :=
  match l with
  | [] => besti
  | y :: l' =>
      if score_lt best y then argmax_go y i (S i) l' else argmax_go best besti (S i) l'
  end.

Definition argmax (l : list Score) : result Z :=
  match l with
  | [] => Raise ValueError
  | y :: l' => Ok (Z.of_nat (argmax_go y 0 1 l'))
  end.

(** [NLPModel.feature_vectors]: [np.vstack] of the rows, which refuses an
    empty sequence. *)
Definition feature_vectors (st : list State) (states : list nat) : result (list Vec) :=
  match states with
  | [] => Raise ValueError
  | _ => Ok (omap (λ i, x <$> st !! i) states)
  end.

(** [NLPModel.data_iter]: the batch size is capped at the number of rows. *)
Definition data_iter_batch_size (data : list Vec) (batch_size : Z) : Z :=
  if bool_decide (Z.of_nat (length data) < batch_size) then Z.of_nat (length data)
  else batch_size.

(** The unpacking [xs, ys = zip( *pairs )]: the transposed list has two
    items when [pairs] has a pair and none when it is empty, and unpacking
    nothing into two names raises [ValueError]. *)
Definition unpack2 {A B} (pairs : list (A * B)) : result (list A * list B) :=
  match pairs with
  | [] => Raise ValueError
  | _ => Ok (map fst pairs, map snd pairs)
  end.

(** The inner function [instances(thread_id, batch_size)] of
    [train_instances], before its [zip( *... )] is unpacked. *)
Definition instances (states : list State) (thread_id batch_size : Z) : list (Vec * string) :=
  let bidx := thread_id * batch_size in
  let eidx := Z.min ((thread_id + 1) * batch_size) (Z.of_nat (length states)) in
  map (λ s, (x s, gold s)) (islice states (Z.to_nat bidx) (Z.to_nat eidx)).

(** The inner function [xys(future)]: the model with its vocabulary as
    the call leaves it, and what the call returns or raises. *)
Definition xys (m : NLPModel) (future : list (Vec * string))
    : NLPModel * result (list Vec * list Z) :=
  match unpack2 future with
  | Ok (xs, ys) => let '(m', is') := add_labels m ys in (m', Ok (xs, is'))
  | Raise e => (m, Raise e)
  end.

(** [[xys(future) for future in futures]], on the calling thread and in
    the order of the futures; the labels of the futures before a failing
    one stay in the vocabulary. *)
Fixpoint collect (m : NLPModel) (futures : list (list (Vec * string)))
    : NLPModel * result (list (list Vec * list Z)) :=
  match futures with
  | [] => (m, Ok [])
  | f :: fs =>
      match xys m f with
      | (m1, Ok r) =>
          match collect m1 fs with
          | (m2, Ok rs) => (m2, Ok (r :: rs))
          | (m2, Raise e) => (m2, Raise e)
          end
      | (m1, Raise e) => (m1, Raise e)
      end
  end.

(** [np.math.ceil(n / k)] for a positive [k]. *)
Definition ceil_div (n k : Z) : Z := - ((- n) `div` k).

(** [NLPModel.train_instances]: the model with its vocabulary as the call
    leaves it, and the feature matrix (a list of rows) and the label vector
    it returns.  A worker
    evaluates [x] and [gold] only, which are functions of the state, so a
    future holds what [instances] returns.  [np.vstack] and [np.hstack] put
    the rows and the labels of the chunks one after the other.
    [ThreadPoolExecutor] refuses a worker count below one with
    [ValueError]. *)
Definition train_instances (m : NLPModel) (states : list State) (num_threads : Z)
    : NLPModel * result (list Vec * list Z) :=
  if bool_decide (num_threads = 1) then
    match unpack2 (instances states 0 (Z.of_nat (length states))) with
    | Ok (xs, ys) => let '(m', is') := add_labels m ys in (m', Ok (xs, is'))
    | Raise e => (m, Raise e)
    end
  else if bool_decide (num_threads <= 0) then (m, Raise ValueError)
  else
    let size := ceil_div (Z.of_nat (length states)) num_threads in
    let futures :=
      map (λ i, instances states (Z.of_nat i) size) (seq 0 (Z.to_nat num_threads)) in
    match collect m futures with
    | (m', Ok rs) => (m', Ok (concat (map fst rs), concat (map snd rs)))
    | (m', Raise e) => (m', Raise e)
    end.

(** The [for state, yhats in zip(states, predictions)] loop of [evaluate]. *)
Fixpoint process_all (m : NLPModel) (st : list State) (pairs : list (nat * list Score))
    : list State * result unit :=
  match pairs with
  | [] => (st, Ok tt)
  | (i, yhats) :: rest =>
      let v := if bool_decide (Z.of_nat (length yhats) = num_label m) then yhats
               else take (Z.to_nat (num_label m)) yhats in
      match argmax v with
      | Ok yh =>
          match get_label m yh with
          | Ok l => process_all m (alter (λ s, process s l yhats) i st) rest
          | Raise e => (st, Raise e)
          end
      | Raise e => (st, Raise e)
      end
  end.

(** [[state for state in states if not state.terminate]]. *)
Definition not_terminated (st : list State) (i : nat) : bool :=
  match st !! i with
  | Some s => negb (terminate s)
  | None => false
  end.

Definition still_active (st : list State) (states : list nat) : list nat :=
  filter (λ i, Is_true (not_terminated st i)) states.

(** The [while states] loop.  [None] means the fuel ran out: the source
    has no bound on the number of rounds. *)
Fixpoint advance (fuel : nat) (m : NLPModel) (batch_size : Z) (st : list State)
    (states : list nat) : option (list State * result unit) :=
  match states with
  | [] => Some (st, Ok tt)
  | _ =>
      match fuel with
      | O => None
      | S fuel' =>
          match feature_vectors st states with
          | Ok xs =>
              let predictions := mxmod_predict (data_iter_batch_size xs batch_size) xs in
              match process_all m st (zip states predictions) with
              | (st', Ok _) => advance fuel' m batch_size st' (still_active st' states)
              | (st', Raise e) => Some (st', Raise e)
              end
          | Raise e => Some (st, Raise e)
          end
      end
  end.

(** The scoring loop [for state in backup: acc = state.eval(stats)]. *)
Fixpoint score (st : list State) (backup : list nat) (stats : Z * Z) (acc : Num) : (Z * Z) * Num :=
  match backup with
  | [] => (stats, acc)
  | i :: rest =>
      match st !! i with
      | Some s => let '(stats', acc') := eval s stats in score st rest stats' acc'
      | None => score st rest stats acc
      end
  end.

(** [for state in states: state.reset()]. *)
Definition reset_all (st : list State) (states : list nat) : list State :=
  foldl (λ st i, alter reset i st) st states.

(** [NLPModel.evaluate]: the store of state objects after the call, the
    final [stats] and the returned [acc]. *)
Definition evaluate (fuel : nat) (m : NLPModel) (st : list State) (states : list nat)
    (batch_size : Z) : option (list State * result ((Z * Z) * Num)) :=
  let st0 := reset_all st states in
  let backup := states in
  match advance fuel m batch_size st0 states with
  | Some (st1, Ok _) => Some (st1, Ok (score st1 backup (0, 0) zero))
  | Some (st1, Raise e) => Some (st1, Raise e)
  | None => None
  end.

(** ** Vocabulary of the statements about the template *)

(** What the sequential path returns for a list of states that is not
    empty: the rows [x s] and the label indices, in input order. *)
Definition extracted (m : NLPModel) (states : list State)
    : NLPModel * result (list Vec * list Z) :=
  ((add_labels m (map gold states)).1,
   Ok (map x states, (add_labels m (map gold states)).2)).

(** The chunks the parallel path cuts the states into. *)
Definition chunks_of (states : list State) (num_threads : Z) : list (list State) :=
  let size := ceil_div (Z.of_nat (length states)) num_threads in
  map (λ i, islice states (Z.to_nat (Z.of_nat i * size))
              (Z.to_nat (Z.min ((Z.of_nat i + 1) * size) (Z.of_nat (length states)))))
      (seq 0 (Z.to_nat num_threads)).

(** [processed s s']: [s'] is [s] after zero or more [process] calls and
    nothing else (no [reset] in particular). *)
Inductive processed : State → State → Prop :=
| processed_refl (s : State) : processed s s
| processed_step (s s' : State) (l : string) (yhats : list Score) :
    processed (process s l yhats) s' → processed s s'.

End Template.

End Model.

(** ** Vocabulary of the statements about the graph *)

Module Contracts.

(** The child-side queries with the sequence they read made explicit;
    each child query is its [_over] form at [self.children]. *)
Definition leftmost_over (h : heap) (c : list ref) (self : ref) (order : Z) : option ref :=
  match at_index c order with
  | Some x => if node_lt h x self then Some x else None
  | None => None
  end.

Definition rightmost_over (h : heap) (c : list ref) (self : ref) (order : Z) : option ref :=
  match at_index c (Z.of_nat (length c) - 1 - order) with
  | Some x => if node_gt h x self then Some x else None
  | None => None
  end.

Definition left_nearest_over (h : heap) (c : list ref) (self : ref) (order : Z) : option ref :=
  at_index c (bisect_left (nid h) c self - 1 - order).

Definition right_nearest_over (h : heap) (c : list ref) (self : ref) (order : Z) : option ref :=
  at_index c (bisect_right (nid h) c self + order).

(** The sibling queries as the specification words them: the child-side
    query computed over [self.parent.children], absent without a parent. *)
Definition over_parent (q : heap → list ref → ref → Z → option ref)
    (h : heap) (self : ref) (order : Z) : option ref :=
  match parent (h !!! self) with
  | Some p => q h (children (h !!! p)) self order
  | None => None
  end.

(** [links_kept b h h']: object [b] has the same id, the same [parent] and
    the same [deprels] in [h'] as in [h], and [h'] has the objects of [h]. *)
Definition links_kept (b : ref) (h h' : heap) : Prop :=
  node_id (h' !!! b) = node_id (h !!! b) ∧
  parent (h' !!! b) = parent (h !!! b) ∧
  deprels (h' !!! b) = deprels (h !!! b) ∧
  length h' = length h.

(** A computation keeps the links of [b] when every run of it does,
    whether it returns or raises. *)
Definition keeps_links {A} (b : ref) (c : M A) : Prop :=
  ∀ h, links_kept b h (c h).1.

(** [b] hangs under [a] without a label. *)
Definition unlabelled (h : heap) (b a : ref) : Prop :=
  parent (h !!! b) = Some a ∧ deprels (h !!! b) !! a = None.

(** A child list in ascending order of [key]. *)
Fixpoint sorted_by (key : ref → Z) (l : list ref) : Prop :=
  match l with
  | [] => True
  | x :: l' => Forall (λ y, key x <= key y) l' ∧ sorted_by key l'
  end.

(** The child list of [r] after [b.set_parent(node, ...)] has returned:
    [b] leaves the list of its previous parent and enters the list of
    [node]. *)
Definition children_after (h : heap) (b : ref) (node : option ref) (r : ref) : list ref :=
  let c := if decide (parent (h !!! b) = Some r)
           then bisect_remove (children (h !!! r)) b else children (h !!! r) in
  if decide (node = Some r) then insort_right (nid h) c b else c.

(** A consistent graph: a node holds a label for its parent, the children
    of a node are the nodes whose parent it is, once each and in ascending
    order of [node_id]. *)
Definition well_formed (h : heap) : Prop :=
  (∀ c p : ref, parent (h !!! c) = Some p → is_Some (deprels (h !!! c) !! p)) ∧
  (∀ p c : ref, c ∈ children (h !!! p) ↔ parent (h !!! c) = Some p) ∧
  (∀ p : ref, NoDup (children (h !!! p))) ∧
  (∀ p : ref, sorted_by (nid h) (children (h !!! p))).

(** A sequence of [set_parent] calls, each given by its receiver, its
    node and its label; a call that raises leaves the store it had reached
    and the sequence goes on, as in a caller that catches the exception. *)
Definition call : Type := ref * option ref * option string.

Fixpoint run_calls (cs : list call) (h : heap) : heap :=
  match cs with
  | [] => h
  | (self, node, label) :: cs' => run_calls cs' (set_parent self node label h).1
  end.

(** A call that attaches carries a non-empty label, and names allocated
    objects. *)
Definition labelled_call (n : nat) (c : call) : Prop :=
  let '(self, node, label) := c in
  (self < n)%nat ∧ (∀ a, node = Some a → (a < n)%nat ∧ truthy label = true).

End Contracts.

Import Contracts.

(** ** Concrete graphs, readers and states *)

Module Scenarios.

Import Reader Model.

(** A token whose lemma is its word form. *)
Definition token (i : Z) (form tag : string) : NLPNode :=
  new_node i (Some form) (Some form) (Some tag) None None.

(** A three-token sentence with one secondary head: "John sleeps well",
    [sleeps] under the root, [John] and [well] under [sleeps], and [John] a
    secondary head of [well]. *)
Definition sentence : M NLPGraph :=
  (john <- alloc (token 1 "John" "NNP") ;;
   sleeps <- alloc (token 2 "sleeps" "VBZ") ;;
   well <- alloc (token 3 "well" "RB") ;;
   g <- NLPGraph_init (Some [john; sleeps; well]) ;;
   r <- lift (index (nodes g) 0) ;;
   set_parent sleeps (Some r) (Some "root"%string) ;;;
   set_parent john (Some sleeps) (Some "nsubj"%string) ;;;
   set_parent well (Some sleeps) (Some "advmod"%string) ;;;
   add_secondary_parent well john (Some "xsubj"%string) ;;;
   ret g)%py.

(** A reader whose columns are those of [NLPNode.__str__]: id, word, lemma,
    pos, feats, head id, deprel, secondary heads, named entity. *)
Definition output_columns : TSVReader := mkTSVReader 1 2 3 4 5 6 7 8 [].

(** Render a graph and read the text back. *)
Definition roundtrip (rd : TSVReader) (build : M NLPGraph) : M (option NLPGraph) :=
  (g <- build ;;
   text <- (λ h, lift (graph_str h g) h) ;;
   r <- next (open text rd) ;;
   ret r.2)%py.

(** The rows of the rendered sentence: the text split at newlines, each
    line at tabs. *)
Definition sentence_rows : result (list (list string)) :=
  let '(h, r) := sentence [] in
  match r with
  | Ok g =>
      match graph_str h g with
      | Ok text => Ok (split c_tab <$> split (Ascii.ascii_of_nat 10) text)
      | Raise e => Raise e
      end
  | Raise e => Raise e
  end.

(** [c.set_parent(p, "dep")] for every [c] of [cs], in order. *)
Fixpoint attach_all (p : ref) (cs : list ref) : M unit :=
  match cs with
  | [] => ret tt
  | c :: cs' => (set_parent c (Some p) (Some "dep"%string) ;;; attach_all p cs')%py
  end.

(** New nodes with the given ids and nothing else. *)
Fixpoint alloc_tokens (ids : list Z) : M (list ref) :=
  match ids with
  | [] => ret []
  | i :: ids' =>
      (c <- alloc (new_node i None None None None None) ;;
       cs <- alloc_tokens ids' ;;
       ret (c :: cs))%py
  end.

(** A parent with id [k] and the tokens with the ids [ids] attached to it
    in order: the reference of the parent is [0], the reference of the
    [i]-th token is [i]. *)
Definition chain (k : Z) (ids : list Z) : heap :=
  ((p <- alloc (new_node k None None None None None) ;;
    cs <- alloc_tokens ids ;;
    attach_all p cs)%py []).1.

(** A concrete state, a tagger that counts down its tokens: [todo] tokens
    are left to tag out of [size]; [hits] counts the predictions that were
    the gold label ["A"]. *)
Record tagger : Type := mkTagger {
  todo : nat;
  hits : Z;
  size : nat
}.

(** The ratio of [correct] to [total], in percent. *)
Definition percent (stats : Z * Z) : Z := 100 * stats.1 `div` stats.2.

#[global] Instance tagger_state : NLPState tagger Z Z := {|
  gold := λ _, "A"%string;
  reset_count := λ _, 0;
  terminate := λ s, (todo s =? 0)%nat;
  process := λ s l _,
    mkTagger (Nat.pred (todo s)) (hits s + (if String.eqb l "A" then 1 else 0)) (size s);
  reset := λ s, mkTagger (size s) 0 (size s);
  eval := λ s stats,
    let stats' := (stats.1 + hits s, stats.2 + Z.of_nat (size s)) in
    (stats', percent stats')
|}.

(** The feature of a tagger state: the number of tokens left. *)
Definition tagger_x (s : tagger) : nat := todo s.

(** A module that prefers the first label while more than one token is
    left and the second label on the last token. *)
Definition tagger_predict (_ : Z) (xs : list nat) : list (list Z) :=
  map (λ v, [Z.of_nat v; 2]) xs.

(** A model that knows the labels ["A"] and ["B"]. *)
Definition tagger_model : NLPModel := (add_labels new_model ["A"; "B"]%string).1.

(** Two tagger objects of two and three tokens, in some state left over
    from earlier use. *)
Definition taggers : list tagger := [mkTagger 0 7 2; mkTagger 1 0 3].

End Scenarios.

(** ** Vocabulary of the statements about labels, rows and lines *)

Module Invariants.

Import Reader Model Scenarios.

(** A consistent label vocabulary: no label is listed twice, and
    [index_map] sends a label to [i] exactly when [labels[i]] is that
    label. *)
Definition vocab_ok (m : NLPModel) : Prop :=
  NoDup (labels m) ∧
  ∀ (l : string) (i : Z),
    index_map m !! l = Some i ↔ 0 <= i ∧ labels m !! Z.to_nat i = Some l.

(** The character [c] occurs in [s]. *)
Fixpoint occurs (c : Ascii.ascii) (s : string) : bool :=
  match s with
  | EmptyString => false
  | String a s' => Ascii.eqb a c || occurs c s'
  end.

(** A feature whose key and value hold neither of the two separators of
    the features column. *)
Definition plain (kv : string * string) : Prop :=
  occurs c_feats kv.1 = false ∧ occurs c_feats_kv kv.1 = false ∧
  occurs c_feats kv.2 = false ∧ occurs c_feats_kv kv.2 = false.

(** [reads rd i row n]: [n] is the node that row [i] of a block describes:
    its id is [i + 1], its fields are what [get_field] and [get_feats] read
    from the configured columns of [row], and it has no link. *)
Definition reads (rd : TSVReader) (i : nat) (row : list string) (n : NLPNode) : Prop :=
  node_id n = Z.of_nat i + 1 ∧
  get_field (Some row) (word_index rd) = Ok (word n) ∧
  get_field (Some row) (lemma_index rd) = Ok (lemma n) ∧
  get_field (Some row) (pos_index rd) = Ok (pos n) ∧
  get_field (Some row) (nament_index rd) = Ok (nament n) ∧
  match row with
  | [] => feats n = Some []
  | _ :: _ => get_feats rd row = Ok (feats n)
  end ∧
  parent n = None ∧ children n = [] ∧ secondary_parents n = [] ∧
  secondary_children n = [] ∧ deprels n = ∅.

(** A line that is empty once stripped. *)
Definition blank (line : string) : Prop := strip line = EmptyString.

(** The rows of a run of lines: each line stripped and cut at the tabs. *)
Definition rows (lines : list string) : list (list string) :=
  map (λ line, split c_tab (strip line)) lines.

(** The number of lines that are not blank. *)
Definition tokens (lines : list string) : nat :=
  length (filter (λ line, ¬ blank line) lines).

(** Token 2 hangs under token 1 with the label [nsubj], and token 1 is
    also one of its secondary parents. *)
Definition doubly_attached : heap :=
  ((alloc_tokens [1; 2] ;;;
    set_parent 1%nat (Some 0%nat) (Some "nsubj"%string) ;;;
    add_secondary_parent 1%nat 0%nat (Some "nsubj"%string))%py []).1.

(** [for n in g: body], run on the object [__iter__] returned, which is
    [g] itself: the body receives the graph and hands it back, with
    whatever it did to the cursor.  [None] means the fuel ran out. *)
Fixpoint for_loop {A} (fuel : nat) (body : ref → NLPGraph → option (NLPGraph * A))
    (g : NLPGraph) : option (NLPGraph * list A) :=
  match fuel with
  | O => None
  | S fuel' =>
      match graph_next g with
      | (g', Some n) =>
          match body n g' with
          | Some (g'', a) =>
              match for_loop fuel' body g'' with
              | Some (gf, l) => Some (gf, a :: l)
              | None => None
              end
          | None => None
          end
      | (g', None) => Some (g', [])
      end
  end.

(** The loop from its start: [__iter__], then the steps above. *)
Definition for_in {A} (fuel : nat) (body : ref → NLPGraph → option (NLPGraph * A))
    (g : NLPGraph) : option (NLPGraph * list A) :=
  for_loop fuel body (graph_iter g).

End Invariants.

(** * Properties *)

Import Reader Model Scenarios.

(** ** Python lists *)

Lemma index_last {A} (l : list A) (a : A) : index (l ++ [a]) (-1) = Ok a.
Proof.
  unfold index. rewrite length_app. cbn [length].
  rewrite bool_decide_eq_false_2 by lia.
  rewrite bool_decide_eq_true_2 by lia.
  replace (Z.to_nat (Z.of_nat (length l + 1) + -1)) with (length l + 0)%nat by lia.
  rewrite lookup_app_r by lia.
  replace (length l + 0 - length l)%nat with 0%nat by lia.
  reflexivity.
Qed.

Lemma index_nonneg {A} (l : list A) (i : nat) (a : A) :
  l !! i = Some a → index l (Z.of_nat i) = Ok a.
Proof.
  intros Hl. unfold index.
  pose proof (lookup_lt_Some _ _ _ Hl).
  rewrite bool_decide_eq_true_2 by lia.
  rewrite Nat2Z.id, Hl. reflexivity.
Qed.

(** ** The graph *)

Lemma drain_cursor (l : list ref) (fuel i : nat) :
  (length l - i <= fuel)%nat →
  drain fuel {| nodes := l; _iter := Some (i, length l) |} = drop i l.
Proof.
  revert i. induction fuel as [|fuel IH]; intros i Hfuel.
  - cbn. rewrite drop_ge by lia. reflexivity.
  - cbn [drain]. unfold graph_next. cbn [_iter nodes].
    destruct (decide (i < length l)%nat) as [Hlt|Hge].
    + rewrite bool_decide_eq_true_2 by assumption.
      destruct (lookup_lt_is_Some_2 l i Hlt) as [n Hn].
      rewrite Hn. rewrite IH by lia.
      symmetry. apply drop_S. assumption.
    + rewrite bool_decide_eq_false_2 by assumption.
      rewrite drop_ge by lia. reflexivity.
Qed.

(** C8.  Building an [NLPGraph] from any list of nodes (or from [None])
    always succeeds and allocates one new object, the root, leaving every
    existing object as it was; the graph's length is the number of input
    nodes, [nodes[0]] is the new root (node id 0, the four textual fields
    equal to the root marker), and iterating the graph yields the input
    nodes in input order, without the root. *)
Theorem graph_root_invariant (h : heap) (ns : option (list ref)) :
  ∃ g,
    NLPGraph_init ns h = (h ++ [root], Ok g) ∧
    graph_len g = Z.of_nat (length (default [] ns)) ∧
    nodes g !! 0%nat = Some (length h) ∧
    (h ++ [root]) !! length h = Some root ∧
    node_id root = 0 ∧
    word root = Some ROOT_TAG ∧ lemma root = Some ROOT_TAG ∧
    pos root = Some ROOT_TAG ∧ nament root = Some ROOT_TAG ∧
    graph_nodes g = default [] ns ∧
    (∀ r n, h !! r = Some n → (h ++ [root]) !! r = Some n).
Proof.
  eexists. split; [reflexivity|].
  repeat split.
  - unfold graph_len. cbn [nodes length]. lia.
  - apply list_lookup_middle. reflexivity.
  - unfold graph_nodes, graph_iter. cbn [nodes].
    rewrite drain_cursor by lia. reflexivity.
  - intros r n Hr. apply lookup_app_l_Some. assumption.
Qed.

(** ** The label vocabulary *)

Lemma get_label_index_unknown (m : NLPModel) (label : string) :
  index_map m !! label = None → get_label_index m label = -1.
Proof. intros Hm. unfold get_label_index. rewrite Hm. reflexivity. Qed.

Lemma add_label_new (m : NLPModel) (label : string) :
  get_label_index m label < 0 →
  labels (add_label m label).1 = labels m ++ [label].
Proof.
  intros Hneg. unfold add_label.
  rewrite bool_decide_eq_true_2 by assumption. reflexivity.
Qed.

(** C9.  In a model whose label list is not empty, [get_label(-1)] does
    not raise: it returns the last label of the list.  [-1] is what
    [get_label_index] returns for a label that is not in the vocabulary, so
    looking such a label up and feeding the index to [get_label] returns
    that last label too.  The last label is the most recently added one:
    right after [add_label] has added a new label, [get_label(-1)] returns
    it. *)
Theorem get_label_sentinel_aliases_last (m : NLPModel) :
  labels m ≠ [] →
  ∃ l,
    last (labels m) = Some l ∧
    get_label m (-1) = Ok l ∧
    (∀ unknown, index_map m !! unknown = None →
       get_label_index m unknown = -1 ∧
       get_label m (get_label_index m unknown) = Ok l) ∧
    (∀ new, get_label_index m new < 0 →
       get_label (add_label m new).1 (-1) = Ok new).
Proof.
  intros Hne.
  destruct (labels m) as [|a ls] eqn:Hl using rev_ind; [congruence|].
  clear IHls. exists a.
  assert (Hget : get_label m (-1) = Ok a).
  { unfold get_label. rewrite Hl. apply index_last. }
  repeat split.
  - apply last_snoc.
  - exact Hget.
  - apply get_label_index_unknown. assumption.
  - rewrite get_label_index_unknown by assumption. exact Hget.
  - intros new Hnew. unfold get_label.
    rewrite add_label_new by assumption. apply index_last.
Qed.

(** The vocabulary after [add_label("NN")] and [add_label("VB")]: the
    unknown label ["JJ"] aliases ["VB"]. *)
Lemma get_label_sentinel_witness :
  let m := (add_label (add_label new_model "NN").1 "VB").1 in
  get_label m (get_label_index m "JJ") = Ok "VB"%string.
Proof.
  intros m.
  destruct (get_label_sentinel_aliases_last m) as (l & Hlast & _ & Hunk & _).
  - vm_compute. discriminate.
  - destruct (Hunk "JJ"%string) as [_ Hget]; [vm_compute; reflexivity|].
    rewrite Hget. f_equal.
    vm_compute in Hlast. congruence.
Defined.

(** ** Rendering and reading *)

Lemma sentence_renders :
  sentence_rows
  = Ok [ ["1"; "John"; "John"; "NNP"; "_"; "2"; "nsubj"; "_"; "_"];
         ["2"; "sleeps"; "sleeps"; "VBZ"; "_"; "0"; "root"; "_"; "_"];
         ["3"; "well"; "well"; "RB"; "_"; "2"; "advmod"; "1:xsubj"; "_"] ]%string.
Proof. vm_compute. reflexivity. Qed.

Lemma init_nodes_length (rd : TSVReader) (tsv : list (list string)) (idxs : list nat)
    (h h' : heap) (ns : list ref) :
  init_nodes rd tsv idxs h = (h', Ok ns) → length ns = length idxs.
Proof.
  revert h h' ns. induction idxs as [|i idxs IH]; intros h h' ns Hrun.
  - cbn in Hrun. inversion Hrun. reflexivity.
  - cbn [init_nodes] in Hrun. unfold bind at 1 in Hrun.
    destruct (init_node rd tsv i h) as [h1 [n|e]]; [|discriminate].
    unfold bind at 1 in Hrun.
    destruct (init_nodes rd tsv idxs h1) as [h2 [ns'|e]] eqn:Hrest; [|discriminate].
    inversion Hrun; subst. cbn. f_equal. eapply IH. eassumption.
Qed.

(** X6.  With a head-id column configured, reading any block that has a
    row ends in an exception, whatever the rows hold: [NameError] once the
    nodes are built. *)
Lemma tsv_to_graph_heads_raise (rd : TSVReader) (row : list string)
    (tsv : list (list string)) (h h1 : heap) (ns : list ref) :
  0 <= head_id_index rd →
  init_nodes rd (row :: tsv) (seq 0 (length (row :: tsv))) h = (h1, Ok ns) →
  (tsv_to_graph rd (row :: tsv) h).2 = Raise NameError.
Proof.
  intros Hcol Hinit.
  pose proof (init_nodes_length _ _ _ _ _ _ Hinit) as Hlen.
  rewrite length_seq in Hlen.
  destruct ns as [|n ns]; [discriminate|].
  unfold tsv_to_graph. unfold bind at 1. rewrite Hinit.
  unfold NLPGraph_init, bind, alloc, ret.
  rewrite bool_decide_eq_true_2 by assumption.
  unfold graph_nodes, graph_iter. cbn [nodes].
  rewrite drain_cursor by (cbn; lia). cbn [default drop for_enumerate].
  unfold resolve_heads, bind, lift, raise. cbn. reflexivity.
Qed.

(** C1.  The three-token sentence with one secondary head renders to three
    nine-field lines, and reading them back with the matching columns does
    not produce a graph: the head-resolution loop raises [NameError] on the
    first token.  The store then holds the four objects of the sentence and
    four new ones, the tokens 1, 2, 3 and a root, none of which has a
    parent, a child or a secondary head. *)
Theorem roundtrip_raises_NameError :
  sentence_rows
  = Ok [ ["1"; "John"; "John"; "NNP"; "_"; "2"; "nsubj"; "_"; "_"];
         ["2"; "sleeps"; "sleeps"; "VBZ"; "_"; "0"; "root"; "_"; "_"];
         ["3"; "well"; "well"; "RB"; "_"; "2"; "advmod"; "1:xsubj"; "_"] ]%string ∧
  ∃ h, roundtrip output_columns sentence [] = (h, Raise NameError) ∧
       length h = 8%nat ∧
       node_id <$> drop 4 h = [1; 2; 3; 0] ∧
       Forall (λ n, parent n = None ∧ children n = [] ∧ secondary_parents n = []) (drop 4 h).
Proof.
  split; [vm_compute; reflexivity|].
  eexists. split; [vm_compute; reflexivity|].
  split; [reflexivity|]. split; [reflexivity|].
  repeat constructor.
Qed.

(** X5.  A node without a parent and without secondary heads renders the
    head id, the dependency label and the secondary heads as the blank marker;
    its features render as the blank marker when the dict is empty, and
    also when the attribute is [None]. *)
Lemma str_fields_blank (h : heap) (n : ref) :
  parent (h !!! n) = None →
  secondary_parents (h !!! n) = [] →
  ∃ fs, str_fields h n = Ok fs ∧
        fs !! 5%nat = Some BLANK ∧ fs !! 6%nat = Some BLANK ∧ fs !! 7%nat = Some BLANK ∧
        (feats (h !!! n) = Some [] ∨ feats (h !!! n) = None → fs !! 4%nat = Some BLANK).
Proof.
  intros Hp Hs. unfold str_fields, get_dependency_label.
  rewrite Hp, Hs. eexists. split; [reflexivity|].
  repeat split. intros [Hf|Hf]; rewrite Hf; reflexivity.
Qed.

Lemma get_feats_blank (rd : TSVReader) (row : list string) :
  0 <= feats_index rd →
  index row (feats_index rd) = Ok BLANK →
  get_feats rd row = Ok None.
Proof.
  intros Hcol Hrow. unfold get_feats.
  rewrite bool_decide_eq_true_2 by assumption.
  rewrite Hrow. reflexivity.
Qed.

(** C7.  The rendering half holds: a freshly built node (no features, no
    parent, no secondary head) renders the three fields as the blank
    marker.  The reading half does not: for a row whose features column
    holds the blank marker the reader stores [None] in [feats], where the
    constructor would have stored the empty dict. *)
Theorem blank_feats_read_as_None :
  let rd := mkTSVReader 1 2 3 4 (-1) (-1) (-1) 8 [] in
  let row := ["1"; "John"; "john"; "NNP"; "_"; "_"; "_"; "_"; "_"]%string in
  (∃ h n, alloc (new_node 1 (Some "John"%string) None None None None) [] = (h, Ok n) ∧
          str_fields h n
          = Ok ["1"; "John"; "_"; "_"; "_"; "_"; "_"; "_"; "_"]%string) ∧
  (∃ h g n, tsv_to_graph rd [row] [] = (h, Ok g) ∧
            graph_nodes g = [n] ∧
            word (h !!! n) = Some "John"%string ∧
            feats (h !!! n) = None ∧
            feats (h !!! n) ≠ Some [] ∧
            feats (new_node 1 (Some "John"%string) None None None None) = Some []).
Proof.
  intros rd row. split.
  - eexists _, _. split; [reflexivity|]. vm_compute. reflexivity.
  - eexists _, _, _. split; [vm_compute; reflexivity|].
    repeat split; try (vm_compute; reflexivity).
    vm_compute. discriminate.
Qed.

(** ** Positional queries *)

Lemma child_queries_over (h : heap) (self : ref) (order : Z) :
  get_leftmost_child h self order = leftmost_over h (children (h !!! self)) self order ∧
  get_rightmost_child h self order = rightmost_over h (children (h !!! self)) self order ∧
  get_left_nearest_child h self order = left_nearest_over h (children (h !!! self)) self order ∧
  get_right_nearest_child h self order = right_nearest_over h (children (h !!! self)) self order.
Proof. repeat split. Qed.

(** X4.  Two of the four sibling queries are the child-side queries over
    the parent's children. *)
Lemma left_sibling_queries_over (h : heap) (self : ref) (order : Z) :
  get_leftmost_sibling h self order = over_parent leftmost_over h self order ∧
  get_left_nearest_sibling h self order = over_parent left_nearest_over h self order.
Proof.
  unfold get_leftmost_sibling, get_left_nearest_sibling, over_parent.
  split; destruct (parent (h !!! self)); reflexivity.
Qed.

(** X7.  A node without children has no rightmost sibling at any order
    from 0 on: the index is computed from its own, empty, child list. *)
Lemma rightmost_sibling_of_leaf (h : heap) (self : ref) (order : Z) :
  children (h !!! self) = [] → 0 <= order →
  get_rightmost_sibling h self order = None.
Proof.
  intros Hc Ho. unfold get_rightmost_sibling. rewrite Hc. cbn [length].
  destruct (parent (h !!! self)); [|reflexivity].
  unfold at_index. rewrite bool_decide_eq_false_2 by lia. reflexivity.
Qed.

(** The right-nearest sibling query is the child-side query over the
    parent's children one position further to the right. *)
Lemma right_nearest_sibling_shifted (h : heap) (self : ref) (order : Z) :
  get_right_nearest_sibling h self order = over_parent right_nearest_over h self (order + 1).
Proof.
  unfold get_right_nearest_sibling, over_parent, right_nearest_over.
  destruct (parent (h !!! self)); [|reflexivity].
  f_equal. lia.
Qed.

(** C5.  Three tokens 1, 2, 3 under a common parent.  From token 1 the
    rightmost sibling in the specification's sense is token 3 and the
    right-nearest one is token 2; [get_rightmost_sibling] returns nothing
    and [get_right_nearest_sibling] returns token 3. *)
Theorem right_sibling_queries_diverge :
  let h := chain 0 [1; 2; 3] in
  children (h !!! 0%nat) = [1; 2; 3]%nat ∧
  parent (h !!! 1%nat) = Some 0%nat ∧
  over_parent rightmost_over h 1%nat 0 = Some 3%nat ∧
  get_rightmost_sibling h 1%nat 0 = None ∧
  over_parent right_nearest_over h 1%nat 0 = Some 2%nat ∧
  get_right_nearest_sibling h 1%nat 0 = Some 3%nat.
Proof. vm_compute. repeat split. Qed.

(** C6, as amended.  Five children with the ids 1..5 under a parent [p]
    whose own id is [k]: [p.get_leftmost_child()] is the child with id 1
    exactly when [k > 1] and is absent otherwise; and when [k = 3], the
    left-nearest and right-nearest children of [p] are the children with
    the ids 2 and 4.  Called on the child with id 3, when it has no
    children of its own, the two nearest-child queries return nothing, at
    every order. *)
Theorem chain_child_queries (h : heap) (p c1 c2 c3 c4 c5 : ref) (k : Z) :
  children (h !!! p) = [c1; c2; c3; c4; c5] →
  nid h c1 = 1 → nid h c2 = 2 → nid h c3 = 3 → nid h c4 = 4 → nid h c5 = 5 →
  nid h p = k →
  (1 < k → get_leftmost_child h p 0 = Some c1) ∧
  (k <= 1 → get_leftmost_child h p 0 = None) ∧
  (k = 3 → get_left_nearest_child h p 0 = Some c2 ∧
           get_right_nearest_child h p 0 = Some c4) ∧
  (children (h !!! c3) = [] →
   ∀ order, get_left_nearest_child h c3 order = None ∧
            get_right_nearest_child h c3 order = None).
Proof.
  intros Hc H1 H2 H3 H4 H5 Hk.
  assert (Hleaf : children (h !!! c3) = [] →
                  ∀ order, get_left_nearest_child h c3 order = None ∧
                           get_right_nearest_child h c3 order = None).
  { intros Hc3 order. unfold get_left_nearest_child, get_right_nearest_child.
    rewrite Hc3. unfold at_index. cbn [length].
    rewrite !bool_decide_eq_false_2 by lia. split; reflexivity. }
  cut ((1 < k → get_leftmost_child h p 0 = Some c1) ∧
       (k <= 1 → get_leftmost_child h p 0 = None) ∧
       (k = 3 → get_left_nearest_child h p 0 = Some c2 ∧
                get_right_nearest_child h p 0 = Some c4)).
  { intros (Ha & Hb & Hd). split; [exact Ha|]. split; [exact Hb|].
    split; [exact Hd|exact Hleaf]. }
  clear Hleaf. unfold nid in *.
  unfold get_leftmost_child, get_left_nearest_child, get_right_nearest_child, node_lt, nid.
  rewrite Hc. cbn [bisect_left bisect_right]. rewrite H1, H2, H3, H4, H5, Hk.
  change (at_index [c1; c2; c3; c4; c5] 0) with (Some c1). cbn beta iota.
  rewrite H1.
  split; [|split].
  - intros Hgt. rewrite bool_decide_eq_true_2 by assumption. reflexivity.
  - intros Hle. rewrite bool_decide_eq_false_2 by lia. reflexivity.
  - intros ->. split; reflexivity.
Qed.

(** The chain under a parent whose id is 3. *)
Lemma chain_child_queries_witness :
  let h := chain 3 [1; 2; 3; 4; 5] in
  get_leftmost_child h 0%nat 0 = Some 1%nat ∧
  (get_left_nearest_child h 0%nat 0 = Some 2%nat ∧
   get_right_nearest_child h 0%nat 0 = Some 4%nat) ∧
  (get_left_nearest_child h 3%nat 0 = None ∧
   get_right_nearest_child h 3%nat 0 = None).
Proof.
  intros h.
  destruct (chain_child_queries h 0%nat 1%nat 2%nat 3%nat 4%nat 5%nat 3)
    as (Hleft & _ & Hnear & Hleaf); try (vm_compute; reflexivity).
  split; [apply Hleft; lia|]. split; [apply Hnear; reflexivity|].
  apply Hleaf. vm_compute. reflexivity.
Defined.

(** C6, as stated, fails: in the chain under a parent with id 6, the
    token with id 3 has no children, so its nearest-child queries return
    nothing rather than the tokens 2 and 4. *)
Lemma chain_sibling_has_no_children :
  let h := chain 6 [1; 2; 3; 4; 5] in
  nid h 3%nat = 3 ∧ nid h 2%nat = 2 ∧ nid h 4%nat = 4 ∧
  children (h !!! 0%nat) = [1; 2; 3; 4; 5]%nat ∧
  children (h !!! 3%nat) = [] ∧
  get_left_nearest_child h 3%nat 0 = None ∧
  get_right_nearest_child h 3%nat 0 = None ∧
  get_left_nearest_child h 3%nat 0 ≠ Some 2%nat ∧
  get_right_nearest_child h 3%nat 0 ≠ Some 4%nat.
Proof.
  vm_compute. repeat split; discriminate.
Qed.

(** ** The store *)

Lemma lookup_total_update (h : heap) (r r' : ref) (n : NLPNode) :
  (<[r := n]> h) !!! r' = if decide (r = r' ∧ (r < length h)%nat) then n else h !!! r'.
Proof.
  destruct (decide (r = r' ∧ (r < length h)%nat)) as [[-> Hlt]|Hno].
  - apply list_lookup_total_insert_eq. assumption.
  - destruct (decide (r = r')) as [->|Hne].
    + rewrite list_insert_ge by lia. reflexivity.
    + apply list_lookup_total_insert_ne. assumption.
Qed.

Lemma links_kept_refl (b : ref) (h : heap) : links_kept b h h.
Proof. repeat split. Qed.

Lemma links_kept_trans (b : ref) (h1 h2 h3 : heap) :
  links_kept b h1 h2 → links_kept b h2 h3 → links_kept b h1 h3.
Proof.
  intros (Hi & Hp & Hd & Hl) (Hi' & Hp' & Hd' & Hl').
  repeat split; congruence.
Qed.

Lemma keeps_ret {A} (b : ref) (a : A) : keeps_links b (ret a).
Proof. intros h. apply links_kept_refl. Qed.

Lemma keeps_raise {A} (b : ref) (e : exn) : keeps_links b (raise (A := A) e).
Proof. intros h. apply links_kept_refl. Qed.

Lemma keeps_gets {A} (b : ref) (f : heap → A) : keeps_links b (gets f).
Proof. intros h. apply links_kept_refl. Qed.

Lemma keeps_bind {A B} (b : ref) (c : M A) (k : A → M B) :
  keeps_links b c → (∀ a, keeps_links b (k a)) → keeps_links b (bind c k).
Proof.
  intros Hc Hk h. unfold bind. specialize (Hc h).
  destruct (c h) as [h1 [a|e]]; [|exact Hc].
  eapply links_kept_trans; [exact Hc|apply Hk].
Qed.

Lemma keeps_with_heap {A} (b : ref) (c : heap → M A) :
  (∀ h0, keeps_links b (c h0)) → keeps_links b (λ h, c h h).
Proof. intros Hc h. apply Hc. Qed.

(** Writing [children] of any object changes no link. *)
Lemma keeps_update_children (b r : ref) (f : NLPNode → list ref) :
  keeps_links b (update r (λ n, with_children (f n) n)).
Proof.
  intros h. unfold update, links_kept. cbn [fst].
  rewrite lookup_total_update, length_insert.
  destruct (decide _) as [[-> _]|_]; repeat split.
Qed.

(** Writing another object changes no link of [b]. *)
Lemma keeps_update_other (b r : ref) (f : NLPNode → NLPNode) :
  r ≠ b → keeps_links b (update r f).
Proof.
  intros Hne h. unfold update, links_kept. cbn [fst].
  rewrite lookup_total_update, length_insert.
  destruct (decide _) as [[-> _]|_]; [congruence|]. repeat split.
Qed.

Lemma keeps_set_dependency_label (b self node : ref) (label : option string) :
  self ≠ b → keeps_links b (set_dependency_label self node label).
Proof.
  intros Hne. unfold set_dependency_label.
  destruct (truthy label); [apply keeps_update_other; assumption|apply keeps_ret].
Qed.

Lemma keeps_del_deprel (b self k : ref) :
  self ≠ b → keeps_links b (del_deprel self k).
Proof.
  intros Hne. unfold del_deprel.
  apply keeps_bind; [apply keeps_gets|]. intros d.
  destruct (d !! k); [apply keeps_update_other; assumption|apply keeps_raise].
Qed.

(** [set_parent] on one node changes no link of another. *)
Lemma keeps_set_parent (b self : ref) (node : option ref) (label : option string) :
  self ≠ b → keeps_links b (set_parent self node label).
Proof.
  intros Hne. unfold set_parent.
  apply keeps_bind; [apply keeps_gets|]. intros prev.
  apply keeps_bind.
  { destruct prev as [p|]; [|apply keeps_ret].
    apply keeps_bind; [apply keeps_update_children|].
    intros _. apply keeps_del_deprel. assumption. }
  intros _. apply keeps_bind; [apply keeps_update_other; assumption|].
  intros _. apply keeps_bind; [|intros _; apply keeps_ret].
  destruct node as [p|]; [|apply keeps_ret].
  apply keeps_bind.
  - apply (keeps_with_heap b (λ h0, update p (λ n, with_children (insort_right (nid h0) (children n) self) n))).
    intros h0. apply keeps_update_children.
  - intros _. apply keeps_set_dependency_label. assumption.
Qed.

(** ** Detaching *)

(** A node whose parent has no entry in its [deprels] cannot be moved:
    [set_parent] takes it out of the parent's [children] and then raises
    [KeyError], with [parent] and [deprels] as they were. *)
Lemma set_parent_KeyError (h : heap) (b a : ref) (node : option ref) (label : option string) :
  parent (h !!! b) = Some a →
  deprels (h !!! b) !! a = None →
  set_parent b node label h
  = (<[a := with_children (bisect_remove (children (h !!! a)) b) (h !!! a)]> h,
     Raise KeyError).
Proof.
  intros Hp Hd.
  unfold set_parent, bind at 1, gets. rewrite Hp.
  unfold bind at 1. unfold bind at 1. unfold update at 1.
  unfold del_deprel, bind at 1, gets.
  pose proof (keeps_update_children b a (λ n, bisect_remove (children n) b) h)
    as (_ & _ & Hd' & _).
  unfold update in Hd'. cbn [fst] in Hd'. rewrite Hd', Hd. reflexivity.
Qed.

(** [set_parent] returns exactly when the node has no parent or its
    [deprels] holds an entry for the parent. *)
Lemma set_parent_returns_iff (h : heap) (b : ref) (node : option ref) (label : option string) :
  (∃ h' prev, set_parent b node label h = (h', Ok prev)) ↔
  match parent (h !!! b) with
  | Some a => is_Some (deprels (h !!! b) !! a)
  | None => True
  end.
Proof.
  destruct (parent (h !!! b)) as [a|] eqn:Hp.
  - destruct (deprels (h !!! b) !! a) as [l|] eqn:Hd.
    + split; [eauto|]. intros _.
      unfold set_parent, bind at 1, gets. rewrite Hp.
      unfold bind at 1. unfold bind at 1. unfold update at 1.
      unfold del_deprel, bind at 1, gets.
      pose proof (keeps_update_children b a (λ n, bisect_remove (children n) b) h)
        as (_ & _ & Hd' & _).
      unfold update in Hd'. cbn [fst] in Hd'. rewrite Hd', Hd.
      unfold update at 1. unfold bind at 1. unfold update at 1.
      unfold bind at 1.
      destruct node as [p|].
      * unfold bind at 1. unfold update at 1. unfold set_dependency_label.
        destruct (truthy label); unfold update, ret, bind; eauto.
      * unfold ret, bind. eauto.
    + split; [|intros [? ?]; discriminate].
      intros (h' & prev & Hrun).
      rewrite (set_parent_KeyError h b a node label Hp Hd) in Hrun. discriminate.
  - split; [trivial|]. intros _.
    unfold set_parent, bind at 1, gets. rewrite Hp.
    unfold bind at 1. unfold ret at 1. unfold bind at 1. unfold update at 1.
    unfold bind at 1.
    destruct node as [p|].
    + unfold bind at 1. unfold update at 1. unfold set_dependency_label.
      destruct (truthy label); unfold update, ret, bind; eauto.
    + unfold ret, bind. eauto.
Qed.

Lemma bind_Ok_inv {A B} (c : M A) (k : A → M B) (h h' : heap) (b : B) :
  bind c k h = (h', Ok b) → ∃ a h1, c h = (h1, Ok a) ∧ k a h1 = (h', Ok b).
Proof.
  unfold bind. destruct (c h) as [h1 [a|e]]; [eauto|discriminate].
Qed.

Tactic Notation "bind_inv" hyp(H) "as" ident(a) ident(h1) ident(H1) :=
  apply bind_Ok_inv in H as (a & h1 & H1 & H).

(** What a returning [set_parent] does to the node's own links. *)
Lemma set_parent_links (h h' : heap) (b : ref) (node prev : option ref) (label : option string) :
  (b < length h)%nat →
  set_parent b node label h = (h', Ok prev) →
  prev = parent (h !!! b) ∧
  parent (h' !!! b) = node ∧
  deprels (h' !!! b)
  = (let d := match prev with
              | Some p => delete p (deprels (h !!! b))
              | None => deprels (h !!! b)
              end in
     match node with
     | Some a => if truthy label then <[a := default EmptyString label]> d else d
     | None => d
     end).
Proof.
  intros Hb Hrun. unfold set_parent in Hrun.
  bind_inv Hrun as pp ha Hgets. unfold gets in Hgets. inversion Hgets; subst pp ha; clear Hgets.
  bind_inv Hrun as u1 hb Hdetach.
  bind_inv Hrun as u2 hc Hsetp.
  bind_inv Hrun as u3 hd Hattach.
  unfold ret in Hrun. inversion Hrun; subst hd prev; clear Hrun.
  split; [reflexivity|].
  (* detaching: the links of [b] in [hb] *)
  assert (Hhb : length hb = length h ∧
                deprels (hb !!! b)
                = match parent (h !!! b) with
                  | Some p => delete p (deprels (h !!! b))
                  | None => deprels (h !!! b)
                  end).
  { destruct (parent (h !!! b)) as [p|].
    - bind_inv Hdetach as u4 he Hrm.
      pose proof (keeps_update_children b p (λ n, bisect_remove (children n) b) h)
        as (_ & _ & Hd' & Hl').
      rewrite Hrm in Hd', Hl'. cbn [fst] in Hd', Hl'.
      unfold del_deprel in Hdetach. bind_inv Hdetach as d hf Hgets.
      unfold gets in Hgets. inversion Hgets; subst d hf; clear Hgets.
      destruct (deprels (he !!! b) !! p); [|discriminate].
      unfold update in Hdetach. inversion Hdetach; subst hb; clear Hdetach.
      rewrite length_insert, lookup_total_update.
      rewrite decide_True by (split; [reflexivity|lia]).
      cbn. rewrite Hd'. split; [assumption|reflexivity].
    - unfold ret in Hdetach. inversion Hdetach; subst hb. split; reflexivity. }
  destruct Hhb as (Hlb & Hdb).
  unfold update in Hsetp. inversion Hsetp; subst hc; clear Hsetp.
  set (hc := <[b := with_parent node (hb !!! b)]> hb) in *.
  assert (Hhc : length hc = length h ∧ parent (hc !!! b) = node ∧
                deprels (hc !!! b) = deprels (hb !!! b)).
  { subst hc. rewrite length_insert, lookup_total_update.
    rewrite decide_True by (split; [reflexivity|lia]). repeat split. assumption. }
  destruct Hhc as (Hlc & Hpc & Hdc).
  destruct node as [a|].
  - bind_inv Hattach as u5 hg Hins.
    pose proof (keeps_update_children b a (λ n, insort_right (nid hc) (children n) b) hc)
      as (_ & Hp' & Hd' & Hl').
    rewrite Hins in Hp', Hd', Hl'. cbn [fst] in Hp', Hd', Hl'.
    unfold set_dependency_label in Hattach.
    destruct (truthy label).
    + unfold update in Hattach. inversion Hattach; subst h'; clear Hattach.
      rewrite lookup_total_update.
      rewrite decide_True by (split; [reflexivity|lia]).
      cbn. split; [congruence|]. rewrite Hd', Hdc, Hdb. reflexivity.
    + unfold ret in Hattach. inversion Hattach; subst h'; clear Hattach.
      split; [congruence|]. rewrite Hd', Hdc, Hdb. reflexivity.
  - unfold ret in Hattach. inversion Hattach; subst h'; clear Hattach.
    split; [assumption|]. rewrite Hdc, Hdb. reflexivity.
Qed.

Lemma unlabelled_run_calls (cs : list call) (h : heap) (b a : ref) :
  unlabelled h b a → unlabelled (run_calls cs h) b a.
Proof.
  revert h. induction cs as [|[[self node] label] cs IH]; intros h [Hp Hd]; [split; assumption|].
  cbn [run_calls]. apply IH.
  destruct (decide (self = b)) as [->|Hne].
  - rewrite (set_parent_KeyError h b a node label Hp Hd). cbn [fst].
    pose proof (keeps_update_children b a (λ n, bisect_remove (children n) b) h)
      as (_ & Hp' & Hd' & _).
    unfold update in Hp', Hd'. cbn [fst] in Hp', Hd'.
    split; congruence.
  - pose proof (keeps_set_parent b self node label Hne h) as (_ & Hp' & Hd' & _).
    split; congruence.
Qed.

(** [set_parent] writes objects that exist and allocates none. *)
Lemma set_parent_length (h : heap) (b : ref) (node : option ref) (label : option string) :
  length (set_parent b node label h).1 = length h.
Proof.
  pose proof (keeps_set_parent (S b) b node label ltac:(lia) h) as (_ & _ & _ & Hlen).
  exact Hlen.
Qed.

(** C10, as amended.  Let [b.set_parent(a, label)] with an absent or
    empty label return.  Afterwards [b] holds a [deprels] entry for [a]
    exactly when it held one before the call and [a] was not its parent
    already.  When it holds none, every later [b.set_parent(...)], to
    another node or to [None], after any further [set_parent] calls on any
    nodes, raises [KeyError].  When it holds one, the next
    [b.set_parent(...)] returns [a].  In general a [set_parent] call
    returns exactly when the node has no parent or holds a label for its
    parent. *)
Theorem detach_without_label_raises (h h1 : heap) (b a : ref)
    (label : option string) (prev : option ref) :
  (b < length h)%nat →
  truthy label = false →
  set_parent b (Some a) label h = (h1, Ok prev) →
  (deprels (h1 !!! b) !! a = None ↔ deprels (h !!! b) !! a = None ∨ prev = Some a) ∧
  (deprels (h !!! b) !! a = None ∨ prev = Some a →
   ∀ (calls : list call) (node : option ref) (label' : option string),
     (set_parent b node label' (run_calls calls h1)).2 = Raise KeyError) ∧
  (is_Some (deprels (h !!! b) !! a) → prev ≠ Some a →
   ∀ (node : option ref) (label' : option string),
     ∃ h2, set_parent b node label' h1 = (h2, Ok (Some a))) ∧
  (∀ (h' : heap) (node : option ref) (label' : option string),
     (∃ h'' prev', set_parent b node label' h' = (h'', Ok prev')) ↔
     match parent (h' !!! b) with
     | Some p => is_Some (deprels (h' !!! b) !! p)
     | None => True
     end).
Proof.
  intros Hb Hfalsy Hrun.
  destruct (set_parent_links h h1 b (Some a) prev label Hb Hrun) as (Hprev & Hp1 & Hd1).
  rewrite Hfalsy in Hd1. cbn zeta in Hd1.
  assert (Hentry : deprels (h1 !!! b) !! a = None ↔
                   deprels (h !!! b) !! a = None ∨ prev = Some a).
  { rewrite Hd1. destruct prev as [p|].
    - rewrite lookup_delete_None. split.
      + intros [->|Hnone]; [right; reflexivity|left; assumption].
      + intros [Hnone|Heq]; [right; assumption|left; congruence].
    - split; [intros Hnone; left; assumption|].
      intros [Hnone|Heq]; [assumption|discriminate]. }
  split; [exact Hentry|]. split; [|split; [|intros; apply set_parent_returns_iff]].
  - intros Hnone calls node label'.
    assert (Hstuck : unlabelled h1 b a) by (split; [assumption|apply Hentry; assumption]).
    destruct (unlabelled_run_calls calls h1 b a Hstuck) as [Hp Hd'].
    rewrite (set_parent_KeyError _ b a node label' Hp Hd'). reflexivity.
  - intros Hsome Hne node label'.
    assert (Hkept : is_Some (deprels (h1 !!! b) !! a)).
    { apply not_eq_None_Some. intros Hl.
      apply Hentry in Hl as [Hnone|Heq]; [|contradiction].
      rewrite Hnone in Hsome. destruct Hsome as [l Hl]. discriminate. }
    destruct (set_parent_returns_iff h1 b node label') as [_ Hret].
    destruct Hret as (h2 & prev' & Hrun2); [rewrite Hp1; exact Hkept|].
    assert (Hb1 : (b < length h1)%nat).
    { pose proof (set_parent_length h b (Some a) label) as Hlen.
      rewrite Hrun in Hlen. cbn [fst] in Hlen. lia. }
    destruct (set_parent_links h1 h2 b node prev' label' Hb1 Hrun2) as (Hprev' & _).
    exists h2. rewrite Hrun2, Hprev', Hp1. reflexivity.
Qed.

(** Token 2 attached to token 1 without a label, then moved to token 3 and
    detached, with a [set_parent] of token 3 in between; and token 2
    attached to token 1 with a label and attached to it again without
    one. *)
Lemma detach_without_label_witness :
  let h := (alloc_tokens [1; 2; 3] []).1 in
  let h1 := (set_parent 1%nat (Some 0%nat) None h).1 in
  let h2 := (set_parent 1%nat (Some 0%nat) None
               (set_parent 1%nat (Some 0%nat) (Some "lbl"%string) h).1).1 in
  (set_parent 1%nat (Some 2%nat) (Some "lbl"%string) h1).2 = Raise KeyError ∧
  (set_parent 1%nat None None
     (run_calls [(2%nat, Some 0%nat, Some "x"%string); (1%nat, Some 2%nat, None)] h1)).2
  = Raise KeyError ∧
  (set_parent 1%nat None None h2).2 = Raise KeyError.
Proof.
  intros h h1 h2.
  destruct (detach_without_label_raises h h1 1%nat 0%nat None None)
    as (_ & Hraise & _); try (vm_compute; reflexivity).
  - vm_compute. lia.
  - destruct (detach_without_label_raises
                (set_parent 1%nat (Some 0%nat) (Some "lbl"%string) h).1 h2
                1%nat 0%nat None (Some 0%nat))
      as (_ & Hagain & _); try (vm_compute; reflexivity).
    + vm_compute. lia.
    + split; [apply (Hraise (or_introl eq_refl) [])|].
      split; [apply (Hraise (or_introl eq_refl))|].
      apply (Hagain (or_intror eq_refl) []).
Defined.

(** C10, as stated, fails.  Token 2 holds the label ["x"] for token 1
    from a secondary link and is then attached to token 1 without a label:
    the detachment returns.  And after an attachment without a label,
    [set_dependency_label] stores the missing entry, and the detachment
    returns as well. *)
Lemma unlabelled_attach_detaches :
  let h := (alloc_tokens [1; 2] []).1 in
  (∃ h1 h2 h3,
     add_secondary_parent 1%nat 0%nat (Some "x"%string) h = (h1, Ok tt) ∧
     set_parent 1%nat (Some 0%nat) None h1 = (h2, Ok None) ∧
     set_parent 1%nat None None h2 = (h3, Ok (Some 0%nat)) ∧
     (set_parent 1%nat None None h2).2 ≠ Raise KeyError) ∧
  (∃ h1 h2 h3,
     set_parent 1%nat (Some 0%nat) None h = (h1, Ok None) ∧
     set_dependency_label 1%nat 0%nat (Some "x"%string) h1 = (h2, Ok tt) ∧
     set_parent 1%nat None None h2 = (h3, Ok (Some 0%nat)) ∧
     (set_parent 1%nat None None h2).2 ≠ Raise KeyError).
Proof.
  intros h. split.
  - eexists _, _, _. split; [vm_compute; reflexivity|].
    split; [vm_compute; reflexivity|]. split; [vm_compute; reflexivity|].
    vm_compute. discriminate.
  - eexists _, _, _. split; [vm_compute; reflexivity|].
    split; [vm_compute; reflexivity|]. split; [vm_compute; reflexivity|].
    vm_compute. discriminate.
Qed.

(** C2.  Three tokens; [b] (token 2) is attached to [x] (token 1) without
    a label, then [b.set_parent(a, "lbl")] is called for [a] (token 3).
    The call raises [KeyError]: afterwards [a.children] does not contain
    [b], [b.parent] is still [x], and [x.children] no longer contains [b]
    although [b]'s parent is [x]. *)
Theorem set_parent_breaks_children :
  let h := (alloc_tokens [1; 2; 3] []).1 in
  let x := 0%nat in let b := 1%nat in let a := 2%nat in
  ∃ h1 h2,
    set_parent b (Some x) None h = (h1, Ok None) ∧
    children (h1 !!! x) = [b] ∧ parent (h1 !!! b) = Some x ∧
    set_parent b (Some a) (Some "lbl"%string) h1 = (h2, Raise KeyError) ∧
    children (h2 !!! a) = [] ∧
    parent (h2 !!! b) = Some x ∧
    children (h2 !!! x) = [].
Proof.
  eexists _, _. split; [vm_compute; reflexivity|].
  split; [vm_compute; reflexivity|].
  split; [vm_compute; reflexivity|].
  split; [vm_compute; reflexivity|].
  vm_compute. repeat split.
Qed.

(** ** Attaching with labels keeps the graph consistent *)

Lemma bisect_remove_cons (y x : ref) (a : list ref) :
  bisect_remove (y :: a) x = if decide (y = x) then a else y :: bisect_remove a x.
Proof.
  unfold bisect_remove. cbn [bisect_index].
  destruct (decide (y = x)) as [->|Hne].
  - rewrite (bool_decide_eq_true_2 (x = x)) by reflexivity.
    rewrite bool_decide_eq_true_2 by lia. reflexivity.
  - rewrite (bool_decide_eq_false_2 (y = x)) by assumption.
    destruct (bool_decide (0 <= bisect_index a x)) eqn:Hi.
    + apply bool_decide_eq_true_1 in Hi.
      rewrite bool_decide_eq_true_2 by lia.
      replace (Z.to_nat (1 + bisect_index a x)) with (S (Z.to_nat (bisect_index a x))) by lia.
      reflexivity.
    + rewrite bool_decide_eq_false_2 by lia. reflexivity.
Qed.

Lemma insort_right_cons (key : ref → Z) (y x : ref) (a : list ref) :
  insort_right key (y :: a) x
  = if decide (key y <= key x) then y :: insort_right key a x else x :: y :: a.
Proof.
  unfold insort_right. cbn [bisect_right].
  assert (Hnn : ∀ l, 0 <= bisect_right key l x).
  { induction l as [|z l IH]; cbn [bisect_right]; [lia|]. case_bool_decide; lia. }
  destruct (decide (key y <= key x)) as [Hle|Hgt].
  - rewrite bool_decide_eq_true_2 by assumption.
    specialize (Hnn a).
    replace (Z.to_nat (1 + bisect_right key a x)) with (S (Z.to_nat (bisect_right key a x))) by lia.
    reflexivity.
  - rewrite bool_decide_eq_false_2 by assumption. reflexivity.
Qed.

Lemma elem_of_bisect_remove_ne (a : list ref) (x c : ref) :
  c ≠ x → c ∈ bisect_remove a x ↔ c ∈ a.
Proof.
  intros Hne. induction a as [|y a IH]; [reflexivity|].
  rewrite bisect_remove_cons. destruct (decide (y = x)) as [->|Hyx].
  - rewrite elem_of_cons. split; [auto|]. intros [?|?]; [congruence|assumption].
  - rewrite !elem_of_cons, IH. reflexivity.
Qed.

Lemma not_elem_of_bisect_remove (a : list ref) (x : ref) :
  NoDup a → x ∉ bisect_remove a x.
Proof.
  induction 1 as [|y a Hy Hnd IH]; [inversion 1|].
  rewrite bisect_remove_cons. destruct (decide (y = x)) as [->|Hyx]; [assumption|].
  rewrite not_elem_of_cons. split; [congruence|assumption].
Qed.

Lemma Forall_bisect_remove (P : ref → Prop) (a : list ref) (x : ref) :
  Forall P a → Forall P (bisect_remove a x).
Proof.
  induction 1 as [|y a Hy Ha IH]; [constructor|].
  rewrite bisect_remove_cons. destruct (decide (y = x)); [assumption|].
  constructor; assumption.
Qed.

Lemma NoDup_bisect_remove (a : list ref) (x : ref) :
  NoDup a → NoDup (bisect_remove a x).
Proof.
  induction 1 as [|y a Hy Hnd IH]; [constructor|].
  rewrite bisect_remove_cons. destruct (decide (y = x)) as [->|Hyx]; [assumption|].
  apply NoDup_cons. split; [|assumption].
  rewrite elem_of_bisect_remove_ne by assumption. assumption.
Qed.

Lemma sorted_by_bisect_remove (key : ref → Z) (a : list ref) (x : ref) :
  sorted_by key a → sorted_by key (bisect_remove a x).
Proof.
  induction a as [|y a IH]; [trivial|].
  intros [Hy Ha]. rewrite bisect_remove_cons. destruct (decide (y = x)); [assumption|].
  split; [apply Forall_bisect_remove; assumption|apply IH; assumption].
Qed.

Lemma insort_right_nil (key : ref → Z) (x : ref) : insort_right key [] x = [x].
Proof. reflexivity. Qed.

Lemma elem_of_insort_right (key : ref → Z) (a : list ref) (x c : ref) :
  c ∈ insort_right key a x ↔ c = x ∨ c ∈ a.
Proof.
  induction a as [|y a IH].
  - rewrite insort_right_nil, list_elem_of_singleton. split; [auto|]. intros [?|H]; [assumption|inversion H].
  - rewrite insort_right_cons. destruct (decide _).
    + rewrite !elem_of_cons, IH. tauto.
    + rewrite !elem_of_cons. tauto.
Qed.

Lemma NoDup_insort_right (key : ref → Z) (a : list ref) (x : ref) :
  NoDup a → x ∉ a → NoDup (insort_right key a x).
Proof.
  induction 1 as [|y a Hy Hnd IH]; intros Hx.
  - rewrite insort_right_nil. apply NoDup_singleton.
  - apply not_elem_of_cons in Hx as [Hxy Hx].
    rewrite insort_right_cons. destruct (decide _).
    + apply NoDup_cons. split; [|apply IH; assumption].
      rewrite elem_of_insort_right. intros [?|?]; [congruence|contradiction].
    + apply NoDup_cons. split; [|apply NoDup_cons; split; assumption].
      rewrite elem_of_cons. intros [?|?]; [congruence|contradiction].
Qed.

Lemma sorted_by_insort_right (key : ref → Z) (a : list ref) (x : ref) :
  sorted_by key a → sorted_by key (insort_right key a x).
Proof.
  induction a as [|y a IH]; intros Ha.
  - rewrite insort_right_nil. split; [constructor|exact I].
  - destruct Ha as [Hy Ha]. rewrite insort_right_cons. destruct (decide _) as [Hle|Hgt].
    + split; [|apply IH; assumption].
      apply Forall_forall. intros c Hc. apply elem_of_insort_right in Hc as [->|Hc]; [assumption|].
      rewrite Forall_forall in Hy. apply Hy. assumption.
    + split; [|split; assumption].
      apply Forall_cons. split; [lia|].
      eapply Forall_impl; [exact Hy|]. intros c Hc. cbn in Hc. lia.
Qed.

Lemma insort_right_ext (k1 k2 : ref → Z) (a : list ref) (x : ref) :
  (∀ r, k1 r = k2 r) → insort_right k1 a x = insort_right k2 a x.
Proof.
  intros Hk. induction a as [|y a IH]; [reflexivity|].
  rewrite !insort_right_cons, IH, !Hk. reflexivity.
Qed.

Lemma sorted_by_ext (k1 k2 : ref → Z) (a : list ref) :
  (∀ r, k1 r = k2 r) → sorted_by k1 a → sorted_by k2 a.
Proof.
  intros Hk. induction a as [|y a IH]; [trivial|].
  intros [Hy Ha]. split; [|apply IH; assumption].
  eapply Forall_impl; [exact Hy|]. intros c Hc. cbn in Hc. rewrite <- !Hk. assumption.
Qed.

Lemma lookup_total_unallocated (h : heap) (r : ref) :
  (length h ≤ r)%nat → h !!! r = default_node.
Proof.
  intros Hr. rewrite list_lookup_total_alt, lookup_ge_None_2 by assumption. reflexivity.
Qed.

(** Writing [parent] or [deprels] changes neither an id nor a child list. *)
Lemma update_keeps_children (h : heap) (r0 r : ref) (f : NLPNode → NLPNode) :
  (∀ n, node_id (f n) = node_id n ∧ children (f n) = children n) →
  node_id ((<[r0 := f (h !!! r0)]> h) !!! r) = node_id (h !!! r) ∧
  children ((<[r0 := f (h !!! r0)]> h) !!! r) = children (h !!! r).
Proof.
  intros Hf. rewrite lookup_total_update.
  destruct (decide _) as [[-> _]|_]; [apply Hf|split; reflexivity].
Qed.

(** Writing [children] of [r0]. *)
Lemma update_children_at (h : heap) (r0 r : ref) (c : list ref) :
  (r0 < length h)%nat ∨ c = children (h !!! r0) →
  node_id ((<[r0 := with_children c (h !!! r0)]> h) !!! r) = node_id (h !!! r) ∧
  children ((<[r0 := with_children c (h !!! r0)]> h) !!! r)
  = (if decide (r0 = r) then c else children (h !!! r)).
Proof.
  intros Hr0. rewrite lookup_total_update.
  destruct (decide (r0 = r ∧ (r0 < length h)%nat)) as [[-> Hlt]|Hno].
  - rewrite decide_True by reflexivity. split; reflexivity.
  - destruct (decide (r0 = r)) as [->|Hne]; [|split; reflexivity].
    destruct Hr0 as [Hlt | ->]; [exfalso; apply Hno; split; [reflexivity|assumption]|].
    split; reflexivity.
Qed.

Lemma set_parent_children (h h' : heap) (b : ref) (node prev : option ref)
    (label : option string) :
  (∀ a, node = Some a → (a < length h)%nat) →
  set_parent b node label h = (h', Ok prev) →
  length h' = length h ∧
  ∀ r, node_id (h' !!! r) = node_id (h !!! r) ∧
       children (h' !!! r) = children_after h b node r.
Proof.
  intros Ha Hrun. unfold set_parent in Hrun.
  bind_inv Hrun as pp ha Hgets. unfold gets in Hgets. inversion Hgets; subst pp ha; clear Hgets.
  bind_inv Hrun as u1 hb Hdetach.
  bind_inv Hrun as u2 hc Hsetp.
  bind_inv Hrun as u3 hd Hattach.
  unfold ret in Hrun. inversion Hrun; subst hd prev; clear Hrun.
  unfold children_after.
  (* detaching *)
  assert (Hhb : length hb = length h ∧
                ∀ r, node_id (hb !!! r) = node_id (h !!! r) ∧
                     children (hb !!! r)
                     = (if decide (parent (h !!! b) = Some r)
                        then bisect_remove (children (h !!! r)) b else children (h !!! r))).
  { destruct (parent (h !!! b)) as [p|].
    - bind_inv Hdetach as u4 he Hrm.
      unfold update in Hrm. inversion Hrm; subst he; clear Hrm.
      unfold del_deprel in Hdetach. bind_inv Hdetach as d hf Hgets.
      unfold gets in Hgets. inversion Hgets; subst d hf; clear Hgets.
      destruct (_ !! p); [|discriminate].
      unfold update in Hdetach. inversion Hdetach; subst hb; clear Hdetach.
      split; [rewrite !length_insert; reflexivity|]. intros r.
      match goal with |- context [<[b := with_deprels ?d (?hx !!! b)]> ?hx] =>
        destruct (update_keeps_children hx b r (with_deprels d)) as [Hi Hc];
          [intros n; split; reflexivity|] end.
      rewrite Hi, Hc.
      destruct (update_children_at h p r (bisect_remove (children (h !!! p)) b)) as [Hi' Hc'].
      { destruct (decide (p < length h)%nat); [left; assumption|right].
        rewrite lookup_total_unallocated by lia. reflexivity. }
      rewrite Hi', Hc'. split; [reflexivity|].
      destruct (decide (p = r)) as [->|Hne].
      + rewrite decide_True by reflexivity. reflexivity.
      + rewrite decide_False by congruence. reflexivity.
    - unfold ret in Hdetach. inversion Hdetach; subst hb. split; [reflexivity|].
      intros r. rewrite decide_False by discriminate. split; reflexivity. }
  destruct Hhb as [Hlb Hfb].
  unfold update in Hsetp. inversion Hsetp as [Ehc]; clear Hsetp.
  assert (Hhc : length hc = length h ∧
                ∀ r, node_id (hc !!! r) = node_id (h !!! r) ∧
                     children (hc !!! r)
                     = (if decide (parent (h !!! b) = Some r)
                        then bisect_remove (children (h !!! r)) b else children (h !!! r))).
  { subst hc. split; [rewrite length_insert; assumption|]. intros r.
    destruct (update_keeps_children hb b r (with_parent node)) as [Hi Hc];
      [intros n; split; reflexivity|].
    destruct (Hfb r) as [Hi' Hc']. split; congruence. }
  clear Ehc Hfb Hlb Hdetach. destruct Hhc as [Hlc Hfc].
  destruct node as [a|].
  - bind_inv Hattach as u5 hg Hins.
    unfold update in Hins. inversion Hins as [Ehg]; clear Hins.
    assert (Hkey : ∀ r, nid hc r = nid h r).
    { intros r. unfold nid. apply Hfc. }
    assert (Hhg : length hg = length h ∧
                  ∀ r, node_id (hg !!! r) = node_id (h !!! r) ∧
                       children (hg !!! r)
                       = (if decide (Some a = Some r)
                          then insort_right (nid h) (children (hc !!! r)) b
                          else children (hc !!! r))).
    { subst hg. split; [rewrite length_insert; assumption|]. intros r.
      destruct (update_children_at hc a r (insort_right (nid hc) (children (hc !!! a)) b))
        as [Hi Hc].
      { left. rewrite Hlc. apply Ha. reflexivity. }
      destruct (Hfc r) as [Hi' _].
      split; [congruence|]. rewrite Hc.
      destruct (decide (a = r)) as [->|Hne].
      - rewrite decide_True by reflexivity. apply insort_right_ext. assumption.
      - rewrite decide_False by congruence. reflexivity. }
    clear Ehg. destruct Hhg as [Hlg Hfg].
    assert (Hfinal : ∀ r, node_id (hg !!! r) = node_id (h !!! r) ∧
                          children (hg !!! r)
                          = (if decide (Some a = Some r)
                             then insort_right (nid h)
                                    (if decide (parent (h !!! b) = Some r)
                                     then bisect_remove (children (h !!! r)) b
                                     else children (h !!! r)) b
                             else if decide (parent (h !!! b) = Some r)
                                  then bisect_remove (children (h !!! r)) b
                                  else children (h !!! r))).
    { intros r. destruct (Hfg r) as [Hi Hc]. destruct (Hfc r) as [_ Hc'].
      split; [assumption|]. rewrite Hc, Hc'. reflexivity. }
    unfold set_dependency_label in Hattach.
    destruct (truthy label).
    + unfold update in Hattach. inversion Hattach as [Eh']; clear Hattach.
      split; [rewrite length_insert; assumption|]. intros r.
      destruct (update_keeps_children hg b r
                  (with_deprels (<[a := default EmptyString label]> (deprels (hg !!! b)))))
        as [Hi Hc]; [intros n; split; reflexivity|].
      destruct (Hfinal r) as [Hi' Hc']. split; congruence.
    + unfold ret in Hattach. inversion Hattach; subst h'; clear Hattach.
      split; [assumption|]. apply Hfinal.
  - unfold ret in Hattach. inversion Hattach; subst h'; clear Hattach.
    split; [assumption|]. intros r.
    destruct (Hfc r) as [Hi Hc]. split; [assumption|].
    rewrite decide_False by discriminate. assumption.
Qed.

Lemma not_elem_of_detached (h : heap) (b p : ref) :
  well_formed h →
  b ∉ (if decide (parent (h !!! b) = Some p)
       then bisect_remove (children (h !!! p)) b else children (h !!! p)).
Proof.
  intros (_ & Hch & Hnd & _). destruct (decide _) as [Hp|Hp].
  - apply not_elem_of_bisect_remove. apply Hnd.
  - rewrite Hch. assumption.
Qed.

(** A [set_parent] call that attaches with a non-empty label, or
    detaches, returns and keeps a consistent graph consistent. *)
Lemma set_parent_well_formed (h : heap) (b : ref) (node : option ref) (label : option string) :
  well_formed h →
  (b < length h)%nat →
  (∀ a, node = Some a → (a < length h)%nat ∧ truthy label = true) →
  ∃ h', set_parent b node label h = (h', Ok (parent (h !!! b))) ∧
        well_formed h' ∧
        length h' = length h ∧
        parent (h' !!! b) = node ∧
        (∀ a, node = Some a →
              get_dependency_label h' b None = label ∧ b ∈ children (h' !!! a)) ∧
        (∀ p, parent (h !!! b) = Some p → node ≠ Some p → b ∉ children (h' !!! p)).
Proof.
  intros Hwf Hb Hnode.
  pose proof Hwf as (Hlab & Hch & Hnd & Hso).
  destruct (set_parent_returns_iff h b node label) as [_ Hret].
  destruct Hret as (h' & prev & Hrun).
  { destruct (parent (h !!! b)) eqn:Hp; [apply Hlab; assumption|trivial]. }
  destruct (set_parent_links h h' b node prev label Hb Hrun) as (-> & Hp & Hd).
  destruct (set_parent_children h h' b node (parent (h !!! b)) label) as [Hlen Hfields];
    [intros a Ha; apply Hnode; assumption|assumption|].
  assert (Hother : ∀ r, r ≠ b → parent (h' !!! r) = parent (h !!! r) ∧
                                deprels (h' !!! r) = deprels (h !!! r)).
  { intros r Hr. pose proof (keeps_set_parent r b node label ltac:(congruence) h)
      as (_ & Hp' & Hd' & _).
    rewrite Hrun in Hp', Hd'. split; assumption. }
  assert (Hkey : ∀ r, nid h' r = nid h r) by (intros r; apply Hfields).
  exists h'. split; [assumption|]. split; [|split; [assumption|split; [assumption|split]]].
  - (* the invariant *)
    split; [|split; [|split]].
    + intros c p Hc. destruct (decide (c = b)) as [Heq|Hne].
      * subst c. rewrite Hp in Hc. destruct (Hnode p Hc) as [_ Ht].
        rewrite Hd, Hc, Ht. cbn zeta. rewrite lookup_insert_eq. eauto.
      * destruct (Hother c Hne) as [Hp' Hd']. rewrite Hd'. apply Hlab. congruence.
    + intros p c. destruct (Hfields p) as [_ ->]. unfold children_after.
      pose proof (not_elem_of_detached h b p Hwf) as Hnot.
      destruct (decide (c = b)) as [Heq|Hne].
      * subst c. rewrite Hp. destruct (decide (node = Some p)) as [Hn|Hn].
        -- rewrite elem_of_insort_right. tauto.
        -- split; [contradiction|congruence].
      * destruct (Hother c Hne) as [-> _].
        assert (Hin : c ∈ (if decide (parent (h !!! b) = Some p)
                           then bisect_remove (children (h !!! p)) b
                           else children (h !!! p)) ↔ parent (h !!! c) = Some p).
        { destruct (decide _); [rewrite elem_of_bisect_remove_ne by assumption|]; apply Hch. }
        destruct (decide (node = Some p)); [|assumption].
        rewrite elem_of_insort_right, Hin. split; [intros [?|?]; [congruence|assumption]|auto].
    + intros p. destruct (Hfields p) as [_ ->]. unfold children_after.
      pose proof (not_elem_of_detached h b p Hwf) as Hnot.
      assert (Hnd0 : NoDup (if decide (parent (h !!! b) = Some p)
                            then bisect_remove (children (h !!! p)) b
                            else children (h !!! p))).
      { destruct (decide _); [apply NoDup_bisect_remove|]; apply Hnd. }
      destruct (decide (node = Some p)); [|assumption].
      apply NoDup_insort_right; assumption.
    + intros p. apply (sorted_by_ext (nid h)); [intros r; symmetry; apply Hkey|].
      destruct (Hfields p) as [_ ->]. unfold children_after.
      assert (Hso0 : sorted_by (nid h) (if decide (parent (h !!! b) = Some p)
                                        then bisect_remove (children (h !!! p)) b
                                        else children (h !!! p))).
      { destruct (decide _); [apply sorted_by_bisect_remove|]; apply Hso. }
      destruct (decide (node = Some p)); [|assumption].
      apply sorted_by_insort_right. assumption.
  - intros a ->. split.
    + unfold get_dependency_label. rewrite Hp, Hd.
      destruct (Hnode a eq_refl) as [_ Htruthy]. rewrite Htruthy. cbn zeta.
      rewrite lookup_insert_eq. destruct label as [[|c l]|]; try discriminate. reflexivity.
    + destruct (Hfields a) as [_ ->]. unfold children_after.
      rewrite decide_True by reflexivity. rewrite elem_of_insort_right. left. reflexivity.
  - intros p Hprev Hn. destruct (Hfields p) as [_ ->]. unfold children_after.
    rewrite decide_False by assumption.
    apply not_elem_of_detached. assumption.
Qed.

Lemma fresh_well_formed (h : heap) :
  Forall (λ n, parent n = None ∧ children n = []) h → well_formed h.
Proof.
  intros Hfresh.
  assert (Hall : ∀ r : ref, parent (h !!! r) = None ∧ children (h !!! r) = []).
  { intros r. destruct (decide (r < length h)%nat) as [Hlt|Hge].
    - destruct (lookup_lt_is_Some_2 h r Hlt) as [n Hn].
      rewrite (list_lookup_total_correct h r n Hn).
      rewrite Forall_lookup in Hfresh. eapply Hfresh. exact Hn.
    - rewrite lookup_total_unallocated by lia. split; reflexivity. }
  split; [|split; [|split]].
  - intros c p Hc. destruct (Hall c) as [Hp _]. congruence.
  - intros p c. destruct (Hall p) as [_ ->]. destruct (Hall c) as [-> _].
    split; [inversion 1|discriminate].
  - intros p. destruct (Hall p) as [_ ->]. constructor.
  - intros p. destruct (Hall p) as [_ ->]. exact I.
Qed.

Lemma run_calls_app (cs1 cs2 : list call) (h : heap) :
  run_calls (cs1 ++ cs2) h = run_calls cs2 (run_calls cs1 h).
Proof.
  revert h. induction cs1 as [|[[self node] label] cs1 IH]; intros h; [reflexivity|].
  cbn [app run_calls]. apply IH.
Qed.

Lemma run_calls_well_formed (calls : list call) (h : heap) :
  well_formed h →
  Forall (labelled_call (length h)) calls →
  well_formed (run_calls calls h) ∧ length (run_calls calls h) = length h.
Proof.
  revert h. induction calls as [|[[self node] label] calls IH]; intros h Hwf Hcalls.
  - split; [assumption|reflexivity].
  - apply Forall_cons in Hcalls as [[Hself Hnode] Hcalls].
    destruct (set_parent_well_formed h self node label Hwf Hself Hnode)
      as (h' & Hrun & Hwf' & Hlen & _).
    cbn [run_calls]. rewrite Hrun. cbn [fst].
    destruct (IH h' Hwf') as [Hwf'' Hlen'']; [rewrite Hlen; assumption|].
    split; [assumption|congruence].
Qed.

(** X1.  Any sequence of [set_parent] calls that attach with a non-empty
    label, or detach, keeps the graph consistent: every call of the
    sequence returns, with the parent the node had when it was called, on
    the store the calls before it have left; and afterwards the children
    of every node are the nodes whose parent it is, once each and sorted
    by [node_id]. *)
Theorem labelled_calls_keep_well_formed (calls : list call) (h : heap) :
  well_formed h →
  Forall (labelled_call (length h)) calls →
  (∀ (before after : list call) (self : ref) (node : option ref) (label : option string),
     calls = before ++ (self, node, label) :: after →
     ∃ h', set_parent self node label (run_calls before h)
           = (h', Ok (parent (run_calls before h !!! self))) ∧
           well_formed h' ∧
           parent (h' !!! self) = node) ∧
  well_formed (run_calls calls h) ∧ length (run_calls calls h) = length h.
Proof.
  intros Hwf Hcalls. split; [|apply run_calls_well_formed; assumption].
  intros before after self node label ->.
  apply Forall_app in Hcalls as [Hbefore Hrest].
  apply Forall_cons in Hrest as [[Hself Hnode] _].
  destruct (run_calls_well_formed before h Hwf Hbefore) as [Hwf1 Hlen1].
  destruct (set_parent_well_formed (run_calls before h) self node label Hwf1)
    as (h' & Hrun & Hwf' & _ & Hparent & _).
  - rewrite Hlen1. assumption.
  - rewrite Hlen1. assumption.
  - exists h'. split; [exact Hrun|]. split; assumption.
Qed.

(** X2.  In a consistent graph [b.set_parent(a, lbl)] with a non-empty
    label returns the previous parent; afterwards [b.parent] is [a], the label of
    [b] is [lbl] and [a.children] holds [b], once and in sorted position.
    A following [b.set_parent(None)] returns [a]; afterwards [b] has no
    parent and [a.children] does not hold [b]. *)
Theorem set_parent_then_clear (h : heap) (a b : ref) (lbl : string) :
  well_formed h →
  (a < length h)%nat → (b < length h)%nat →
  lbl ≠ EmptyString →
  ∃ h1 h2,
    set_parent b (Some a) (Some lbl) h = (h1, Ok (parent (h !!! b))) ∧
    parent (h1 !!! b) = Some a ∧
    get_dependency_label h1 b None = Some lbl ∧
    b ∈ children (h1 !!! a) ∧
    NoDup (children (h1 !!! a)) ∧
    sorted_by (nid h1) (children (h1 !!! a)) ∧
    set_parent b None None h1 = (h2, Ok (Some a)) ∧
    parent (h2 !!! b) = None ∧
    (b ∉ children (h2 !!! a)) ∧
    well_formed h2.
Proof.
  intros Hwf Ha Hb Hlbl.
  destruct (set_parent_well_formed h b (Some a) (Some lbl) Hwf Hb)
    as (h1 & Hrun1 & Hwf1 & Hlen1 & Hp1 & Hattached & _).
  { intros a' Heq. inversion Heq; subst a'. split; [assumption|].
    destruct lbl; [congruence|reflexivity]. }
  destruct (Hattached a eq_refl) as [Hlabel Hin].
  destruct (set_parent_well_formed h1 b None None Hwf1)
    as (h2 & Hrun2 & Hwf2 & Hlen2 & Hp2 & _ & Hgone); [lia|discriminate|].
  rewrite Hp1 in Hrun2.
  pose proof Hwf1 as (_ & _ & Hnd1 & Hso1).
  exists h1, h2.
  split; [assumption|]. split; [assumption|]. split; [assumption|].
  split; [assumption|]. split; [apply Hnd1|]. split; [apply Hso1|].
  split; [assumption|]. split; [assumption|].
  split; [|assumption].
  apply (Hgone a); [assumption|discriminate].
Qed.

(** ** Extraction of training instances *)

(** [0, k, 2k, ...] cut a list into contiguous pieces. *)
Lemma concat_islices {A} (l : list A) (sz t : nat) :
  concat (map (λ i, islice l (i * sz) (((i + 1) * sz) `min` length l)) (seq 0 t))
  = take (t * sz) l.
Proof.
  induction t as [|t IH]; [reflexivity|].
  rewrite seq_S, map_app, concat_app, IH. cbn [map concat Nat.add].
  rewrite app_nil_r. unfold islice.
  assert (Hcut : take (((t + 1) * sz) `min` length l) l = take ((t + 1) * sz) l).
  { destruct (decide ((t + 1) * sz ≤ length l)%nat).
    - f_equal. lia.
    - rewrite !take_ge by lia. reflexivity. }
  rewrite Hcut.
  replace (S t * sz)%nat with ((t + 1) * sz)%nat by lia.
  rewrite <- (take_drop (t * sz) (take ((t + 1) * sz) l)) at 2.
  f_equal. rewrite take_take. f_equal. lia.
Qed.

Lemma ceil_div_covers (n k : Z) : 0 < k → n <= k * ceil_div n k.
Proof.
  intros Hk. unfold ceil_div.
  pose proof (Z.div_mod (- n) k ltac:(lia)).
  pose proof (Z.mod_pos_bound (- n) k Hk). lia.
Qed.

Lemma ceil_div_nonneg (n k : Z) : 0 < k → 0 <= n → 0 <= ceil_div n k.
Proof.
  intros Hk Hn. unfold ceil_div.
  pose proof (Z.div_mod (- n) k ltac:(lia)).
  pose proof (Z.mod_pos_bound (- n) k Hk). nia.
Qed.

Lemma add_labels_app (m : NLPModel) (ys1 ys2 : list string) :
  add_labels m (ys1 ++ ys2)
  = ((add_labels (add_labels m ys1).1 ys2).1,
     (add_labels m ys1).2 ++ (add_labels (add_labels m ys1).1 ys2).2).
Proof.
  revert m. induction ys1 as [|y ys1 IH]; intros m.
  - cbn. destruct (add_labels m ys2). reflexivity.
  - cbn [add_labels app]. destruct (add_label m y) as [m1 i].
    rewrite IH. destruct (add_labels m1 ys1) as [m2 is1]. cbn [fst snd].
    destruct (add_labels m2 ys2) as [m3 is2]. reflexivity.
Qed.

Section Extraction.

Context {State Score Num Vec : Type} `{!NLPState State Score Num}.
Variable x : State → Vec.

Lemma xys_nonempty {A} (m : NLPModel) (ps : list (A * string)) :
  ps ≠ [] →
  xys m ps
  = ((add_labels m (map snd ps)).1, Ok (map fst ps, (add_labels m (map snd ps)).2)).
Proof.
  intros Hne. destruct ps as [|p ps]; [congruence|].
  unfold xys, unpack2.
  destruct (add_labels m (map snd (p :: ps))) as [m' is']. reflexivity.
Qed.

Lemma xys_pairs (m : NLPModel) (states : list State) :
  states ≠ [] →
  xys m (map (λ s, (x s, gold s)) states) = extracted x m states.
Proof.
  intros Hne. rewrite xys_nonempty.
  - rewrite !map_map. reflexivity.
  - destruct states; [congruence|discriminate].
Qed.

Lemma xys_empty (m : NLPModel) : xys (Vec := Vec) m [] = (m, Raise ValueError).
Proof. reflexivity. Qed.

Lemma train_instances_sequential (m : NLPModel) (states : list State) :
  states ≠ [] → train_instances x m states 1 = extracted x m states.
Proof.
  intros Hne. unfold train_instances. rewrite bool_decide_eq_true_2 by reflexivity.
  change (match unpack2 ?ps with
          | Ok (xs, ys) => let '(m', is') := add_labels m ys in (m', Ok (xs, is'))
          | Raise e => (m, Raise e)
          end) with (xys m ps).
  unfold instances, islice.
  replace (Z.to_nat (0 * Z.of_nat (length states))) with 0%nat by lia.
  rewrite take_ge by lia. cbn [drop]. apply xys_pairs. assumption.
Qed.

(** Collecting the futures of chunks none of which is empty gives the
    chunk results in chunk order. *)
Lemma collect_chunks (m : NLPModel) (chunks : list (list State)) :
  Forall (λ c, c ≠ []) chunks →
  ∃ rs, collect m (map (map (λ s, (x s, gold s))) chunks)
        = ((add_labels m (map gold (concat chunks))).1, Ok rs) ∧
        concat (map fst rs) = map x (concat chunks) ∧
        concat (map snd rs) = (add_labels m (map gold (concat chunks))).2.
Proof.
  intros Hne. revert m. induction Hne as [|c chunks Hc _ IH]; intros m.
  - exists []. repeat split.
  - cbn [map collect]. rewrite xys_pairs by assumption. unfold extracted.
    destruct (IH (add_labels m (map gold c)).1) as (rs & Hrs & Hxs & Hys).
    rewrite Hrs. eexists. split; [|split].
    + cbn [concat]. rewrite map_app, add_labels_app. reflexivity.
    + cbn [map concat fst]. rewrite Hxs, map_app. reflexivity.
    + cbn [map concat snd]. rewrite Hys, map_app, add_labels_app. reflexivity.
Qed.

(** One empty chunk makes the collection raise. *)
Lemma collect_empty_chunk (m : NLPModel) (chunks : list (list State)) :
  [] ∈ chunks →
  (collect m (map (map (λ s, (x s, gold s))) chunks)).2 = Raise ValueError.
Proof.
  revert m. induction chunks as [|c chunks IH]; intros m Hin.
  - inversion Hin.
  - destruct c as [|s c].
    + reflexivity.
    + cbn [map collect].
      change ((x s, gold s) :: map (λ s0, (x s0, gold s0)) c)
        with (map (λ s0, (x s0, gold s0)) (s :: c)).
      rewrite xys_pairs by discriminate.
      unfold extracted.
      apply elem_of_cons in Hin as [Heq|Hin]; [discriminate|].
      specialize (IH (add_labels m (map gold (s :: c))).1 Hin).
      destruct (collect _ _) as [m2 [rs|e]]; cbn [snd] in IH |- *; congruence.
Qed.

Lemma train_instances_parallel (m : NLPModel) (states : list State) (num_threads : Z) :
  1 < num_threads →
  train_instances x m states num_threads
  = match collect m (map (map (λ s, (x s, gold s))) (chunks_of states num_threads)) with
    | (m', Ok rs) => (m', Ok (concat (map fst rs), concat (map snd rs)))
    | (m', Raise e) => (m', Raise e)
    end.
Proof.
  intros Ht. unfold train_instances.
  rewrite bool_decide_eq_false_2 by lia.
  rewrite bool_decide_eq_false_2 by lia.
  unfold chunks_of, instances. rewrite map_map. reflexivity.
Qed.

Lemma concat_chunks_of (states : list State) (num_threads : Z) :
  0 < num_threads → concat (chunks_of states num_threads) = states.
Proof.
  intros Ht. unfold chunks_of.
  set (size := ceil_div (Z.of_nat (length states)) num_threads).
  pose proof (ceil_div_covers (Z.of_nat (length states)) num_threads Ht) as Hcov.
  pose proof (ceil_div_nonneg (Z.of_nat (length states)) num_threads Ht ltac:(lia)) as Hnn.
  fold size in Hcov, Hnn.
  transitivity (take (Z.to_nat num_threads * Z.to_nat size) states);
    [|apply take_ge; nia].
  rewrite <- concat_islices. f_equal.
  apply map_ext. intros i. f_equal; nia.
Qed.

(** X3.  When no chunk is empty, the parallel path returns what the
    sequential path returns: same rows, same labels, same order, same
    vocabulary. *)
Lemma train_instances_parallel_agrees (m : NLPModel) (states : list State) (num_threads : Z) :
  1 < num_threads →
  Forall (λ c, c ≠ []) (chunks_of states num_threads) →
  train_instances x m states num_threads = train_instances x m states 1.
Proof.
  intros Ht Hne.
  assert (Hstates : states ≠ []).
  { intros ->. unfold chunks_of in Hne.
    destruct (Z.to_nat num_threads) as [|t] eqn:Hnt; [lia|].
    cbn in Hne. inversion Hne as [|c cs Hc _]; subst.
    apply Hc. unfold islice. rewrite take_nil, drop_nil. reflexivity. }
  rewrite train_instances_parallel by assumption.
  rewrite train_instances_sequential by assumption.
  destruct (collect_chunks m _ Hne) as (rs & Hrs & Hxs & Hys).
  rewrite Hrs, Hxs, Hys, concat_chunks_of by lia. reflexivity.
Qed.

(** When a chunk is empty, the parallel path raises [ValueError]. *)
Lemma train_instances_parallel_raises (m : NLPModel) (states : list State) (num_threads : Z) :
  1 < num_threads →
  [] ∈ chunks_of states num_threads →
  (train_instances x m states num_threads).2 = Raise ValueError.
Proof.
  intros Ht Hin. rewrite train_instances_parallel by assumption.
  pose proof (collect_empty_chunk m _ Hin) as Hraise.
  destruct (collect _ _) as [m' [rs|e]]; cbn [snd] in Hraise |- *; congruence.
Qed.

(** C4.  For any five states, the sequential path returns the five rows
    and their label indices in input order, while the path with four
    threads raises [ValueError]: the chunk size is 2, the fourth chunk is
    empty, and unpacking its result fails. *)
Theorem train_instances_five_states (m : NLPModel) (s1 s2 s3 s4 s5 : State) :
  let states := [s1; s2; s3; s4; s5] in
  chunks_of states 4 = [[s1; s2]; [s3; s4]; [s5]; []] ∧
  train_instances x m states 1
  = ((add_labels m (map gold states)).1,
     Ok ([x s1; x s2; x s3; x s4; x s5], (add_labels m (map gold states)).2)) ∧
  (train_instances x m states 4).2 = Raise ValueError.
Proof.
  intros states.
  assert (Hchunks : chunks_of states 4 = [[s1; s2]; [s3; s4]; [s5]; []]) by reflexivity.
  split; [exact Hchunks|]. split.
  - rewrite train_instances_sequential by discriminate. reflexivity.
  - apply train_instances_parallel_raises; [lia|].
    rewrite Hchunks. set_solver.
Qed.

End Extraction.

(** ** Evaluation *)

Section Evaluation.

Context {State Score Num Vec : Type} `{!NLPState State Score Num}.
Variable x : State → Vec.
Variable mxmod_predict : Z → list Vec → list (list Score).
Variable score_lt : Score → Score → bool.
Variable zero : Num.

Lemma processed_trans (s1 s2 s3 : State) :
  processed s1 s2 → processed s2 s3 → processed s1 s3.
Proof.
  induction 1 as [|s s' l y _ IH]; [trivial|].
  intros H3. eapply processed_step. apply IH. exact H3.
Qed.

Lemma process_all_effect (m : NLPModel) (pairs : list (nat * list Score))
    (st st' : list State) (r : result unit) :
  process_all score_lt m st pairs = (st', r) →
  length st' = length st ∧
  (∀ i, i ∉ pairs.*1 → st' !! i = st !! i) ∧
  (∀ i s, st !! i = Some s → ∃ s', st' !! i = Some s' ∧ processed s s').
Proof.
  revert st. induction pairs as [|[j yhats] pairs IH]; intros st Hrun.
  - cbn in Hrun. inversion Hrun; subst. repeat split. intros i s Hs. eauto using processed_refl.
  - cbn [process_all] in Hrun.
    destruct (argmax score_lt _) as [yh|e];
      [|inversion Hrun; subst; repeat split; eauto using processed_refl].
    destruct (get_label m yh) as [l|e];
      [|inversion Hrun; subst; repeat split; eauto using processed_refl].
    destruct (IH _ Hrun) as (Hlen & Hframe & Hproc).
    rewrite length_alter in Hlen. split; [assumption|]. split.
    + intros i Hi. cbn [fmap list_fmap fst] in Hi.
      apply not_elem_of_cons in Hi as [Hij Hi].
      rewrite Hframe by assumption. apply list_lookup_alter_ne. congruence.
    + intros i s Hs.
      destruct (decide (j = i)) as [->|Hne].
      * destruct (Hproc i (process s l yhats)) as (s' & Hs' & Hps).
        { rewrite list_lookup_alter_eq, Hs. reflexivity. }
        exists s'. split; [assumption|]. eapply processed_step. exact Hps.
      * apply Hproc. rewrite list_lookup_alter_ne by assumption. assumption.
Qed.

Lemma zip_fst_subseteq {A B} (l : list A) (k : list B) (a : A) :
  a ∈ (zip l k).*1 → a ∈ l.
Proof.
  intros Hin. apply list_elem_of_fmap in Hin as ([a' b] & -> & Hin).
  eapply elem_of_zip_l. exact Hin.
Qed.

Lemma still_active_spec (st : list State) (states : list nat) (i : nat) :
  i ∈ still_active st states ↔ not_terminated st i = true ∧ i ∈ states.
Proof.
  unfold still_active. rewrite list_elem_of_filter.
  split; intros [Hn Hi]; (split; [|assumption]).
  - apply Is_true_true. assumption.
  - apply Is_true_true. assumption.
Qed.

(** What holds of a loop that stops where it stands. *)
Lemma advance_stops (st : list State) (states : list nat) (r : result unit) :
  (r = Ok tt → states = []) →
  length st = length st ∧
  (∀ i, i ∉ states → st !! i = st !! i) ∧
  (∀ i s, st !! i = Some s → ∃ s1, st !! i = Some s1 ∧ processed s s1) ∧
  (r = Ok tt → ∀ i s1, i ∈ states → st !! i = Some s1 → terminate s1 = true).
Proof.
  intros Hr. split; [reflexivity|]. split; [reflexivity|]. split.
  - intros i s Hs. exists s. split; [assumption|apply processed_refl].
  - intros Hok i s1 Hi. rewrite (Hr Hok) in Hi. inversion Hi.
Qed.

(** The loop touches active states only, by [process] only, and a state
    it has dropped is terminated when the loop ends. *)
Lemma advance_effect (fuel : nat) (m : NLPModel) (batch_size : Z)
    (st st1 : list State) (states : list nat) (r : result unit) :
  advance x mxmod_predict score_lt fuel m batch_size st states = Some (st1, r) →
  length st1 = length st ∧
  (∀ i, i ∉ states → st1 !! i = st !! i) ∧
  (∀ i s, st !! i = Some s → ∃ s1, st1 !! i = Some s1 ∧ processed s s1) ∧
  (r = Ok tt → ∀ i s1, i ∈ states → st1 !! i = Some s1 → terminate s1 = true).
Proof.
  revert st states. induction fuel as [|fuel IH]; intros st states Hrun.
  - destruct states; [|discriminate]. cbn in Hrun. inversion Hrun; subst.
    apply advance_stops. reflexivity.
  - destruct states as [|i0 states'].
    { cbn in Hrun. inversion Hrun; subst. apply advance_stops. reflexivity. }
    cbn [advance] in Hrun.
    set (states := i0 :: states') in *.
    destruct (feature_vectors x st states) as [xs|e].
    2:{ inversion Hrun; subst. apply advance_stops. discriminate. }
    destruct (process_all score_lt m st _) as [st' [u|e]] eqn:Hround.
    + destruct (process_all_effect _ _ _ _ _ Hround) as (Hlen & Hframe & Hproc).
      destruct (IH _ _ Hrun) as (Hlen1 & Hframe1 & Hproc1 & Hterm1).
      split; [congruence|]. split; [|split].
      * intros i Hi. rewrite Hframe1.
        -- apply Hframe. intros Hin. apply Hi. eapply zip_fst_subseteq. exact Hin.
        -- rewrite still_active_spec. tauto.
      * intros i s Hs. destruct (Hproc i s Hs) as (s' & Hs' & Hps).
        destruct (Hproc1 i s' Hs') as (s1 & Hs1 & Hps1).
        exists s1. split; [assumption|]. eapply processed_trans; eassumption.
      * intros Hr i s1 Hi Hs1.
        destruct (decide (i ∈ still_active st' states)) as [Hact|Hdrop].
        -- eapply Hterm1; eassumption.
        -- rewrite Hframe1 in Hs1 by assumption.
           rewrite still_active_spec in Hdrop.
           unfold not_terminated in Hdrop. rewrite Hs1 in Hdrop.
           destruct (terminate s1); [reflexivity|].
           exfalso. apply Hdrop. split; [reflexivity|assumption].
    + inversion Hrun; subst.
      destruct (process_all_effect _ _ _ _ _ Hround) as (Hlen & Hframe & Hproc).
      split; [assumption|]. split; [|split; [assumption|discriminate]].
      intros i Hi. apply Hframe. intros Hin. apply Hi. eapply zip_fst_subseteq. exact Hin.
Qed.

(** *** The scoring loop *)

Lemma score_app (st : list State) (l1 l2 : list nat) (stats : Z * Z) (acc : Num) :
  score st (l1 ++ l2) stats acc
  = score st l2 (score st l1 stats acc).1 (score st l1 stats acc).2.
Proof.
  revert stats acc. induction l1 as [|i l1 IH]; intros stats acc; [reflexivity|].
  cbn [app score]. destruct (st !! i) as [s|]; [|apply IH].
  destruct (eval s stats) as [stats' acc']. apply IH.
Qed.

Lemma score_snoc (st : list State) (l : list nat) (i : nat) (s : State)
    (stats : Z * Z) (acc : Num) :
  st !! i = Some s →
  score st (l ++ [i]) stats acc = eval s (score st l stats acc).1.
Proof.
  intros Hs. rewrite score_app. cbn [score]. rewrite Hs.
  destruct (eval s _) as [stats' acc']. reflexivity.
Qed.

Lemma score_stats (st : list State) (l : list nat) (objs : list State)
    (stats : Z * Z) (acc : Num) :
  Forall2 (λ i s, st !! i = Some s) l objs →
  (score st l stats acc).1 = foldl (λ a s, (eval s a).1) stats objs.
Proof.
  intros Hobjs. revert stats acc.
  induction Hobjs as [|i s l objs Hs _ IH]; intros stats acc; [reflexivity|].
  cbn [score foldl]. rewrite Hs.
  destruct (eval s stats) as [stats' acc'] eqn:He. rewrite IH. reflexivity.
Qed.

(** *** Termination of the loop *)

Lemma argmax_go_lt (l : list Score) (best : Score) (besti i : nat) :
  (besti < i)%nat → (argmax_go score_lt best besti i l < i + length l)%nat.
Proof.
  revert best besti i. induction l as [|y l IH]; intros best besti i Hlt.
  - cbn. lia.
  - cbn [argmax_go length]. destruct (score_lt best y).
    + specialize (IH y i (S i) ltac:(lia)). lia.
    + specialize (IH best besti (S i) ltac:(lia)). lia.
Qed.

Lemma argmax_Ok (v : list Score) :
  v ≠ [] → ∃ yh, argmax score_lt v = Ok yh ∧ 0 <= yh < Z.of_nat (length v).
Proof.
  intros Hne. destruct v as [|y v]; [congruence|].
  eexists. split; [reflexivity|].
  pose proof (argmax_go_lt v y 0 1 ltac:(lia)). cbn [length]. lia.
Qed.

Lemma reset_all_length (st : list State) (states : list nat) :
  length (reset_all st states) = length st.
Proof.
  unfold reset_all. revert st. induction states as [|i states IH]; intros st; [reflexivity|].
  cbn [foldl]. rewrite IH. apply length_alter.
Qed.

Lemma feature_vectors_length (st : list State) (states : list nat) :
  (∀ i, i ∈ states → is_Some (st !! i)) →
  length (omap (λ i, x <$> st !! i) states) = length states.
Proof.
  induction states as [|i states IH]; intros Hvalid; [reflexivity|].
  cbn [omap list_omap].
  destruct (Hvalid i ltac:(left)) as [s Hs]. rewrite Hs. cbn [fmap option_fmap option_map].
  cbn [length]. f_equal. apply IH. intros j Hj. apply Hvalid. right. assumption.
Qed.

(** With a vocabulary and non-empty prediction vectors a round raises
    nothing, and processes each state once when the states are distinct. *)
Lemma process_all_once (m : NLPModel) (pairs : list (nat * list Score)) (st : list State) :
  labels m ≠ [] →
  (∀ p, p ∈ pairs → p.2 ≠ []) →
  NoDup pairs.*1 →
  ∃ st', process_all score_lt m st pairs = (st', Ok tt) ∧
         ∀ i s, i ∈ pairs.*1 → st !! i = Some s →
                ∃ l yhats, st' !! i = Some (process s l yhats).
Proof.
  intros Hlabels. revert st.
  induction pairs as [|[j yhats] pairs IH]; intros st Hrows Hnd.
  - exists st. split; [reflexivity|]. intros i s Hi. inversion Hi.
  - cbn [process_all].
    set (v := if bool_decide (Z.of_nat (length yhats) = num_label m) then yhats
              else take (Z.to_nat (num_label m)) yhats).
    assert (Hy : yhats ≠ []) by (apply (Hrows (j, yhats)); left).
    assert (Hv : v ≠ [] ∧ (length v ≤ length (labels m))%nat).
    { subst v. unfold num_label. case_bool_decide as Hlen.
      - split; [assumption|lia].
      - rewrite Nat2Z.id. split.
        + destruct yhats; [congruence|]. destruct (labels m); [congruence|]. discriminate.
        + rewrite length_take. lia. }
    destruct Hv as [Hv Hvlen].
    destruct (argmax_Ok v Hv) as (yh & Hyh & Hbound). rewrite Hyh.
    destruct (lookup_lt_is_Some_2 (labels m) (Z.to_nat yh) ltac:(lia)) as [l Hl].
    unfold get_label. replace yh with (Z.of_nat (Z.to_nat yh)) by lia.
    rewrite (index_nonneg _ _ _ Hl).
    cbn [fmap list_fmap fst] in Hnd. apply NoDup_cons in Hnd as [Hj Hnd].
    destruct (IH (alter (λ s, process s l yhats) j st)) as (st' & Hrun & Honce).
    { intros p Hp. apply Hrows. right. assumption. }
    { assumption. }
    exists st'. split; [assumption|].
    intros i s Hi Hs. cbn [fmap list_fmap fst] in Hi.
    destruct (decide (i = j)) as [->|Hne].
    + destruct (process_all_effect _ _ _ _ _ Hrun) as (_ & Hframe & _).
      exists l, yhats. rewrite (Hframe j Hj), list_lookup_alter_eq, Hs. reflexivity.
    + apply elem_of_cons in Hi as [Heq|Hi]; [congruence|].
      apply Honce; [assumption|].
      rewrite list_lookup_alter_ne by congruence. assumption.
Qed.

Section Measure.

Variable mu : State → nat.
Hypothesis process_decreases :
  ∀ s l yhats, terminate (process s l yhats) = false → (mu (process s l yhats) < mu s)%nat.
Hypothesis one_prediction_each : ∀ bs xs, length (mxmod_predict bs xs) = length xs.
Hypothesis predictions_nonempty : ∀ bs xs yhats, yhats ∈ mxmod_predict bs xs → yhats ≠ [].

(** [bound + 1] rounds are enough for distinct states whose measure is at
    most [bound]. *)
Lemma advance_total (m : NLPModel) (batch_size : Z) (bound : nat)
    (st : list State) (states : list nat) :
  labels m ≠ [] →
  NoDup states →
  (∀ i, i ∈ states → ∃ s, st !! i = Some s ∧ (mu s ≤ bound)%nat) →
  ∃ st1, advance x mxmod_predict score_lt (S bound) m batch_size st states = Some (st1, Ok tt).
Proof.
  intros Hlabels. revert st states.
  induction bound as [|bound IH]; intros st states Hnd Hmu.
  - destruct states as [|i0 states']; [eexists; reflexivity|].
    cbn [advance]. set (states := i0 :: states') in *.
    unfold feature_vectors. subst states. cbn match. set (states := i0 :: states') in *.
    set (xs := omap (λ i, x <$> st !! i) states).
    set (preds := mxmod_predict (data_iter_batch_size xs batch_size) xs).
    assert (Hlen : length preds = length states).
    { subst preds. rewrite one_prediction_each. subst xs.
      apply feature_vectors_length. intros i Hi.
      destruct (Hmu i Hi) as (s & Hs & _). eauto. }
    destruct (process_all_once m (zip states preds) st Hlabels) as (st' & Hrun & Honce).
    { intros [i y] Hp. apply elem_of_zip_r in Hp. eapply predictions_nonempty. exact Hp. }
    { rewrite fst_zip by lia. assumption. }
    rewrite Hrun.
    assert (Hnone : still_active st' states = []).
    { destruct (still_active st' states) as [|i rest] eqn:Hact; [reflexivity|].
      assert (Hi : i ∈ still_active st' states) by (rewrite Hact; left).
      apply still_active_spec in Hi as [Hnt Hi].
      destruct (Hmu i Hi) as (s & Hs & Hle).
      destruct (Honce i s) as (l & y & Hs'); [rewrite fst_zip by lia; assumption|assumption|].
      unfold not_terminated in Hnt. rewrite Hs' in Hnt.
      apply negb_true_iff in Hnt. apply process_decreases in Hnt. lia. }
    rewrite Hnone. eexists. reflexivity.
  - destruct states as [|i0 states']; [eexists; reflexivity|].
    cbn [advance]. set (states := i0 :: states') in *.
    unfold feature_vectors. subst states. cbn match. set (states := i0 :: states') in *.
    set (xs := omap (λ i, x <$> st !! i) states).
    set (preds := mxmod_predict (data_iter_batch_size xs batch_size) xs).
    assert (Hlen : length preds = length states).
    { subst preds. rewrite one_prediction_each. subst xs.
      apply feature_vectors_length. intros i Hi.
      destruct (Hmu i Hi) as (s & Hs & _). eauto. }
    destruct (process_all_once m (zip states preds) st Hlabels) as (st' & Hrun & Honce).
    { intros [i y] Hp. apply elem_of_zip_r in Hp. eapply predictions_nonempty. exact Hp. }
    { rewrite fst_zip by lia. assumption. }
    rewrite Hrun. apply IH.
    + unfold still_active. apply NoDup_filter. assumption.
    + intros i Hi. apply still_active_spec in Hi as [Hnt Hi].
      destruct (Hmu i Hi) as (s & Hs & Hle).
      destruct (Honce i s) as (l & y & Hs'); [rewrite fst_zip by lia; assumption|assumption|].
      exists (process s l y). split; [assumption|].
      unfold not_terminated in Hnt. rewrite Hs' in Hnt.
      apply negb_true_iff in Hnt. apply process_decreases in Hnt. lia.
Qed.

Lemma measure_bound (st : list State) :
  ∀ i s, st !! i = Some s → (mu s ≤ foldr Nat.max 0%nat (map mu st))%nat.
Proof.
  induction st as [|s0 st IH]; intros i s Hs; [discriminate|].
  cbn [map foldr]. destruct i as [|i].
  - cbn in Hs. inversion Hs; subst. lia.
  - cbn in Hs. specialize (IH i s Hs). lia.
Qed.

(** [evaluate] returns for distinct, allocated states that [process]
    drives to termination. *)
Lemma evaluate_total (m : NLPModel) (batch_size : Z) (st : list State) (states : list nat) :
  labels m ≠ [] →
  NoDup states →
  (∀ i, i ∈ states → is_Some (st !! i)) →
  ∃ fuel st1 r,
    evaluate x mxmod_predict score_lt zero fuel m st states batch_size = Some (st1, Ok r).
Proof.
  intros Hlabels Hnd Hvalid.
  set (st0 := reset_all st states).
  destruct (advance_total m batch_size (foldr Nat.max 0%nat (map mu st0)) st0 states)
    as (st1 & Hrun); [assumption|assumption| |].
  - intros i Hi. destruct (Hvalid i Hi) as [s Hs].
    destruct (lookup_lt_is_Some_2 st0 i) as [s0 Hs0].
    { subst st0. rewrite reset_all_length. eapply lookup_lt_Some. exact Hs. }
    exists s0. split; [assumption|]. eapply measure_bound. exact Hs0.
  - eexists _, st1, _. unfold evaluate. fold st0. rewrite Hrun. reflexivity.
Qed.

End Measure.

(** C3.  Whenever [evaluate] returns, with any amount of fuel: every
    input state is terminated and is what [process] calls alone made of the
    state that the initial [reset] produced (the loop resets nothing); the
    statistics are those of [eval] applied to every input state in input
    order, starting from [0, 0]; the returned number is the one the [eval]
    call on the last input state returned, so it is the ratio of the final
    statistics when [eval] returns the ratio of the statistics it has just
    updated; and for no input state it is the initial [0].  It does return
    for distinct states that [process] drives to termination, given a label
    vocabulary and one non-empty prediction vector per state. *)
Theorem evaluate_scores_terminal_states (m : NLPModel) (batch_size : Z)
    (st : list State) (states : list nat) :
  (∀ fuel st1 stats acc,
     evaluate x mxmod_predict score_lt zero fuel m st states batch_size
     = Some (st1, Ok (stats, acc)) →
     (∀ i s1, i ∈ states → st1 !! i = Some s1 →
        terminate s1 = true ∧
        ∃ s0, reset_all st states !! i = Some s0 ∧ processed s0 s1) ∧
     (∀ objs, Forall2 (λ i s, st1 !! i = Some s) states objs →
        stats = foldl (λ a s, (eval s a).1) (0, 0) objs) ∧
     (∀ front i s, states = front ++ [i] → st1 !! i = Some s →
        (stats, acc) = eval s (score st1 front (0, 0) zero).1) ∧
     (∀ ratio : Z * Z → Num,
        (∀ s a, (eval s a).2 = ratio (eval s a).1) →
        ∀ front i, states = front ++ [i] → is_Some (st1 !! i) → acc = ratio stats) ∧
     (states = [] → stats = (0, 0) ∧ acc = zero)) ∧
  (∀ mu : State → nat,
     (∀ s l yhats, terminate (process s l yhats) = false →
                   (mu (process s l yhats) < mu s)%nat) →
     (∀ bs xs, length (mxmod_predict bs xs) = length xs) →
     (∀ bs xs yhats, yhats ∈ mxmod_predict bs xs → yhats ≠ []) →
     labels m ≠ [] →
     NoDup states →
     (∀ i, i ∈ states → is_Some (st !! i)) →
     ∃ fuel st1 r,
       evaluate x mxmod_predict score_lt zero fuel m st states batch_size
       = Some (st1, Ok r)).
Proof.
  split.
  - intros fuel st1 stats acc Hrun. unfold evaluate in Hrun.
    destruct (advance _ _ _ fuel m batch_size _ states) as [[st1' [[]|e]]|] eqn:Hloop;
      [|discriminate|discriminate].
    inversion Hrun as [[Hst Hscore]]. subst st1'. clear Hrun.
    destruct (advance_effect _ _ _ _ _ _ _ Hloop) as (Hlen & _ & Hproc & Hterm).
    split; [|split; [|split; [|split]]].
    + intros i s1 Hi Hs1. split; [eapply Hterm; eauto|].
      destruct (lookup_lt_is_Some_2 (reset_all st states) i) as [s0 Hs0].
      { rewrite <- Hlen. eapply lookup_lt_Some. exact Hs1. }
      exists s0. split; [assumption|].
      destruct (Hproc i s0 Hs0) as (s1' & Hs1' & Hps). congruence.
    + intros objs Hobjs.
      rewrite <- (score_stats st1 states objs (0, 0) zero Hobjs), Hscore. reflexivity.
    + intros front i s -> Hs.
      apply score_snoc. assumption.
    + intros ratio Hratio front i -> [s Hs].
      rewrite (score_snoc st1 front i s (0, 0) zero Hs) in Hscore.
      specialize (Hratio s (score st1 front (0, 0) zero).1).
      rewrite Hscore in Hratio. exact Hratio.
    + intros ->. cbn in Hscore. inversion Hscore. split; reflexivity.
  - intros mu Hmu Hpred Hrows Hlabels Hnd Hvalid.
    eapply evaluate_total; eassumption.
Qed.

End Evaluation.

(** Two taggers of two and three tokens: after four rounds both are
    terminated, three of the five predictions were the gold label, and the
    returned number is the percentage of the final statistics. *)
Lemma evaluate_scores_witness :
  ∃ st1 stats acc,
    evaluate tagger_x tagger_predict Z.ltb 0 4 tagger_model taggers [0; 1]%nat 128
    = Some (st1, Ok (stats, acc)) ∧
    Forall (λ s, terminate s = true) st1 ∧
    stats = (1 + 2, 2 + 3) ∧
    acc = percent stats ∧
    ∃ fuel st1' r,
      evaluate tagger_x tagger_predict Z.ltb 0 fuel tagger_model taggers [0; 1]%nat 128
      = Some (st1', Ok r).
Proof.
  destruct (evaluate_scores_terminal_states tagger_x tagger_predict Z.ltb 0
              tagger_model 128 taggers [0; 1]%nat) as [Hpart Htotal].
  eexists _, _, _. split; [vm_compute; reflexivity|].
  edestruct (Hpart 4%nat) as (Hterm & Hstats & Hlast & Hratio & _); [vm_compute; reflexivity|].
  split; [|split; [|split]].
  - apply Forall_lookup. intros i s1 Hs1. apply (Hterm i s1); [|exact Hs1].
    apply lookup_lt_Some in Hs1. cbn in Hs1.
    destruct i as [|[|i]]; [left|right; left|lia].
  - reflexivity.
  - apply (Hratio percent) with (front := [0%nat]) (i := 1%nat).
    + intros s a. reflexivity.
    + reflexivity.
    + eexists. reflexivity.
  - apply (Htotal todo).
    + intros s l yhats Hnt. cbn in Hnt |- *. apply Nat.eqb_neq in Hnt. lia.
    + intros bs xs. unfold tagger_predict. apply length_map.
    + intros bs xs yhats Hin. unfold tagger_predict in Hin.
      apply list_elem_of_fmap in Hin as (v & -> & _). discriminate.
    + vm_compute. discriminate.
    + apply NoDup_cons. split; [|apply NoDup_singleton].
      intros Hin. apply list_elem_of_singleton in Hin. discriminate.
    + intros i Hi. apply elem_of_cons in Hi as [->|Hi]; [eexists; reflexivity|].
      apply list_elem_of_singleton in Hi as ->. eexists. reflexivity.
Defined.

(** ** The general lemmas at concrete inputs *)

Lemma labelled_call_attach (n : nat) (self a : ref) (label : option string) :
  (self < n)%nat → (a < n)%nat → truthy label = true →
  labelled_call n (self, Some a, label).
Proof.
  intros Hs Ha Hl. split; [assumption|].
  intros a' Heq. inversion Heq; subst a'. split; assumption.
Qed.

Lemma labelled_call_detach (n : nat) (self : ref) (label : option string) :
  (self < n)%nat → labelled_call n (self, None, label).
Proof. intros Hs. split; [assumption|]. intros a Heq. discriminate. Qed.

(** Tokens 1, 2, 3: token 2 and token 3 go under token 1, token 2 moves
    under token 3, token 3 is detached.  The third call returns token 1,
    the parent token 2 had. *)
Lemma labelled_calls_witness :
  well_formed
    (run_calls [(1%nat, Some 0%nat, Some "a"%string); (2%nat, Some 0%nat, Some "b"%string);
                (1%nat, Some 2%nat, Some "c"%string); (2%nat, None, None)]
       (alloc_tokens [1; 2; 3] []).1) ∧
  ∃ h',
    set_parent 1%nat (Some 2%nat) (Some "c"%string)
      (run_calls [(1%nat, Some 0%nat, Some "a"%string); (2%nat, Some 0%nat, Some "b"%string)]
         (alloc_tokens [1; 2; 3] []).1)
    = (h', Ok (Some 0%nat)).
Proof.
  destruct (labelled_calls_keep_well_formed
              [(1%nat, Some 0%nat, Some "a"%string); (2%nat, Some 0%nat, Some "b"%string);
               (1%nat, Some 2%nat, Some "c"%string); (2%nat, None, None)]
              (alloc_tokens [1; 2; 3] []).1) as (Hreturns & Hwf & _).
  - apply fresh_well_formed. vm_compute. repeat constructor.
  - change (length (alloc_tokens [1; 2; 3] []).1) with 3%nat.
    apply Forall_cons_2; [apply labelled_call_attach; first [lia|reflexivity]|].
    apply Forall_cons_2; [apply labelled_call_attach; first [lia|reflexivity]|].
    apply Forall_cons_2; [apply labelled_call_attach; first [lia|reflexivity]|].
    apply Forall_cons_2; [apply labelled_call_detach; lia|].
    constructor.
  - split; [exact Hwf|].
    destruct (Hreturns
                [(1%nat, Some 0%nat, Some "a"%string); (2%nat, Some 0%nat, Some "b"%string)]
                [(2%nat, None, None)] 1%nat (Some 2%nat) (Some "c"%string) eq_refl)
      as (h' & Hrun & _).
    exists h'. exact Hrun.
Defined.

(** Token 2 goes under token 1 with the label ["lbl"] and is detached
    again. *)
Lemma set_parent_then_clear_witness :
  ∃ h1 h2,
    set_parent 1%nat (Some 0%nat) (Some "lbl"%string) (alloc_tokens [1; 2; 3] []).1
    = (h1, Ok None) ∧
    children (h1 !!! 0%nat) = [1%nat] ∧
    set_parent 1%nat None None h1 = (h2, Ok (Some 0%nat)) ∧
    children (h2 !!! 0%nat) = [].
Proof.
  destruct (set_parent_then_clear (alloc_tokens [1; 2; 3] []).1 0%nat 1%nat "lbl")
    as (h1 & h2 & Hrun1 & _ & _ & _ & _ & _ & Hrun2 & _).
  - apply fresh_well_formed. vm_compute. repeat constructor.
  - vm_compute. lia.
  - vm_compute. lia.
  - discriminate.
  - exists h1, h2.
    pose proof (f_equal fst Hrun1) as Hh1. cbn [fst] in Hh1.
    pose proof (f_equal fst Hrun2) as Hh2. cbn [fst] in Hh2.
    split; [exact Hrun1|].
    split; [rewrite <- Hh1; vm_compute; reflexivity|].
    split; [exact Hrun2|].
    rewrite <- Hh2, <- Hh1. vm_compute. reflexivity.
Defined.

(** Seven states and four threads: the chunk size is 2 and no chunk is
    empty. *)
Lemma train_instances_parallel_witness :
  let states := map (λ n, mkTagger n 0 n) [1; 2; 3; 4; 5; 6; 7]%nat in
  train_instances tagger_x new_model states 4 = train_instances tagger_x new_model states 1.
Proof.
  intros states. apply train_instances_parallel_agrees; [lia|].
  vm_compute. repeat constructor; discriminate.
Defined.

(** A single new node. *)
Lemma str_fields_blank_witness :
  let h := (alloc_tokens [1] []).1 in
  ∃ fs, str_fields h 0%nat = Ok fs ∧
        fs !! 5%nat = Some BLANK ∧ fs !! 6%nat = Some BLANK ∧ fs !! 7%nat = Some BLANK.
Proof.
  intros h.
  destruct (str_fields_blank h 0%nat) as (fs & Hfs & H5 & H6 & H7 & _);
    [reflexivity|reflexivity|].
  exists fs. repeat split; assumption.
Defined.

(** A block of one row, read with the columns of the rendering. *)
Lemma tsv_to_graph_heads_witness :
  (tsv_to_graph output_columns
     [["1"; "John"; "john"; "NNP"; "_"; "0"; "root"; "_"; "_"]%string] []).2
  = Raise NameError.
Proof.
  eapply tsv_to_graph_heads_raise; [vm_compute; discriminate|].
  vm_compute. reflexivity.
Defined.

(** The middle one of three tokens under a common parent. *)
Lemma rightmost_sibling_of_leaf_witness :
  get_rightmost_sibling (chain 0 [1; 2; 3]) 2%nat 0 = None.
Proof. apply rightmost_sibling_of_leaf; [reflexivity|lia]. Defined.

(** * Further properties *)

Import Invariants.

(** ** The label vocabulary *)

Lemma vocab_ok_new : vocab_ok new_model.
Proof.
  split; [constructor|]. intros l i. cbn. rewrite lookup_empty.
  split; [discriminate|]. intros [_ H]. discriminate.
Qed.

Lemma vocab_ok_unknown (m : NLPModel) (l : string) :
  vocab_ok m → (get_label_index m l < 0 ↔ l ∉ labels m).
Proof.
  intros [Hnd Hmap]. unfold get_label_index.
  destruct (index_map m !! l) as [i|] eqn:Hi; cbn.
  - apply Hmap in Hi as [Hpos Hl]. split; [lia|].
    intros Hnot. exfalso. apply Hnot. eapply list_elem_of_lookup_2. exact Hl.
  - split; [|lia]. intros _ Hin.
    apply list_elem_of_lookup in Hin as [k Hk].
    assert (index_map m !! l = Some (Z.of_nat k)) as Hsome.
    { apply Hmap. split; [lia|]. rewrite Nat2Z.id. assumption. }
    congruence.
Qed.

Lemma add_label_ok (m : NLPModel) (l : string) :
  vocab_ok m → vocab_ok (add_label m l).1.
Proof.
  intros Hok. pose proof Hok as [Hnd Hmap].
  unfold add_label. case_bool_decide as Hneg; [|assumption].
  apply (vocab_ok_unknown m l Hok) in Hneg. cbn [fst labels index_map].
  split.
  - apply NoDup_app. split; [assumption|]. split; [|apply NoDup_singleton].
    intros y Hy Hy'. apply list_elem_of_singleton in Hy'. subst. contradiction.
  - intros l' i. cbn [labels index_map]. destruct (decide (l = l')) as [<-|Hne].
    + rewrite lookup_insert_eq. split.
      * intros [= <-]. split; [lia|]. rewrite Nat2Z.id.
        rewrite lookup_app_r by lia. rewrite Nat.sub_diag. reflexivity.
      * intros [Hpos Hl]. f_equal.
        destruct (decide (Z.to_nat i < length (labels m))%nat) as [Hlt|Hge].
        -- rewrite lookup_app_l in Hl by assumption.
           exfalso. apply Hneg. eapply list_elem_of_lookup_2. exact Hl.
        -- apply lookup_lt_Some in Hl. rewrite length_app in Hl. cbn in Hl. lia.
    + rewrite lookup_insert_ne by assumption. rewrite Hmap. split.
      * intros [Hpos Hl]. split; [assumption|].
        apply lookup_app_l_Some. assumption.
      * intros [Hpos Hl]. split; [assumption|].
        destruct (decide (Z.to_nat i < length (labels m))%nat) as [Hlt|Hge].
        -- rewrite lookup_app_l in Hl by assumption. assumption.
        -- rewrite lookup_app_r in Hl by lia.
           destruct (Z.to_nat i - length (labels m))%nat; cbn in Hl; [congruence|discriminate].
Qed.

Lemma add_label_grows (m : NLPModel) (l : string) :
  vocab_ok m →
  labels m `prefix_of` labels (add_label m l).1 ∧
  ∀ l' i, index_map m !! l' = Some i → index_map (add_label m l).1 !! l' = Some i.
Proof.
  intros [Hnd Hmap]. unfold add_label, get_label_index.
  case_bool_decide as Hneg; cbn [fst labels index_map].
  - split; [apply prefix_app_r; reflexivity|].
    intros l' i Hi. destruct (decide (l = l')) as [<-|Hne].
    + rewrite Hi in Hneg. cbn in Hneg. apply Hmap in Hi. lia.
    + rewrite lookup_insert_ne by assumption. assumption.
  - split; [reflexivity|]. intros l' i Hi. assumption.
Qed.

Lemma add_label_index (m : NLPModel) (l : string) :
  vocab_ok m →
  0 <= (add_label m l).2 ∧
  index_map (add_label m l).1 !! l = Some (add_label m l).2.
Proof.
  intros [Hnd Hmap]. unfold add_label, get_label_index.
  case_bool_decide as Hneg; cbn [fst snd labels index_map].
  - split; [lia|]. apply lookup_insert_eq.
  - destruct (index_map m !! l) as [i|] eqn:Hi; cbn in *; [|lia].
    split; [lia|reflexivity].
Qed.

Lemma add_labels_grows (m : NLPModel) (ys : list string) :
  vocab_ok m →
  vocab_ok (add_labels m ys).1 ∧
  labels m `prefix_of` labels (add_labels m ys).1 ∧
  ∀ l i, index_map m !! l = Some i → index_map (add_labels m ys).1 !! l = Some i.
Proof.
  revert m. induction ys as [|y ys IH]; intros m Hok.
  - cbn. split; [assumption|]. split; [reflexivity|]. intros l i Hi. assumption.
  - cbn [add_labels].
    pose proof (add_label_ok m y Hok) as Hok1.
    pose proof (add_label_grows m y Hok) as [Hpre1 Hmap1].
    destruct (add_label m y) as [m1 i1]. cbn [fst] in *.
    destruct (IH m1 Hok1) as (Hok2 & Hpre2 & Hmap2).
    destruct (add_labels m1 ys) as [m2 is2]. cbn [fst] in *.
    split; [assumption|]. split; [etrans; eassumption|].
    intros l i Hi. apply Hmap2, Hmap1, Hi.
Qed.

Lemma vocab_ok_decode (m : NLPModel) (l : string) (i : Z) :
  vocab_ok m → index_map m !! l = Some i →
  get_label m i = Ok l ∧ get_label_index m l = i.
Proof.
  intros [Hnd Hmap] Hi. split.
  - apply Hmap in Hi as [Hpos Hl]. unfold get_label.
    rewrite <- (Z2Nat.id i) by assumption. apply index_nonneg, Hl.
  - unfold get_label_index. rewrite Hi. reflexivity.
Qed.

(** X8.  [add_label] is idempotent: a second call with the same label
    returns the same index and leaves the model as the first call left it.
    The index it returns is never negative and is the one
    [get_label_index] gives afterwards; the vocabulary grows by one label
    when the label was unknown and not at all when it was known. *)
Theorem add_label_idempotent (m : NLPModel) (l : string) :
  let m1 := (add_label m l).1 in
  let i := (add_label m l).2 in
  add_label m1 l = (m1, i) ∧
  get_label_index m1 l = i ∧
  0 <= i ∧
  num_label m1 = num_label m + (if bool_decide (get_label_index m l < 0) then 1 else 0).
Proof.
  cbv zeta. destruct (decide (get_label_index m l < 0)) as [Hneg|Hpos].
  - assert (add_label m l
            = ({| index_map := <[l:=Z.of_nat (length (labels m))]> (index_map m);
                  labels := labels m ++ [l] |}, Z.of_nat (length (labels m)))) as ->.
    { unfold add_label. rewrite bool_decide_eq_true_2 by assumption. reflexivity. }
    cbn [fst snd]. rewrite (bool_decide_eq_true_2 _ Hneg).
    assert (get_label_index
              {| index_map := <[l:=Z.of_nat (length (labels m))]> (index_map m);
                 labels := labels m ++ [l] |} l
            = Z.of_nat (length (labels m))) as Hidx.
    { unfold get_label_index. cbn [index_map]. rewrite lookup_insert_eq. reflexivity. }
    split.
    + unfold add_label. rewrite Hidx.
      rewrite bool_decide_eq_false_2 by lia. reflexivity.
    + split; [assumption|]. split; [lia|].
      unfold num_label. cbn [labels]. rewrite length_app. cbn. lia.
  - assert (add_label m l = (m, get_label_index m l)) as Hadd.
    { unfold add_label. rewrite bool_decide_eq_false_2 by assumption. reflexivity. }
    rewrite Hadd. cbn [fst snd]. rewrite (bool_decide_eq_false_2 _ Hpos).
    split; [assumption|]. split; [reflexivity|]. split; lia.
Qed.

(** X9.  From a consistent vocabulary (that of a new model is one), adding
    any sequence of labels gives a consistent vocabulary in which every
    returned index decodes to the label it was returned for, and looking
    that label up gives the index back.  A label that was known keeps its
    index and still decodes; the final labels are the previous ones and
    the added ones. *)
Theorem add_labels_decode (m : NLPModel) (ys : list string) :
  vocab_ok m →
  let m' := (add_labels m ys).1 in
  vocab_ok m' ∧
  Forall2 (λ y i, get_label m' i = Ok y ∧ get_label_index m' y = i) ys (add_labels m ys).2 ∧
  (∀ l, l ∈ labels m →
        get_label_index m' l = get_label_index m l ∧
        get_label m' (get_label_index m l) = Ok l) ∧
  (∀ l, l ∈ labels m' ↔ l ∈ labels m ∨ l ∈ ys).
Proof.
  intros Hok m'. subst m'.
  split; [apply add_labels_grows, Hok|]. split; [|split].
  - revert m Hok. induction ys as [|y ys IH]; intros m Hok; [constructor|].
    cbn [add_labels].
    pose proof (add_label_ok m y Hok) as Hok1.
    pose proof (add_label_index m y Hok) as [Hpos1 Hidx1].
    destruct (add_label m y) as [m1 i1]. cbn [fst snd] in *.
    specialize (IH m1 Hok1).
    destruct (add_labels_grows m1 ys Hok1) as (Hok2 & _ & Hmap2).
    destruct (add_labels m1 ys) as [m2 is2]. cbn [fst snd] in *.
    constructor; [|assumption].
    apply vocab_ok_decode; [assumption|]. apply Hmap2, Hidx1.
  - intros l Hl.
    destruct (add_labels_grows m ys Hok) as (Hok2 & _ & Hmap2).
    apply list_elem_of_lookup in Hl as [k Hk].
    assert (index_map m !! l = Some (Z.of_nat k)) as Hi.
    { apply Hok. split; [lia|]. rewrite Nat2Z.id. assumption. }
    destruct (vocab_ok_decode _ _ _ Hok Hi) as [_ ->].
    destruct (vocab_ok_decode _ _ _ Hok2 (Hmap2 _ _ Hi)) as [-> ->].
    split; reflexivity.
  - revert m Hok. induction ys as [|y ys IH]; intros m Hok l.
    + cbn. split; [auto|]. intros [H|H]; [assumption|]. inversion H.
    + cbn [add_labels].
      pose proof (add_label_ok m y Hok) as Hok1.
      specialize (IH (add_label m y).1 Hok1 l).
      assert (l ∈ labels (add_label m y).1 ↔ l ∈ labels m ∨ l = y) as Hstep.
      { unfold add_label. case_bool_decide as Hneg; cbn [fst labels].
        - rewrite elem_of_app, list_elem_of_singleton. reflexivity.
        - split; [auto|]. intros [H| ->]; [assumption|].
          destruct (decide (y ∈ labels m)) as [Hin|Hnin]; [assumption|].
          apply (vocab_ok_unknown m y Hok) in Hnin. lia. }
      destruct (add_label m y) as [m1 i1]. cbn [fst] in *.
      destruct (add_labels m1 ys) as [m2 is2]. cbn [fst] in *.
      rewrite IH, Hstep, elem_of_cons. tauto.
Qed.

(** The two labels of the tagger's model, added to an empty vocabulary. *)
Lemma add_labels_decode_witness :
  vocab_ok new_model ∧
  Forall2 (λ y i, get_label tagger_model i = Ok y ∧ get_label_index tagger_model y = i)
          ["A"; "B"]%string [0; 1].
Proof.
  split; [apply vocab_ok_new|].
  exact (proj1 (proj2 (add_labels_decode new_model ["A"; "B"]%string vocab_ok_new))).
Defined.

(** ** Extraction with several threads *)

Section Threads.

Context {State Score Num Vec : Type} `{!NLPState State Score Num}.
Variable x : State → Vec.

Lemma islice_length {A} (l : list A) (a b : nat) :
  length (islice l a b) = (b `min` length l - a)%nat.
Proof. unfold islice. rewrite length_drop, length_take. reflexivity. Qed.

Lemma chunks_of_nonempty (states : list State) (num_threads : Z) :
  1 < num_threads →
  (num_threads - 1) * ceil_div (Z.of_nat (length states)) num_threads
    < Z.of_nat (length states) →
  Forall (λ c, c ≠ []) (chunks_of states num_threads).
Proof.
  intros Ht Hlt. unfold chunks_of.
  set (size := ceil_div (Z.of_nat (length states)) num_threads) in *.
  pose proof (ceil_div_covers (Z.of_nat (length states)) num_threads ltac:(lia)) as Hcov.
  pose proof (ceil_div_nonneg (Z.of_nat (length states)) num_threads ltac:(lia) ltac:(lia)) as Hnn.
  fold size in Hcov, Hnn.
  assert (0 < size) as Hsize by nia.
  apply Forall_forall. intros c Hc.
  apply list_elem_of_fmap in Hc as (i & -> & Hi).
  apply elem_of_seq in Hi. intros Hnil.
  apply (f_equal length) in Hnil. rewrite islice_length in Hnil. cbn in Hnil.
  assert (Z.of_nat i * size <= (num_threads - 1) * size) by nia.
  lia.
Qed.

Lemma chunks_of_empty (states : list State) (num_threads : Z) :
  1 < num_threads →
  Z.of_nat (length states)
    <= (num_threads - 1) * ceil_div (Z.of_nat (length states)) num_threads →
  [] ∈ chunks_of states num_threads.
Proof.
  intros Ht Hle. unfold chunks_of.
  set (size := ceil_div (Z.of_nat (length states)) num_threads) in *.
  apply list_elem_of_fmap. exists (Z.to_nat (num_threads - 1)). split.
  - symmetry. apply length_zero_iff_nil. rewrite islice_length.
    rewrite Z2Nat.id by lia. lia.
  - apply elem_of_seq. lia.
Qed.

(** X10.  With [T > 1] threads, [n] states and the chunk size
    [size = ceil(n / T)]: when [(T - 1) * size < n] no chunk is empty and
    the call returns exactly what the sequential call returns; otherwise
    the last chunk is empty and the call raises [ValueError].  Fewer
    states than threads always raises; a positive number of states that
    [T] divides never does. *)
Theorem train_instances_threads (m : NLPModel) (states : list State) (num_threads : Z) :
  1 < num_threads →
  let n := Z.of_nat (length states) in
  let size := ceil_div n num_threads in
  ((num_threads - 1) * size < n →
   train_instances x m states num_threads = train_instances x m states 1) ∧
  (n <= (num_threads - 1) * size →
   (train_instances x m states num_threads).2 = Raise ValueError) ∧
  (n < num_threads → n <= (num_threads - 1) * size) ∧
  (0 < n → (num_threads | n) → (num_threads - 1) * size < n).
Proof.
  intros Ht n size.
  pose proof (ceil_div_covers n num_threads ltac:(lia)) as Hcov.
  pose proof (ceil_div_nonneg n num_threads ltac:(lia) ltac:(lia)) as Hnn.
  fold size in Hcov, Hnn.
  split; [|split; [|split]].
  - intros Hlt.
    pose proof (chunks_of_nonempty states num_threads Ht Hlt) as Hne.
    assert (states ≠ []) as Hstates by (intros ->; cbn in n; nia).
    rewrite train_instances_parallel by assumption.
    rewrite train_instances_sequential by assumption.
    destruct (collect_chunks x m _ Hne) as (rs & Hrs & Hxs & Hys).
    rewrite Hrs, Hxs, Hys, concat_chunks_of by lia. reflexivity.
  - intros Hle. apply train_instances_parallel_raises; [assumption|].
    apply chunks_of_empty; assumption.
  - intros Hlt. destruct (decide (n = 0)) as [Hz|Hnz]; [nia|]. nia.
  - intros Hpos [q Hq]. assert (size = q) as ->; [|nia].
    unfold size, ceil_div. rewrite Hq.
    rewrite <- Z.mul_opp_l, Z.div_mul by lia. lia.
Qed.

(** X11.  On an empty list of states [train_instances] raises
    [ValueError] for every number of threads, and the vocabulary is left
    as it was. *)
Theorem train_instances_empty (m : NLPModel) (num_threads : Z) :
  train_instances x m [] num_threads = (m, Raise ValueError).
Proof.
  unfold train_instances.
  case_bool_decide as H1; [reflexivity|].
  case_bool_decide as H0; [reflexivity|].
  destruct (Z.to_nat num_threads) as [|t] eqn:Hnt; [lia|].
  reflexivity.
Qed.

End Threads.

(** Six states: three threads give chunks of two, four threads give
    three chunks of two and an empty one. *)
Lemma train_instances_threads_witness :
  let states := map (λ n, mkTagger n 0 n) [1; 2; 3; 4; 5; 6]%nat in
  train_instances tagger_x new_model states 3 = train_instances tagger_x new_model states 1 ∧
  (train_instances tagger_x new_model states 4).2 = Raise ValueError.
Proof.
  intros states. split.
  - apply (train_instances_threads tagger_x new_model states 3); [lia|].
    vm_compute. reflexivity.
  - apply (train_instances_threads tagger_x new_model states 4); [lia|].
    vm_compute. discriminate.
Defined.

(** ** Exceptions of the evaluation loop *)

Section Failures.

Context {State Score Num Vec : Type} `{!NLPState State Score Num}.
Variable x : State → Vec.
Variable mxmod_predict : Z → list Vec → list (list Score).
Variable score_lt : Score → Score → bool.
Variable zero : Num.

Lemma process_all_raises (m : NLPModel) (pairs : list (nat * list Score))
    (st st' : list State) (e : exn) :
  process_all score_lt m st pairs = (st', Raise e) →
  e = ValueError ∧ (labels m = [] ∨ ∃ p, p ∈ pairs ∧ p.2 = []).
Proof.
  revert st. induction pairs as [|[j yhats] pairs IH]; intros st Hrun; [discriminate|].
  cbn [process_all] in Hrun.
  remember (if bool_decide (Z.of_nat (length yhats) = num_label m) then yhats
            else take (Z.to_nat (num_label m)) yhats) as v eqn:Hv.
  assert (length v ≤ length (labels m))%nat as Hvlen.
  { subst v. clear Hrun. unfold num_label. case_bool_decide as Hlen; [lia|].
    rewrite Nat2Z.id, length_take. lia. }
  symmetry in Hv. destruct v as [|y v'].
  - cbn in Hrun. inversion Hrun; subst. split; [reflexivity|].
    unfold num_label in Hv. case_bool_decide as Hlen.
    + right. exists (j, yhats). split; [left|assumption].
    + rewrite Nat2Z.id in Hv. destruct (labels m) as [|l ls]; [left; reflexivity|].
      destruct yhats; [|discriminate]. right. exists (j, []). split; [left|reflexivity].
  - destruct (argmax_Ok score_lt (y :: v') ltac:(discriminate)) as (yh & Hyh & Hbound).
    rewrite Hyh in Hrun.
    destruct (lookup_lt_is_Some_2 (labels m) (Z.to_nat yh) ltac:(lia)) as [l Hl].
    unfold get_label in Hrun. replace yh with (Z.of_nat (Z.to_nat yh)) in Hrun by lia.
    rewrite (index_nonneg _ _ _ Hl) in Hrun.
    destruct (IH _ Hrun) as [He [Hm|(p & Hp & Hnil)]].
    + split; [assumption|]. left. assumption.
    + split; [assumption|]. right. exists p. split; [right|]; assumption.
Qed.

Lemma advance_raises (fuel : nat) (m : NLPModel) (batch_size : Z)
    (st st1 : list State) (states : list nat) (e : exn) :
  advance x mxmod_predict score_lt fuel m batch_size st states = Some (st1, Raise e) →
  e = ValueError ∧ (labels m = [] ∨ ∃ bs xs, [] ∈ mxmod_predict bs xs).
Proof.
  revert st states. induction fuel as [|fuel IH]; intros st states Hrun.
  - destruct states; discriminate.
  - destruct states as [|i0 states']; [discriminate|].
    cbn [advance] in Hrun. unfold feature_vectors in Hrun. cbn match in Hrun.
    destruct (process_all score_lt m st _) as [st' [[]|e']] eqn:Hround.
    + eapply IH. exact Hrun.
    + inversion Hrun; subst.
      destruct (process_all_raises _ _ _ _ _ Hround) as [He [Hm|([i y] & Hp & Hnil)]].
      * split; [assumption|]. left. assumption.
      * split; [assumption|]. right. cbn in Hnil. subst y.
        apply elem_of_zip_r in Hp. eauto.
Qed.

(** X12.  The only exception [evaluate] raises is [ValueError], from
    [np.argmax] on an empty vector: the state list is not empty, and
    either the model has no label, so that every prediction vector is cut
    to nothing, or the module returned an empty prediction vector.
    [get_label] never raises [IndexError] there, since the index is a
    position of a vector no longer than the label list. *)
Theorem evaluate_raises_ValueError (fuel : nat) (m : NLPModel) (batch_size : Z)
    (st st1 : list State) (states : list nat) (e : exn) :
  evaluate x mxmod_predict score_lt zero fuel m st states batch_size = Some (st1, Raise e) →
  e = ValueError ∧ states ≠ [] ∧
  (labels m = [] ∨ ∃ bs xs, [] ∈ mxmod_predict bs xs).
Proof.
  unfold evaluate. intros Hrun.
  destruct (advance _ _ _ fuel m batch_size _ states) as [[st1' [[]|e']]|] eqn:Hloop;
    [discriminate| |discriminate].
  inversion Hrun; subst.
  destruct (advance_raises _ _ _ _ _ _ _ Hloop) as [He Hcause].
  split; [assumption|]. split; [|assumption].
  intros ->. destruct fuel; discriminate.
Qed.

(** X13.  With a model that has no label yet, [evaluate] on a list of
    allocated states that is not empty raises [ValueError] in the first
    round, before any state is processed: the states are left as [reset]
    made them. *)
Theorem evaluate_without_labels (fuel : nat) (m : NLPModel) (batch_size : Z)
    (st : list State) (states : list nat) :
  labels m = [] →
  states ≠ [] →
  (∀ i, i ∈ states → is_Some (st !! i)) →
  (∀ bs xs, length (mxmod_predict bs xs) = length xs) →
  evaluate x mxmod_predict score_lt zero (S fuel) m st states batch_size
  = Some (reset_all st states, Raise ValueError).
Proof.
  intros Hm Hne Hvalid Hpred. unfold evaluate.
  destruct states as [|i0 states']; [congruence|].
  cbn [advance]. unfold feature_vectors. cbn match.
  set (states := i0 :: states') in *.
  set (st0 := reset_all st states).
  set (xs := omap (λ i, x <$> st0 !! i) states).
  set (preds := mxmod_predict (data_iter_batch_size xs batch_size) xs).
  assert (Hlen : length preds = length states).
  { subst preds. rewrite Hpred. subst xs.
    apply feature_vectors_length. intros i Hi.
    apply lookup_lt_is_Some_2. subst st0. rewrite reset_all_length.
    apply lookup_lt_is_Some_1, Hvalid, Hi. }
  destruct preds as [|y preds']; [discriminate|].
  subst states. cbn [zip zip_with process_all].
  unfold num_label. rewrite Hm. cbn [length].
  case_bool_decide as Hy.
  - destruct y; [|discriminate]. reflexivity.
  - reflexivity.
Qed.

End Failures.

(** The two taggers evaluated with a model without labels. *)
Lemma evaluate_raises_witness :
  evaluate tagger_x tagger_predict Z.ltb 0 3 new_model taggers [0; 1]%nat 128
  = Some (reset_all taggers [0; 1]%nat, Raise ValueError) ∧
  ValueError = ValueError ∧ [0; 1]%nat ≠ [] ∧
  (labels new_model = [] ∨ ∃ bs xs, [] ∈ tagger_predict bs xs).
Proof.
  assert (evaluate tagger_x tagger_predict Z.ltb 0 3 new_model taggers [0; 1]%nat 128
          = Some (reset_all taggers [0; 1]%nat, Raise ValueError)) as Hrun
    by (vm_compute; reflexivity).
  split; [exact Hrun|].
  exact (evaluate_raises_ValueError tagger_x tagger_predict Z.ltb 0 3 new_model 128
           taggers _ [0; 1]%nat ValueError Hrun).
Defined.

(** The same run, one round of fuel. *)
Lemma evaluate_without_labels_witness :
  evaluate tagger_x tagger_predict Z.ltb 0 1 new_model taggers [0; 1]%nat 128
  = Some (reset_all taggers [0; 1]%nat, Raise ValueError).
Proof.
  apply (evaluate_without_labels tagger_x tagger_predict Z.ltb 0 0 new_model 128
           taggers [0; 1]%nat).
  - reflexivity.
  - discriminate.
  - intros i Hi. apply elem_of_cons in Hi as [->|Hi]; [eexists; reflexivity|].
    apply list_elem_of_singleton in Hi as ->. eexists. reflexivity.
  - intros bs xs. unfold tagger_predict. apply length_map.
Defined.

(** ** Secondary parents *)

Lemma bisect_index_nonneg (l : list ref) (x : ref) : 0 <= bisect_index l x ↔ x ∈ l.
Proof.
  induction l as [|y l IH]; cbn [bisect_index].
  - split; [lia|]. inversion 1.
  - rewrite elem_of_cons. case_bool_decide as Hyx.
    + split; [auto|lia].
    + case_bool_decide as Hi.
      * split; [|lia]. intros _. right. apply IH. assumption.
      * split; [lia|]. intros [->|Hin]; [congruence|]. apply IH in Hin. lia.
Qed.

Lemma delete_bisect_index (l : list ref) (x : ref) :
  x ∈ l → delete (Z.to_nat (bisect_index l x)) l = bisect_remove l x.
Proof.
  intros Hin. apply bisect_index_nonneg in Hin.
  unfold bisect_remove. rewrite bool_decide_eq_true_2 by assumption. reflexivity.
Qed.

Lemma bisect_remove_insort_right (key : ref → Z) (l : list ref) (x : ref) :
  x ∉ l → bisect_remove (insort_right key l x) x = l.
Proof.
  induction l as [|y l IH]; intros Hx.
  - rewrite insort_right_nil, bisect_remove_cons, decide_True by reflexivity. reflexivity.
  - apply not_elem_of_cons in Hx as [Hne Hx].
    rewrite insort_right_cons. destruct (decide (key y <= key x)).
    + rewrite bisect_remove_cons, decide_False by congruence. rewrite IH by assumption.
      reflexivity.
    + rewrite bisect_remove_cons, decide_True by reflexivity. reflexivity.
Qed.

Lemma length_insort_right (key : ref → Z) (l : list ref) (x : ref) :
  length (insort_right key l x) = S (length l).
Proof.
  unfold insort_right. rewrite length_app. cbn [length].
  rewrite length_take, length_drop. lia.
Qed.

Lemma truthy_Some (label : option string) :
  truthy label = true → Some (default EmptyString label) = label.
Proof. destruct label as [[|c s]|]; cbn; congruence. Qed.

(** What [add_secondary_parent] leaves in the store. *)
Lemma add_secondary_parent_run (h : heap) (b a : ref) (label : option string) :
  let h1 := <[b := with_secondary_parents
                     (insort_right (nid h) (secondary_parents (h !!! b)) a) (h !!! b)]> h in
  let h2 := <[a := with_secondary_children
                     (insort_right (nid h1) (secondary_children (h1 !!! a)) b) (h1 !!! a)]> h1 in
  add_secondary_parent b a label h
  = (if truthy label
     then <[b := with_deprels (<[a := default EmptyString label]> (deprels (h2 !!! b)))
                   (h2 !!! b)]> h2
     else h2, Ok tt).
Proof.
  intros h1 h2. unfold add_secondary_parent, set_dependency_label, bind, update, ret.
  destruct (truthy label); reflexivity.
Qed.

(** Reading an object of a store after some writes. *)
Ltac heap_lookup :=
  repeat (rewrite lookup_total_update || rewrite length_insert);
  repeat (destruct (decide _) as [[? ?]|?]); subst; cbn;
  try reflexivity; try lia; try tauto.

(** X14.  [b.add_secondary_parent(a, label)] on allocated nodes always
    returns.  Afterwards [b.secondary_parents] holds [a] and what it held
    before, one entry more (an [a] that was there already is there
    twice), [a.secondary_children] holds [b] and what it held before, the
    label of [b] for [a] is [label] when [label] is not empty and is left
    as it was otherwise, and no node has changed its id, its parent or its
    children. *)
Theorem add_secondary_parent_links (h : heap) (b a : ref) (label : option string) :
  (b < length h)%nat → (a < length h)%nat →
  ∃ h', add_secondary_parent b a label h = (h', Ok tt) ∧
        (∀ c, c ∈ secondary_parents (h' !!! b) ↔ c = a ∨ c ∈ secondary_parents (h !!! b)) ∧
        (∀ c, c ∈ secondary_children (h' !!! a) ↔ c = b ∨ c ∈ secondary_children (h !!! a)) ∧
        length (secondary_parents (h' !!! b)) = S (length (secondary_parents (h !!! b))) ∧
        get_dependency_label h' b (Some a)
        = (if truthy label then label else get_dependency_label h b (Some a)) ∧
        (∀ r, node_id (h' !!! r) = node_id (h !!! r) ∧
              parent (h' !!! r) = parent (h !!! r) ∧
              children (h' !!! r) = children (h !!! r)).
Proof.
  intros Hb Ha. eexists. split; [apply add_secondary_parent_run|].
  unfold get_dependency_label.
  destruct (truthy label) eqn:Hl; (split; [|split; [|split; [|split]]]).
  - intros c. heap_lookup; rewrite elem_of_insort_right; reflexivity.
  - intros c. heap_lookup; rewrite elem_of_insort_right; reflexivity.
  - heap_lookup; apply length_insort_right.
  - heap_lookup; rewrite lookup_insert_eq; apply truthy_Some; assumption.
  - intros r. heap_lookup.
  - intros c. heap_lookup; rewrite elem_of_insort_right; reflexivity.
  - intros c. heap_lookup; rewrite elem_of_insort_right; reflexivity.
  - heap_lookup; apply length_insort_right.
  - heap_lookup.
  - intros r. heap_lookup.
Qed.

Lemma remove_secondary_parent_absent (h : heap) (b a : ref) :
  a ∉ secondary_parents (h !!! b) → remove_secondary_parent b a h = (h, Ok false).
Proof.
  intros Hnin. unfold remove_secondary_parent, bind, gets.
  rewrite bool_decide_eq_false_2; [reflexivity|].
  rewrite bisect_index_nonneg. assumption.
Qed.

Lemma remove_secondary_parent_present (h : heap) (b a : ref) :
  a ∈ secondary_parents (h !!! b) →
  let h1 := <[b := with_secondary_parents
                     (bisect_remove (secondary_parents (h !!! b)) a) (h !!! b)]> h in
  remove_secondary_parent b a h
  = (<[b := with_deprels (delete a (deprels (h1 !!! b))) (h1 !!! b)]> h1, Ok true).
Proof.
  intros Hin h1. unfold remove_secondary_parent, bind, gets, update, ret.
  rewrite bool_decide_eq_true_2 by (apply bisect_index_nonneg; assumption).
  rewrite delete_bisect_index by assumption. reflexivity.
Qed.

Lemma secondary_parents_allocated (h : heap) (b a : ref) :
  a ∈ secondary_parents (h !!! b) → (b < length h)%nat.
Proof.
  intros Hin. destruct (decide (b < length h)%nat) as [|Hge]; [assumption|].
  rewrite lookup_total_unallocated in Hin by lia. inversion Hin.
Qed.

(** X15.  Adding [a] as a secondary parent of [b], which did not have it,
    and removing it again: the removal returns [True],
    [b.secondary_parents] is what it was at the start and [b] holds no
    label for [a]; but [a.secondary_children] still holds [b], one entry
    more than at the start: [remove_secondary_parent] does not touch the
    other node.  A second removal returns [False] and changes nothing. *)
Theorem secondary_parent_add_remove (h : heap) (b a : ref) (label : option string) :
  (b < length h)%nat → (a < length h)%nat →
  a ∉ secondary_parents (h !!! b) →
  ∃ h1 h2,
    add_secondary_parent b a label h = (h1, Ok tt) ∧
    remove_secondary_parent b a h1 = (h2, Ok true) ∧
    secondary_parents (h2 !!! b) = secondary_parents (h !!! b) ∧
    deprels (h2 !!! b) = delete a (deprels (h !!! b)) ∧
    b ∈ secondary_children (h2 !!! a) ∧
    length (secondary_children (h2 !!! a)) = S (length (secondary_children (h !!! a))) ∧
    remove_secondary_parent b a h2 = (h2, Ok false).
Proof.
  intros Hb Ha Hnin.
  assert (∀ h1,
    secondary_parents (h1 !!! b) = insort_right (nid h) (secondary_parents (h !!! b)) a →
    (b < length h1)%nat →
    ∃ h2, remove_secondary_parent b a h1 = (h2, Ok true) ∧
          secondary_parents (h2 !!! b) = secondary_parents (h !!! b) ∧
          deprels (h2 !!! b) = delete a (deprels (h1 !!! b)) ∧
          secondary_children (h2 !!! a) = secondary_children (h1 !!! a) ∧
          remove_secondary_parent b a h2 = (h2, Ok false)) as Hremove.
  { intros h1 Hsp Hb1.
    assert (a ∈ secondary_parents (h1 !!! b)) as Hin
      by (rewrite Hsp, elem_of_insort_right; left; reflexivity).
    eexists. split; [apply remove_secondary_parent_present; assumption|].
    assert (secondary_parents
              ((<[b := with_deprels
                         (delete a (deprels
                            ((<[b := with_secondary_parents
                                       (bisect_remove (secondary_parents (h1 !!! b)) a)
                                       (h1 !!! b)]> h1) !!! b)))
                         ((<[b := with_secondary_parents
                                    (bisect_remove (secondary_parents (h1 !!! b)) a)
                                    (h1 !!! b)]> h1) !!! b)]>
                  (<[b := with_secondary_parents
                            (bisect_remove (secondary_parents (h1 !!! b)) a)
                            (h1 !!! b)]> h1)) !!! b)
            = secondary_parents (h !!! b)) as Hback.
    { heap_lookup. rewrite Hsp. apply bisect_remove_insort_right. assumption. }
    split; [exact Hback|]. split; [heap_lookup|]. split; [heap_lookup|].
    apply remove_secondary_parent_absent. rewrite Hback. assumption. }
  pose (h1 := (add_secondary_parent b a label h).1).
  assert (add_secondary_parent b a label h = (h1, Ok tt)) as Hadd
    by (subst h1; rewrite add_secondary_parent_run; reflexivity).
  assert (h1 = (add_secondary_parent b a label h).1) as Hh1 by reflexivity.
  clearbody h1. rewrite add_secondary_parent_run in Hh1. cbn [fst] in Hh1.
  destruct (Hremove h1) as (h2 & Hrun & Hsp & Hd & Hsc & Hagain).
  { subst h1. destruct (truthy label); heap_lookup. }
  { subst h1. destruct (truthy label); heap_lookup. }
  exists h1, h2. split; [exact Hadd|]. split; [exact Hrun|]. split; [exact Hsp|].
  split; [|split; [|split; [|exact Hagain]]].
  - rewrite Hd. subst h1. destruct (truthy label); heap_lookup; apply delete_insert_eq.
  - rewrite Hsc. subst h1. destruct (truthy label); heap_lookup;
      rewrite elem_of_insort_right; left; reflexivity.
  - rewrite Hsc. subst h1. destruct (truthy label); heap_lookup; apply length_insort_right.
Qed.

(** X16.  When the parent [a] of [b] is also one of its secondary
    parents, [b.remove_secondary_parent(a)] returns [True] and deletes the
    one label [b] holds for [a], which is the label of the primary link
    too: [b.parent] is still [a], [get_dependency_label()] is absent, no
    child list has changed, and every later [b.set_parent(...)] raises
    [KeyError]. *)
Theorem secondary_removal_drops_primary_label (h : heap) (b a : ref) :
  parent (h !!! b) = Some a →
  a ∈ secondary_parents (h !!! b) →
  ∃ h1, remove_secondary_parent b a h = (h1, Ok true) ∧
        parent (h1 !!! b) = Some a ∧
        get_dependency_label h1 b None = None ∧
        (∀ r, children (h1 !!! r) = children (h !!! r)) ∧
        ∀ node label, (set_parent b node label h1).2 = Raise KeyError.
Proof.
  intros Hp Hin.
  pose proof (secondary_parents_allocated h b a Hin) as Hb.
  eexists. split; [apply remove_secondary_parent_present; assumption|].
  match goal with |- parent (?h1 !!! b) = _ ∧ _ =>
    assert (parent (h1 !!! b) = Some a) as Hp1 by (heap_lookup; assumption);
    assert (deprels (h1 !!! b) !! a = None) as Hd1 by (heap_lookup; apply lookup_delete_eq)
  end.
  split; [exact Hp1|]. split; [|split].
  - unfold get_dependency_label. rewrite Hp1. exact Hd1.
  - intros r. heap_lookup.
  - intros node label. rewrite (set_parent_KeyError _ b a node label Hp1 Hd1). reflexivity.
Qed.

Lemma render_arcs_spec (h : heap) (n : ref) (ps : list ref) :
  match render_arcs h n ps with
  | Ok l => Forall (λ p, is_Some (deprels (h !!! n) !! p)) ps ∧ length l = length ps
  | Raise e => e = TypeError ∧ Exists (λ p, deprels (h !!! n) !! p = None) ps
  end.
Proof.
  induction ps as [|p ps IH]; cbn [render_arcs]; [split; [constructor|reflexivity]|].
  unfold get_dependency_label.
  destruct (deprels (h !!! n) !! p) as [l|] eqn:Hl.
  - destruct (render_arcs h n ps) as [rest|e].
    + destruct IH as [IH Hlen]. split; [constructor; [eauto|assumption]|].
      cbn [length]. congruence.
    + destruct IH as [-> IH]. split; [reflexivity|]. right. assumption.
  - split; [reflexivity|]. left. assumption.
Qed.

(** X17.  [str(node)] returns exactly when the node holds a label for
    each of its secondary parents; otherwise it raises [TypeError], and
    nothing else. *)
Theorem node_str_raises_TypeError (h : heap) (n : ref) :
  match node_str h n with
  | Ok _ => Forall (λ p, is_Some (deprels (h !!! n) !! p)) (secondary_parents (h !!! n))
  | Raise e =>
      e = TypeError ∧
      Exists (λ p, deprels (h !!! n) !! p = None) (secondary_parents (h !!! n))
  end.
Proof.
  unfold node_str, str_fields.
  destruct (secondary_parents (h !!! n)) as [|p ps] eqn:Hps; [constructor|].
  pose proof (render_arcs_spec h n (p :: ps)) as Hspec.
  destruct (render_arcs h n (p :: ps)) as [l|e]; [apply Hspec|exact Hspec].
Qed.

(** X18.  After [b.add_secondary_parent(a)] without a label (or with an
    empty one), on a node [b] that holds no label for [a], [str(b)] raises
    [TypeError]. *)
Theorem unlabelled_secondary_parent_str (h : heap) (b a : ref) (label : option string) :
  (b < length h)%nat → (a < length h)%nat →
  truthy label = false →
  deprels (h !!! b) !! a = None →
  ∃ h', add_secondary_parent b a label h = (h', Ok tt) ∧
        node_str h' b = Raise TypeError.
Proof.
  intros Hb Ha Hl Hd. eexists. split; [apply add_secondary_parent_run|].
  rewrite Hl.
  match goal with |- node_str ?h' b = _ =>
    pose proof (render_arcs_spec h' b (secondary_parents (h' !!! b))) as Hspec;
    assert (a ∈ secondary_parents (h' !!! b)) as Hin
      by (heap_lookup; rewrite elem_of_insort_right; left; reflexivity);
    assert (deprels (h' !!! b) !! a = None) as Hd' by (heap_lookup; assumption)
  end.
  unfold node_str, str_fields.
  match goal with |- context [secondary_parents ?n] =>
    destruct (secondary_parents n) as [|p ps]; [inversion Hin|]
  end.
  destruct (render_arcs _ b (p :: ps)) as [l|e].
  - destruct Hspec as [Hall _]. rewrite Forall_forall in Hall.
    destruct (Hall a Hin) as [x Hx]. congruence.
  - destruct Hspec as [-> _]. reflexivity.
Qed.

(** Token 3 of three new tokens gets token 1 as a secondary parent. *)
Lemma add_secondary_parent_witness :
  ∃ h', add_secondary_parent 2%nat 0%nat (Some "xsubj"%string) (alloc_tokens [1; 2; 3] []).1
        = (h', Ok tt) ∧
        0%nat ∈ secondary_parents (h' !!! 2%nat) ∧
        2%nat ∈ secondary_children (h' !!! 0%nat) ∧
        get_dependency_label h' 2%nat (Some 0%nat) = Some "xsubj"%string.
Proof.
  destruct (add_secondary_parent_links (alloc_tokens [1; 2; 3] []).1 2%nat 0%nat
              (Some "xsubj"%string)) as (h' & Hrun & Hsp & Hsc & _ & Hl & _).
  - vm_compute. lia.
  - vm_compute. lia.
  - exists h'. split; [exact Hrun|]. split; [apply Hsp; left; reflexivity|].
    split; [apply Hsc; left; reflexivity|exact Hl].
Defined.

(** The same link, added and removed. *)
Lemma secondary_parent_add_remove_witness :
  ∃ h1 h2,
    add_secondary_parent 2%nat 0%nat (Some "xsubj"%string) (alloc_tokens [1; 2; 3] []).1
    = (h1, Ok tt) ∧
    remove_secondary_parent 2%nat 0%nat h1 = (h2, Ok true) ∧
    secondary_parents (h2 !!! 2%nat) = [] ∧
    2%nat ∈ secondary_children (h2 !!! 0%nat).
Proof.
  destruct (secondary_parent_add_remove (alloc_tokens [1; 2; 3] []).1 2%nat 0%nat
              (Some "xsubj"%string)) as (h1 & h2 & Hadd & Hrm & Hsp & _ & Hsc & _).
  - vm_compute. lia.
  - vm_compute. lia.
  - vm_compute. inversion 1.
  - exists h1, h2. split; [exact Hadd|]. split; [exact Hrm|]. split; [exact Hsp|exact Hsc].
Defined.

(** Token 2 under token 1, which is also its secondary parent. *)
Lemma secondary_removal_witness :
  ∃ h1, remove_secondary_parent 1%nat 0%nat doubly_attached = (h1, Ok true) ∧
        parent (h1 !!! 1%nat) = Some 0%nat ∧
        (set_parent 1%nat None None h1).2 = Raise KeyError.
Proof.
  destruct (secondary_removal_drops_primary_label doubly_attached 1%nat 0%nat)
    as (h1 & Hrun & Hp & _ & _ & Hraise).
  - reflexivity.
  - vm_compute. left.
  - exists h1. split; [exact Hrun|]. split; [exact Hp|apply Hraise].
Defined.

(** A secondary parent added with the default label. *)
Lemma unlabelled_secondary_parent_witness :
  ∃ h', add_secondary_parent 2%nat 0%nat None (alloc_tokens [1; 2; 3] []).1 = (h', Ok tt) ∧
        node_str h' 2%nat = Raise TypeError.
Proof.
  apply unlabelled_secondary_parent_str.
  - vm_compute. lia.
  - vm_compute. lia.
  - reflexivity.
  - reflexivity.
Defined.

(** ** Splitting and joining *)

Lemma append_cons (a : Ascii.ascii) (s1 s2 : string) :
  String a s1 +:+ s2 = String a (s1 +:+ s2).
Proof. reflexivity. Qed.

Lemma append_nil_l (s : string) : EmptyString +:+ s = s.
Proof. reflexivity. Qed.

Lemma append_nil_r (s : string) : s +:+ EmptyString = s.
Proof.
  induction s as [|a s IH]; [reflexivity|]. rewrite append_cons, IH. reflexivity.
Qed.

Lemma rev_app_rev_app (s1 s2 s3 : string) :
  String.rev_app (String.rev_app s1 s2) s3 = String.rev_app s2 (s1 +:+ s3).
Proof.
  revert s2. induction s1 as [|a s1 IH]; intros s2; [reflexivity|].
  cbn [String.rev_app]. rewrite IH. reflexivity.
Qed.

Lemma rev_rev_app (s1 : string) : String.rev (String.rev_app s1 EmptyString) = s1.
Proof.
  unfold String.rev. rewrite rev_app_rev_app. cbn [String.rev_app].
  apply append_nil_r.
Qed.

Lemma occurs_app (c : Ascii.ascii) (s1 s2 : string) :
  occurs c (s1 +:+ s2) = occurs c s1 || occurs c s2.
Proof.
  induction s1 as [|a s1 IH]; [reflexivity|].
  rewrite append_cons. cbn [occurs]. rewrite IH, orb_assoc. reflexivity.
Qed.

Lemma split_go_app (c : Ascii.ascii) (s1 s cur : string) :
  occurs c s1 = false →
  split_go c (s1 +:+ s) cur = split_go c s (String.rev_app s1 cur).
Proof.
  revert cur. induction s1 as [|a s1 IH]; intros cur Hfree; [reflexivity|].
  cbn [occurs] in Hfree. apply orb_false_iff in Hfree as [Ha Hfree].
  rewrite append_cons. cbn [split_go String.rev_app]. rewrite Ha. apply IH. assumption.
Qed.

Lemma split_free (c : Ascii.ascii) (s : string) :
  occurs c s = false → split c s = [s].
Proof.
  intros Hfree. unfold split.
  rewrite <- (append_nil_r s) at 1.
  rewrite split_go_app by assumption. cbn [split_go]. rewrite rev_rev_app. reflexivity.
Qed.

Lemma split_sep (c : Ascii.ascii) (s1 s2 : string) :
  occurs c s1 = false →
  split c (s1 +:+ String c s2) = s1 :: split c s2.
Proof.
  intros Hfree. unfold split. rewrite split_go_app by assumption.
  cbn [split_go]. rewrite Ascii.eqb_refl, rev_rev_app. reflexivity.
Qed.

Lemma split_join (c : Ascii.ascii) (l : list string) :
  l ≠ [] → Forall (λ s, occurs c s = false) l →
  split c (join (String c EmptyString) l) = l.
Proof.
  intros Hne Hfree. induction Hfree as [|s l Hs Hl IH]; [congruence|].
  destruct l as [|s' l].
  - cbn. apply split_free. assumption.
  - unfold join in *. cbn [String.concat].
    rewrite append_cons, append_nil_l.
    rewrite split_sep by assumption. f_equal. apply IH. discriminate.
Qed.

Lemma dict_set_fresh (d : list (string * string)) (k v : string) :
  k ∉ d.*1 → dict_set d k v = d ++ [(k, v)].
Proof.
  induction d as [|[k' v'] d IH]; intros Hk; [reflexivity|].
  cbn [fmap list_fmap fst] in Hk. apply not_elem_of_cons in Hk as [Hne Hk].
  cbn [dict_set]. destruct (String.eqb k' k) eqn:Heq.
  - apply String.eqb_eq in Heq. congruence.
  - cbn. f_equal. apply IH. assumption.
Qed.

Lemma feats_dict_pairs (d acc : list (string * string)) :
  NoDup (acc ++ d).*1 →
  feats_dict (map (λ kv, [kv.1; kv.2]) d) acc = Ok (acc ++ d).
Proof.
  revert acc. induction d as [|[k v] d IH]; intros acc Hnd.
  - cbn. rewrite app_nil_r. reflexivity.
  - cbn [map feats_dict fst snd].
    change (index [k; v] 0) with (Ok k). change (index [k; v] 1) with (Ok v).
    cbn match. rewrite dict_set_fresh.
    + rewrite IH; rewrite <- app_assoc; [reflexivity|exact Hnd].
    + rewrite fmap_app in Hnd. apply NoDup_app in Hnd as (_ & Hdis & _).
      intros Hin. apply (Hdis k Hin). left.
Qed.

Lemma occurs_join_first (c : Ascii.ascii) (sep s : string) (l : list string) :
  occurs c s = true → occurs c (join sep (s :: l)) = true.
Proof.
  intros Hs. unfold join. destruct l as [|s' l]; [exact Hs|].
  cbn [String.concat]. rewrite occurs_app, Hs. reflexivity.
Qed.

(** X19.  Reading back what [__str__] renders for a feature dict: when
    the dict is not empty, its keys are distinct and no key or value holds
    a ['|'] or a ['='], [get_feats] on a row whose features column holds
    the rendering returns that dict, with its entries in the same order. *)
Theorem get_feats_render_feats (rd : TSVReader) (row : list string)
    (d : list (string * string)) :
  0 <= feats_index rd →
  d ≠ [] →
  NoDup d.*1 →
  Forall plain d →
  index row (feats_index rd) = Ok (render_feats (Some d)) →
  get_feats rd row = Ok (Some d).
Proof.
  intros Hcol Hne Hnd Hplain Hrow. unfold get_feats.
  rewrite bool_decide_eq_true_2 by assumption. rewrite Hrow.
  destruct d as [|kv d]; [congruence|]. cbn [render_feats].
  set (pieces := map (λ kv, join DELIM_FEAT_KV [kv.1; kv.2]) (kv :: d)).
  assert (String.eqb (join DELIM_FEAT pieces) BLANK = false) as ->.
  { apply String.eqb_neq. intros Heq.
    assert (occurs c_feats_kv (join DELIM_FEAT pieces) = true) as Hocc.
    { subst pieces. cbn [map]. apply occurs_join_first.
      unfold join. cbn [String.concat]. rewrite occurs_app.
      apply orb_true_iff. right. reflexivity. }
    rewrite Heq in Hocc. discriminate. }
  assert (split c_feats (join DELIM_FEAT pieces) = pieces) as ->.
  { apply (split_join c_feats); [discriminate|].
    subst pieces. apply Forall_fmap. eapply Forall_impl; [exact Hplain|].
    intros [k v] (Hk & _ & Hv & _). cbn in *.
    unfold join. cbn [String.concat]. rewrite !occurs_app, Hk, Hv. reflexivity. }
  assert (map (split c_feats_kv) pieces = map (λ kv, [kv.1; kv.2]) (kv :: d)) as ->.
  { subst pieces. rewrite map_map. apply Forall_fmap_ext_1.
    eapply Forall_impl; [exact Hplain|].
    intros [k v] (_ & Hk & _ & Hv). cbn in *.
    apply (split_join c_feats_kv [k; v]); [discriminate|].
    repeat constructor; assumption. }
  rewrite (feats_dict_pairs (kv :: d) []) by exact Hnd. reflexivity.
Qed.

(** A row with two features. *)
Lemma get_feats_render_witness :
  get_feats output_columns
    ["1"; "cats"; "cat"; "NNS"; "num=pl|case=nom"; "_"; "_"; "_"; "_"]%string
  = Ok (Some [("num", "pl"); ("case", "nom")]%string).
Proof.
  apply get_feats_render_feats.
  - vm_compute. discriminate.
  - discriminate.
  - apply NoDup_cons. split; [|apply NoDup_singleton].
    intros Hin. apply list_elem_of_singleton in Hin. discriminate.
  - repeat constructor.
  - reflexivity.
Defined.

(** ** Building the nodes of a block *)

Lemma lookup_total_snoc (h : heap) (n : NLPNode) : (h ++ [n]) !!! length h = n.
Proof. rewrite lookup_total_app_r by lia. rewrite Nat.sub_diag. reflexivity. Qed.

Lemma insert_snoc (h : heap) (n m : NLPNode) : <[length h := m]> (h ++ [n]) = h ++ [m].
Proof.
  rewrite insert_app_r_alt by lia. rewrite Nat.sub_diag. reflexivity.
Qed.

Lemma init_node_reads (rd : TSVReader) (tsv : list (list string)) (i : nat)
    (row : list string) (n : NLPNode) (h : heap) :
  tsv !! i = Some row → reads rd i row n →
  init_node rd tsv i h = (h ++ [n], Ok (length h)).
Proof.
  intros Hrow (Hid & Hw & Hl & Hp & Hne & Hf & Hpar & Hch & Hsp & Hsc & Hd).
  unfold init_node, bind, lift, alloc, update, ret.
  rewrite (index_nonneg _ _ _ Hrow), Hw, Hl, Hp, Hne.
  destruct row as [|c row]; [|rewrite Hf];
    repeat (rewrite lookup_total_snoc || rewrite insert_snoc);
    do 2 f_equal; f_equal; destruct n; cbn in *; subst; reflexivity.
Qed.

Lemma init_nodes_reads (rd : TSVReader) (tsv : list (list string)) (ns : list NLPNode)
    (k : nat) (h : heap) :
  (∀ j n, ns !! j = Some n → ∃ row, tsv !! (k + j)%nat = Some row ∧ reads rd (k + j) row n) →
  init_nodes rd tsv (seq k (length ns)) h = (h ++ ns, Ok (seq (length h) (length ns))).
Proof.
  revert k h. induction ns as [|n ns IH]; intros k h Hns.
  - cbn. rewrite app_nil_r. reflexivity.
  - cbn [length seq init_nodes]. unfold bind at 1.
    destruct (Hns 0%nat n eq_refl) as (row & Hrow & Hreads).
    rewrite Nat.add_0_r in Hrow, Hreads.
    rewrite (init_node_reads _ _ _ _ _ _ Hrow Hreads).
    unfold bind at 1. rewrite (IH (S k) (h ++ [n])).
    + unfold ret. rewrite <- app_assoc, length_app. cbn [length app].
      replace (length h + 1)%nat with (S (length h)) by lia. reflexivity.
    + intros j m Hm. destruct (Hns (S j) m Hm) as (row' & Hrow' & Hreads').
      exists row'. replace (S k + j)%nat with (k + S j)%nat by lia. split; assumption.
Qed.

(** X20.  Without a head-id column, [tsv_to_graph] on a block whose rows
    can all be read returns a graph and allocates exactly the nodes the
    rows describe, in row order, followed by the root of the graph: row
    [i] gives a node with id [i + 1], the fields of its configured columns
    and no link.  The graph has one node per row, and iterating it yields
    them in row order. *)
Theorem tsv_to_graph_nodes (rd : TSVReader) (tsv : list (list string))
    (ns : list NLPNode) (h : heap) :
  head_id_index rd < 0 →
  Forall2 (λ ir n, reads rd ir.1 ir.2 n) (imap pair tsv) ns →
  ∃ g, tsv_to_graph rd tsv h = (h ++ ns ++ [root], Ok g) ∧
       graph_len g = Z.of_nat (length tsv) ∧
       graph_nodes g = seq (length h) (length tsv) ∧
       nodes g !! 0%nat = Some (length h + length tsv)%nat.
Proof.
  intros Hcol Hns.
  pose proof (Forall2_length _ _ _ Hns) as Hlen. rewrite length_imap in Hlen.
  eexists. split.
  - unfold tsv_to_graph. unfold bind at 1. rewrite Hlen.
    rewrite (init_nodes_reads rd tsv ns 0 h).
    + unfold NLPGraph_init, bind, alloc, ret.
      rewrite bool_decide_eq_false_2 by lia.
      rewrite <- app_assoc. reflexivity.
    + intros j n Hn. cbn [Nat.add].
      destruct (Forall2_lookup_r _ _ _ _ _ Hns Hn) as ([i row] & Hir & Hreads).
      rewrite list_lookup_imap in Hir.
      destruct (tsv !! j) as [row'|] eqn:Hrow; [|discriminate].
      cbn in Hir. inversion Hir; subst. exists row. split; [reflexivity|exact Hreads].
  - cbn [default nodes]. unfold graph_len, graph_nodes, graph_iter. cbn [nodes length].
    unfold id. rewrite length_seq, length_app.
    split; [lia|]. split; [|cbn; f_equal; lia].
    rewrite Hlen.
    assert (length ((length h + length ns)%nat :: seq (length h) (length ns)) - 1
            ≤ S (length ns))%nat as Hfuel by (cbn [length]; rewrite length_seq; lia).
    pose proof (drain_cursor _ _ _ Hfuel) as Hdrain.
    cbn [length drop] in Hdrain. rewrite length_seq in Hdrain. exact Hdrain.
Qed.

(** Two rows, read with the word, lemma, tag, features and entity
    columns. *)
Lemma tsv_to_graph_nodes_witness :
  let rd := mkTSVReader 1 2 3 4 (-1) (-1) (-1) 8 [] in
  let tsv := [["1"; "cats"; "cat"; "NNS"; "num=pl"; "2"; "nsubj"; "_"; "_"];
              ["2"; "sleep"; "sleep"; "VBP"; "_"; "0"; "root"; "_"; "O"]]%string in
  ∃ g, tsv_to_graph rd tsv []
       = ([mkNLPNode 1 (Some "cats") (Some "cat") (Some "NNS") (Some "_")
             (Some [("num", "pl")]) None [] [] [] ∅;
           mkNLPNode 2 (Some "sleep") (Some "sleep") (Some "VBP") (Some "O")
             None None [] [] [] ∅;
           root]%string, Ok g) ∧
       graph_len g = 2 ∧ graph_nodes g = [0; 1]%nat.
Proof.
  intros rd tsv.
  destruct (tsv_to_graph_nodes rd tsv
              [mkNLPNode 1 (Some "cats") (Some "cat") (Some "NNS") (Some "_")
                 (Some [("num", "pl")]) None [] [] [] ∅;
               mkNLPNode 2 (Some "sleep") (Some "sleep") (Some "VBP") (Some "O")
                 None None [] [] [] ∅]%string []) as (g & Hrun & Hlen & Hnodes & _).
  - vm_compute. reflexivity.
  - subst tsv. cbn [imap compose].
    constructor; [vm_compute; repeat split|].
    constructor; [vm_compute; repeat split|]. constructor.
  - exists g. split; [exact Hrun|]. split; [exact Hlen|exact Hnodes].
Defined.

Lemma index_raises {A} (l : list A) (i : Z) (e : exn) :
  index l i = Raise e → e = IndexError.
Proof.
  unfold index. repeat case_bool_decide;
    repeat match goal with |- context [?l !! ?k] => destruct (l !! k) end; congruence.
Qed.

Lemma get_field_raises (row : option (list string)) (idx : Z) (e : exn) :
  get_field row idx = Raise e → e = IndexError.
Proof.
  unfold get_field. destruct row as [r|]; [|discriminate].
  case_bool_decide; [|discriminate].
  destruct (index r idx) as [s|e'] eqn:Hi; [discriminate|].
  intros [= <-]. eapply index_raises. exact Hi.
Qed.

Lemma feats_dict_raises (pieces : list (list string)) (d : list (string * string)) (e : exn) :
  feats_dict pieces d = Raise e → e = IndexError.
Proof.
  revert d. induction pieces as [|feat rest IH]; intros d; [discriminate|].
  cbn [feats_dict].
  destruct (index feat 0) as [k|e0] eqn:H0.
  - destruct (index feat 1) as [v|e1] eqn:H1; [apply IH|].
    intros [= <-]. eapply index_raises. exact H1.
  - intros [= <-]. eapply index_raises. exact H0.
Qed.

Lemma get_feats_raises (rd : TSVReader) (row : list string) (e : exn) :
  get_feats rd row = Raise e → e = IndexError.
Proof.
  unfold get_feats. case_bool_decide; [|discriminate].
  destruct (index row (feats_index rd)) as [f|e0] eqn:Hi.
  - destruct (String.eqb f BLANK); [discriminate|].
    destruct (feats_dict _ _) as [d|e1] eqn:Hd; [discriminate|].
    intros [= <-]. eapply feats_dict_raises. exact Hd.
  - intros [= <-]. eapply index_raises. exact Hi.
Qed.

Lemma init_node_raises (rd : TSVReader) (tsv : list (list string)) (i : nat)
    (h h' : heap) (e : exn) :
  init_node rd tsv i h = (h', Raise e) → e = IndexError.
Proof.
  unfold init_node, bind, lift, alloc, update, ret.
  destruct (index tsv (Z.of_nat i)) as [row|e0] eqn:Hrow;
    [|intros [= _ <-]; eapply index_raises; exact Hrow].
  destruct (get_field (Some row) (word_index rd)) as [w|e0] eqn:Hw;
    [|intros [= _ <-]; eapply get_field_raises; exact Hw].
  destruct (get_field (Some row) (lemma_index rd)) as [l|e0] eqn:Hl;
    [|intros [= _ <-]; eapply get_field_raises; exact Hl].
  destruct (get_field (Some row) (pos_index rd)) as [p|e0] eqn:Hp;
    [|intros [= _ <-]; eapply get_field_raises; exact Hp].
  destruct (get_field (Some row) (nament_index rd)) as [ne|e0] eqn:Hne;
    [|intros [= _ <-]; eapply get_field_raises; exact Hne].
  destruct row as [|c row]; [discriminate|].
  destruct (get_feats rd (c :: row)) as [f|e0] eqn:Hf; [discriminate|].
  intros [= _ <-]. eapply get_feats_raises. exact Hf.
Qed.

Lemma init_nodes_raises (rd : TSVReader) (tsv : list (list string)) (idxs : list nat)
    (h h' : heap) (e : exn) :
  init_nodes rd tsv idxs h = (h', Raise e) → e = IndexError.
Proof.
  revert h. induction idxs as [|i idxs IH]; intros h; [discriminate|].
  cbn [init_nodes]. unfold bind at 1.
  destruct (init_node rd tsv i h) as [h1 [n|e0]] eqn:Hn.
  - unfold bind at 1.
    destruct (init_nodes rd tsv idxs h1) as [h2 [ns|e1]] eqn:Hns; [discriminate|].
    intros [= -> <-]. eapply IH. exact Hns.
  - intros [= _ <-]. eapply init_node_raises. exact Hn.
Qed.

(** X21.  An exception of [tsv_to_graph] is an [IndexError] raised while
    the nodes are built (a row too short for a configured column, or a
    feature without a ['=']), or the [NameError] of the head-resolution
    loop, which needs a head-id column; an empty block raises nothing. *)
Theorem tsv_to_graph_raises (rd : TSVReader) (tsv : list (list string))
    (h h' : heap) (e : exn) :
  tsv_to_graph rd tsv h = (h', Raise e) →
  tsv ≠ [] ∧
  (e = IndexError ∧ (∃ h1, init_nodes rd tsv (seq 0 (length tsv)) h = (h1, Raise IndexError))
   ∨ e = NameError ∧ 0 <= head_id_index rd).
Proof.
  unfold tsv_to_graph. unfold bind at 1.
  destruct (init_nodes rd tsv (seq 0 (length tsv)) h) as [h1 [ns|e0]] eqn:Hns.
  - pose proof (init_nodes_length _ _ _ _ _ _ Hns) as Hlen. rewrite length_seq in Hlen.
    unfold NLPGraph_init, bind, alloc, ret.
    case_bool_decide as Hcol; [|discriminate].
    assert (∀ r, graph_nodes {| nodes := r :: ns; _iter := None |} = ns) as Hgn.
    { intros r. unfold graph_nodes, graph_iter. cbn [nodes].
      exact (drain_cursor (r :: ns) (length (r :: ns)) 1 ltac:(lia)). }
    cbn [default]. unfold id. rewrite Hgn.
    destruct tsv as [|row tsv]; [destruct ns; [discriminate|discriminate]|].
    destruct ns as [|n ns]; [discriminate|].
    cbn [for_enumerate]. unfold resolve_heads, bind, lift, raise.
    change (index (row :: tsv) (Z.of_nat 0)) with (Ok (A := list string) row).
    intros [= _ <-]. split; [discriminate|]. right. split; [reflexivity|assumption].
  - intros [= _ <-].
    pose proof (init_nodes_raises _ _ _ _ _ _ Hns) as ->.
    split; [|left; split; [reflexivity|eauto]].
    intros ->. discriminate.
Qed.

(** A row of two fields, read with a lemma column at position 2. *)
Lemma tsv_to_graph_raises_witness :
  tsv_to_graph (mkTSVReader 1 2 (-1) (-1) (-1) (-1) (-1) (-1) []) [["1"; "cats"]%string] []
  = ([with_word (Some "cats"%string) (with_node_id 1 default_node)], Raise IndexError) ∧
  [["1"; "cats"]%string] ≠ [].
Proof.
  assert (tsv_to_graph (mkTSVReader 1 2 (-1) (-1) (-1) (-1) (-1) (-1) [])
            [["1"; "cats"]%string] []
          = ([with_word (Some "cats"%string) (with_node_id 1 default_node)],
             Raise IndexError)) as Hrun by (vm_compute; reflexivity).
  split; [exact Hrun|].
  exact (proj1 (tsv_to_graph_raises _ _ _ _ _ Hrun)).
Defined.

(** ** Reading blocks *)

Lemma read_block_body (body rest : list string) (acc : list (list string)) :
  Forall (λ l, ¬ blank l) body →
  read_block (body ++ rest) acc = read_block rest (acc ++ rows body).
Proof.
  revert acc. induction body as [|l body IH]; intros acc Hbody.
  - cbn. rewrite app_nil_r. reflexivity.
  - apply Forall_cons in Hbody as [Hl Hbody]. cbn [app read_block].
    unfold blank in Hl. destruct (strip l) as [|c s] eqn:Hs; [congruence|].
    rewrite IH by assumption. unfold rows. cbn [map]. rewrite Hs, <- app_assoc. reflexivity.
Qed.

Lemma read_block_blanks (blanks rest : list string) :
  Forall blank blanks → read_block (blanks ++ rest) [] = read_block rest [].
Proof.
  induction 1 as [|l blanks Hl _ IH]; [reflexivity|].
  cbn [app read_block]. unfold blank in Hl. rewrite Hl. exact IH.
Qed.

(** X22.  The loop of [next] skips the blank lines before a block, takes
    the lines up to the next blank line as the rows of the block, each
    stripped and cut at the tabs, and consumes that blank line; at the end
    of the file the block ends with the last line.  Blank lines alone give
    no row. *)
Theorem read_block_segments (blanks body rest : list string) :
  Forall blank blanks →
  Forall (λ l, ¬ blank l) body →
  body ≠ [] →
  read_block (blanks ++ body) [] = (rows body, []) ∧
  (∀ sep, blank sep → read_block (blanks ++ body ++ sep :: rest) [] = (rows body, rest)) ∧
  read_block blanks [] = ([], []).
Proof.
  intros Hblanks Hbody Hne. split; [|split].
  - rewrite read_block_blanks by assumption.
    rewrite <- (app_nil_r body) at 1. rewrite read_block_body by assumption. reflexivity.
  - intros sep Hsep. rewrite read_block_blanks by assumption.
    rewrite read_block_body by assumption. cbn [read_block app].
    unfold blank in Hsep. rewrite Hsep.
    destruct body as [|l body]; [congruence|]. reflexivity.
  - rewrite <- (app_nil_r blanks). rewrite read_block_blanks by assumption. reflexivity.
Qed.

Lemma read_block_count (lines : list string) (acc tsv : list (list string))
    (rest : list string) :
  read_block lines acc = (tsv, rest) →
  (length tsv + tokens rest = length acc + tokens lines)%nat ∧
  (length rest ≤ length lines)%nat ∧
  (length acc ≤ length tsv)%nat ∧
  (acc = [] → tsv ≠ [] → (length rest < length lines)%nat) ∧
  (tsv = [] → rest = []).
Proof.
  revert acc. induction lines as [|l lines IH]; intros acc Hrun.
  - cbn in Hrun. inversion Hrun; subst. repeat split; try lia; congruence.
  - cbn [read_block] in Hrun. unfold tokens in *.
    destruct (strip l) as [|c s] eqn:Hs.
    + rewrite filter_cons_False by (intros Hnb; apply Hnb; exact Hs).
      destruct acc as [|r acc].
      * destruct (IH _ Hrun) as (H1 & H2 & H3 & H4 & H5). cbn [length] in *.
        repeat split; try lia; try assumption.
      * inversion Hrun; subst. cbn [length]. repeat split; try lia; try discriminate.
    + rewrite filter_cons_True by (unfold blank; congruence).
      destruct (IH _ Hrun) as (H1 & H2 & H3 & H4 & H5).
      rewrite length_app in *. cbn [length] in *.
      repeat split; try lia; try assumption.
Qed.

(** Two blank lines, a block of two rows, a blank line and one more
    line. *)
Lemma read_block_segments_witness :
  let l1 := ("1" +:+ TAB +:+ "cats")%string in
  let l2 := ("2" +:+ TAB +:+ "sleep" +:+ NEWLINE)%string in
  read_block [""; NEWLINE; l1; l2; " "; "x"]%string []
  = ([["1"; "cats"]; ["2"; "sleep"]]%string, ["x"]%string).
Proof.
  intros l1 l2.
  destruct (read_block_segments [""; NEWLINE]%string [l1; l2] ["x"]%string)
    as (_ & Hsep & _).
  - repeat constructor.
  - constructor; [vm_compute; discriminate|].
    constructor; [vm_compute; discriminate|]. constructor.
  - discriminate.
  - apply (Hsep " "%string). reflexivity.
Defined.

Lemma tsv_to_graph_len (rd : TSVReader) (tsv : list (list string)) (h h' : heap)
    (g : NLPGraph) :
  tsv_to_graph rd tsv h = (h', Ok g) → graph_len g = Z.of_nat (length tsv).
Proof.
  unfold tsv_to_graph. unfold bind at 1.
  destruct (init_nodes rd tsv (seq 0 (length tsv)) h) as [h1 [ns|e0]] eqn:Hns; [|discriminate].
  pose proof (init_nodes_length _ _ _ _ _ _ Hns) as Hlen. rewrite length_seq in Hlen.
  unfold NLPGraph_init, bind at 1 2, alloc, ret. cbn [default]. unfold id.
  unfold bind.
  destruct (if bool_decide (0 <= head_id_index rd) then _ else _) as [h2 [[]|e0]];
    [|discriminate].
  intros [= _ <-]. unfold graph_len. cbn [nodes length]. lia.
Qed.

Lemma tsv_to_graph_raises_cases (rd : TSVReader) (tsv : list (list string))
    (h h' : heap) (e : exn) :
  tsv_to_graph rd tsv h = (h', Raise e) →
  e = IndexError ∨ e = NameError ∧ 0 <= head_id_index rd.
Proof.
  unfold tsv_to_graph. unfold bind at 1.
  destruct (init_nodes rd tsv (seq 0 (length tsv)) h) as [h1 [ns|e0]] eqn:Hns.
  - unfold NLPGraph_init, bind at 1 2, alloc, ret. cbn [default]. unfold id.
    case_bool_decide as Hcol; [|discriminate].
    assert (∀ body i l h0 h1 e,
              (∀ i n h0 h1 e, body i n h0 = (h1, Raise e) → e = IndexError ∨ e = NameError) →
              for_enumerate body i l h0 = (h1, Raise e) → e = IndexError ∨ e = NameError)
      as Hloop.
    { intros body i l. revert i. induction l as [|n l IH]; intros i h0 h3 e1 Hbody;
        [discriminate|].
      cbn [for_enumerate]. unfold bind.
      destruct (body i n h0) as [h4 [[]|e2]] eqn:Hstep.
      - apply IH. assumption.
      - intros [= _ <-]. eapply Hbody. exact Hstep. }
    unfold bind.
    destruct (for_enumerate _ _ _ _) as [h2 [[]|e0]] eqn:Hfor; [discriminate|].
    intros [= _ <-].
    apply Hloop in Hfor as [->| ->]; [left; reflexivity|right; split; [reflexivity|assumption]|].
    intros i n h0 h3 e1. unfold resolve_heads, bind, lift, raise.
    destruct (index tsv (Z.of_nat i)) as [t|e2] eqn:Ht.
    + intros [= _ <-]. right. reflexivity.
    + intros [= _ <-]. left. eapply index_raises. exact Ht.
  - intros [= _ <-]. left. eapply init_nodes_raises. exact Hns.
Qed.

Lemma next_cases (rd : TSVReader) (h : heap) :
  match next rd h with
  | (_, Ok (rd', Some g)) =>
      rd' = with_fin (fin rd') rd ∧
      0 < graph_len g ∧
      (Z.to_nat (graph_len g) + tokens (fin rd') = tokens (fin rd))%nat ∧
      (length (fin rd') < length (fin rd))%nat
  | (h', Ok (rd', None)) => h' = h ∧ rd' = with_fin [] rd ∧ tokens (fin rd) = 0%nat
  | (_, Raise e) => e = IndexError ∨ e = NameError ∧ 0 <= head_id_index rd
  end.
Proof.
  unfold next.
  destruct (read_block (fin rd) []) as [tsv rest] eqn:Hblock.
  destruct (read_block_count _ _ _ _ Hblock) as (Hcount & _ & _ & Hless & Hall).
  destruct tsv as [|row tsv].
  - cbn. rewrite (Hall eq_refl) in *. cbn in Hcount.
    split; [reflexivity|]. split; [reflexivity|]. unfold tokens in *. cbn in Hcount. lia.
  - unfold bind, ret.
    destruct (tsv_to_graph rd (row :: tsv) h) as [h' [g|e]] eqn:Hg.
    + rewrite (tsv_to_graph_len _ _ _ _ _ Hg). cbn [fin with_fin length] in *.
      split; [reflexivity|]. split; [lia|]. split; [lia|].
      apply Hless; [reflexivity|discriminate].
    + eapply tsv_to_graph_raises_cases. exact Hg.
Qed.

Lemma dunder_next_cases (rd : TSVReader) (h : heap) :
  match __next__ rd h with
  | (_, Ok (rd', Some g)) =>
      rd' = with_fin (fin rd') rd ∧
      0 < graph_len g ∧
      (Z.to_nat (graph_len g) + tokens (fin rd') = tokens (fin rd))%nat ∧
      (length (fin rd') < length (fin rd))%nat
  | (h', Ok (rd', None)) => h' = h ∧ rd' = with_fin [] rd ∧ tokens (fin rd) = 0%nat
  | (_, Raise e) => e = IndexError ∨ e = NameError ∧ 0 <= head_id_index rd
  end.
Proof.
  pose proof (next_cases rd h) as Hnext. unfold __next__, bind.
  destruct (next rd h) as [h' [[rd' [g|]]|e]]; cbn [fst snd]; [|exact Hnext|exact Hnext].
  rewrite bool_decide_eq_true_2 by lia. exact Hnext.
Qed.

Lemma with_fin_with_fin (l1 l2 : list string) (rd : TSVReader) :
  with_fin l1 (with_fin l2 rd) = with_fin l1 rd.
Proof. reflexivity. Qed.

(** X23.  [next_all] terminates: one round more than the file has lines
    is enough fuel.  When it returns, the file is exhausted, no returned
    graph is empty, and the graphs hold one node for every line of the
    file that is not blank; when it raises, the exception is one of
    [tsv_to_graph]. *)
Theorem next_all_reads_every_line (fuel : nat) (rd : TSVReader) (h : heap) :
  (length (fin rd) < fuel)%nat →
  match next_all fuel rd h with
  | (_, Ok (Some (rd', gs))) =>
      rd' = with_fin [] rd ∧
      Forall (λ g, 0 < graph_len g) gs ∧
      foldr (λ g a, graph_len g + a) 0 gs = Z.of_nat (tokens (fin rd))
  | (_, Ok None) => False
  | (_, Raise e) => e = IndexError ∨ e = NameError ∧ 0 <= head_id_index rd
  end.
Proof.
  revert rd h. induction fuel as [|fuel IH]; intros rd h Hfuel; [lia|].
  cbn [next_all]. unfold bind at 1.
  pose proof (dunder_next_cases rd h) as Hstep.
  destruct (__next__ rd h) as [h1 [[rd1 [g|]]|e]]; cbn [fst snd]; [| |exact Hstep].
  - destruct Hstep as (Hrd & Hpos & Hcount & Hless).
    unfold bind, ret. specialize (IH rd1 h1 ltac:(lia)).
    destruct (next_all fuel rd1 h1) as [h2 [[[rd2 gs]|]|e]].
    + destruct IH as (Hrd2 & Hall & Hsum). split; [|split].
      * rewrite Hrd2, Hrd. reflexivity.
      * constructor; assumption.
      * cbn [foldr]. rewrite Hsum. lia.
    + exact IH.
    + rewrite Hrd in IH. exact IH.
  - destruct Hstep as (_ & -> & Hcount). unfold ret.
    split; [reflexivity|]. split; [constructor|]. cbn. lia.
Qed.

(** A file of five lines, two blocks of two and one rows. *)
Lemma next_all_witness :
  let rd := with_fin [""; "1" +:+ TAB +:+ "cats"; "2" +:+ TAB +:+ "sleep"; "";
                      "1" +:+ TAB +:+ "dogs"]%string
              (mkTSVReader 1 (-1) (-1) (-1) (-1) (-1) (-1) (-1) []) in
  ∃ h rd' g1 g2,
    next_all 6 rd [] = (h, Ok (Some (rd', [g1; g2]))) ∧
    fin rd' = [] ∧ graph_len g1 + (graph_len g2 + 0) = 3.
Proof.
  intros rd.
  pose proof (next_all_reads_every_line 6 rd []) as Hall.
  assert (length (fin rd) < 6)%nat as Hfuel by (vm_compute; lia).
  specialize (Hall Hfuel).
  destruct (next_all 6 rd []) as [h [[[rd' gs]|]|e]] eqn:Hrun; [| |].
  - destruct Hall as (Hrd & _ & Hsum).
    assert (length gs = 2%nat) as Hlen.
    { pose proof (f_equal (λ r, match r.2 with Ok (Some (_, l)) => length l | _ => 0%nat end)
                    Hrun) as Hl.
      cbn in Hl. rewrite <- Hl. vm_compute. reflexivity. }
    destruct gs as [|g1 [|g2 [|g3 gs]]]; try discriminate.
    exists h, rd', g1, g2. split; [reflexivity|]. split; [rewrite Hrd; reflexivity|].
    exact Hsum.
  - destruct Hall.
  - exfalso. pose proof (f_equal (λ r, match r.2 with Raise _ => true | _ => false end) Hrun)
      as Hl.
    cbn in Hl. vm_compute in Hl. discriminate.
Defined.

(** ** Positions of children and siblings *)

Lemma bisect_left_app (key : ref → Z) (l1 l2 : list ref) (x : ref) :
  Forall (λ y, key y < key x) l1 →
  Forall (λ y, key x <= key y) l2 →
  bisect_left key (l1 ++ l2) x = Z.of_nat (length l1).
Proof.
  intros H1 H2. induction H1 as [|y l1 Hy _ IH].
  - destruct H2 as [|y l2 Hy _]; [reflexivity|].
    cbn [app bisect_left length]. rewrite bool_decide_eq_false_2 by lia. reflexivity.
  - cbn [app bisect_left length]. rewrite bool_decide_eq_true_2 by assumption. lia.
Qed.

Lemma bisect_right_app (key : ref → Z) (l1 l2 : list ref) (x : ref) :
  Forall (λ y, key y <= key x) l1 →
  Forall (λ y, key x < key y) l2 →
  bisect_right key (l1 ++ l2) x = Z.of_nat (length l1).
Proof.
  intros H1 H2. induction H1 as [|y l1 Hy _ IH].
  - destruct H2 as [|y l2 Hy _]; [reflexivity|].
    cbn [app bisect_right length]. rewrite bool_decide_eq_false_2 by lia. reflexivity.
  - cbn [app bisect_right length]. rewrite bool_decide_eq_true_2 by assumption. lia.
Qed.

Lemma at_index_app_l (l1 l2 : list ref) (i : Z) :
  0 <= i < Z.of_nat (length l1) → at_index (l1 ++ l2) i = l1 !! Z.to_nat i.
Proof.
  intros Hi. unfold at_index. rewrite length_app.
  rewrite bool_decide_eq_true_2 by lia. apply lookup_app_l. lia.
Qed.

Lemma at_index_app_r (l1 l2 : list ref) (i : Z) :
  Z.of_nat (length l1) <= i →
  at_index (l1 ++ l2) i = l2 !! Z.to_nat (i - Z.of_nat (length l1)).
Proof.
  intros Hi. unfold at_index. rewrite length_app.
  case_bool_decide as Hin.
  - rewrite lookup_app_r by lia. f_equal. lia.
  - symmetry. apply lookup_ge_None_2. lia.
Qed.

Lemma at_index_negative (l : list ref) (i : Z) : i < 0 → at_index l i = None.
Proof. intros Hi. unfold at_index. rewrite bool_decide_eq_false_2 by lia. reflexivity. Qed.

Lemma lookup_reverse_index (l : list ref) (o : Z) :
  0 <= o →
  at_index l (Z.of_nat (length l) - 1 - o) = reverse l !! Z.to_nat o.
Proof.
  intros Ho. destruct (decide (o < Z.of_nat (length l))) as [Hlt|Hge].
  - rewrite reverse_lookup by lia. unfold at_index.
    rewrite bool_decide_eq_true_2 by lia. f_equal. lia.
  - rewrite at_index_negative by lia. symmetry.
    apply lookup_ge_None_2. rewrite length_reverse. lia.
Qed.

Lemma filter_lookup (h : heap) (l : list ref) (i : nat) (test : ref → bool) :
  Forall (λ y, test y = true) l →
  match l !! i with Some x => if test x then Some x else None | None => None end = l !! i.
Proof.
  intros Hall. destruct (l !! i) as [x|] eqn:Hx; [|reflexivity].
  rewrite Forall_forall in Hall. rewrite (Hall x); [reflexivity|].
  eapply list_elem_of_lookup_2. exact Hx.
Qed.

(** X24.  For a node whose children are, in list order, the children
    [l1] with smaller ids followed by the children [l2] with greater ids,
    and for an order from 0 on: [get_leftmost_child] counts through [l1]
    from its left end and [get_left_nearest_child] from its right end,
    [get_right_nearest_child] counts through [l2] from its left end and
    [get_rightmost_child] from its right end; past the end of its side
    each query returns nothing. *)
Theorem child_queries_positions (h : heap) (p : ref) (l1 l2 : list ref) (order : Z) :
  children (h !!! p) = l1 ++ l2 →
  Forall (λ c, nid h c < nid h p) l1 →
  Forall (λ c, nid h p < nid h c) l2 →
  0 <= order →
  get_leftmost_child h p order = l1 !! Z.to_nat order ∧
  get_rightmost_child h p order = reverse l2 !! Z.to_nat order ∧
  get_left_nearest_child h p order = reverse l1 !! Z.to_nat order ∧
  get_right_nearest_child h p order = l2 !! Z.to_nat order.
Proof.
  intros Hc H1 H2 Ho.
  unfold get_leftmost_child, get_rightmost_child, get_left_nearest_child,
    get_right_nearest_child. rewrite Hc.
  assert (Forall (λ y, node_lt h y p = true) l1) as Hlt1.
  { eapply Forall_impl; [exact H1|]. intros y Hy. cbn beta in Hy. unfold node_lt.
    apply bool_decide_eq_true_2. assumption. }
  assert (Forall (λ y, node_lt h y p = false) l2) as Hlt2.
  { eapply Forall_impl; [exact H2|]. intros y Hy. cbn beta in Hy. unfold node_lt.
    apply bool_decide_eq_false_2. lia. }
  assert (Forall (λ y, node_gt h y p = true) l2) as Hgt2.
  { eapply Forall_impl; [exact H2|]. intros y Hy. cbn beta in Hy. unfold node_gt, node_lt.
    rewrite bool_decide_eq_false_2 by lia.
    rewrite bool_decide_eq_false_2 by (intros ->; lia). reflexivity. }
  assert (Forall (λ y, node_gt h y p = false) l1) as Hgt1.
  { eapply Forall_impl; [exact H1|]. intros y Hy. cbn beta in Hy. unfold node_gt, node_lt.
    rewrite bool_decide_eq_true_2 by lia. reflexivity. }
  split; [|split; [|split]].
  - destruct (decide (order < Z.of_nat (length l1))) as [Hin|Hout].
    + rewrite at_index_app_l by lia. apply (filter_lookup h). assumption.
    + rewrite at_index_app_r by lia.
      rewrite (lookup_ge_None_2 l1) by lia.
      destruct (l2 !! _) as [x|] eqn:Hx; [|reflexivity].
      rewrite Forall_forall in Hlt2. rewrite (Hlt2 x); [reflexivity|].
      eapply list_elem_of_lookup_2. exact Hx.
  - rewrite length_app.
    destruct (decide (order < Z.of_nat (length l2))) as [Hin|Hout].
    + rewrite at_index_app_r by lia. rewrite reverse_lookup by lia.
      replace (Z.to_nat (Z.of_nat (length l1 + length l2) - 1 - order - Z.of_nat (length l1)))
        with (length l2 - S (Z.to_nat order))%nat by lia.
      apply (filter_lookup h). assumption.
    + rewrite (lookup_ge_None_2 (reverse l2)) by (rewrite length_reverse; lia).
      destruct (decide (0 <= Z.of_nat (length l1 + length l2) - 1 - order)) as [Hnn|Hneg];
        [|rewrite at_index_negative by lia; reflexivity].
      rewrite at_index_app_l by lia.
      destruct (l1 !! _) as [x|] eqn:Hx; [|reflexivity].
      rewrite Forall_forall in Hgt1. rewrite (Hgt1 x); [reflexivity|].
      eapply list_elem_of_lookup_2. exact Hx.
  - rewrite bisect_left_app; [|assumption|eapply Forall_impl; [exact H2|]; cbn; intros; lia].
    destruct (decide (order < Z.of_nat (length l1))) as [Hin|Hout].
    + rewrite at_index_app_l by lia. rewrite reverse_lookup by lia. f_equal. lia.
    + rewrite at_index_negative by lia. symmetry.
      apply lookup_ge_None_2. rewrite length_reverse. lia.
  - rewrite bisect_right_app; [|eapply Forall_impl; [exact H1|]; cbn; intros; lia|assumption].
    rewrite at_index_app_r by lia. f_equal. lia.
Qed.

(** X25.  For a node [self] whose parent's children are, in list order,
    the siblings [l1] with smaller ids, [self], and the siblings [l2] with
    greater ids, and for an order from 0 on: [get_leftmost_sibling] and
    [get_left_nearest_sibling] count through [l1] from its left and its
    right end; [get_right_nearest_sibling] counts through [l2] from its
    second element, so the nearest right sibling is never returned;
    [get_rightmost_sibling] takes its index from the number of [self]'s
    own children and returns the parent's child at that index when that
    is one of [l2], nothing otherwise. *)
Theorem sibling_queries_positions (h : heap) (self p : ref) (l1 l2 : list ref) (order : Z) :
  parent (h !!! self) = Some p →
  children (h !!! p) = l1 ++ self :: l2 →
  Forall (λ c, nid h c < nid h self) l1 →
  Forall (λ c, nid h self < nid h c) l2 →
  0 <= order →
  get_leftmost_sibling h self order = l1 !! Z.to_nat order ∧
  get_left_nearest_sibling h self order = reverse l1 !! Z.to_nat order ∧
  get_right_nearest_sibling h self order = l2 !! S (Z.to_nat order) ∧
  get_rightmost_sibling h self order
  = (let idx := Z.of_nat (length (children (h !!! self))) - 1 - order in
     if bool_decide (Z.of_nat (length l1) < idx)
     then l2 !! Z.to_nat (idx - Z.of_nat (length l1) - 1) else None).
Proof.
  intros Hp Hc H1 H2 Ho.
  unfold get_leftmost_sibling, get_rightmost_sibling, get_left_nearest_sibling,
    get_right_nearest_sibling. rewrite Hp, Hc.
  assert (Forall (λ y, node_lt h y self = true) l1) as Hlt1.
  { eapply Forall_impl; [exact H1|]. intros y Hy. cbn beta in Hy. unfold node_lt.
    apply bool_decide_eq_true_2. assumption. }
  assert (Forall (λ y, node_lt h y self = false) (self :: l2)) as Hlt2.
  { constructor; [unfold node_lt; apply bool_decide_eq_false_2; lia|].
    eapply Forall_impl; [exact H2|]. intros y Hy. cbn beta in Hy. unfold node_lt.
    apply bool_decide_eq_false_2. lia. }
  assert (Forall (λ y, node_gt h y self = true) l2) as Hgt2.
  { eapply Forall_impl; [exact H2|]. intros y Hy. cbn beta in Hy. unfold node_gt, node_lt.
    rewrite bool_decide_eq_false_2 by lia.
    rewrite bool_decide_eq_false_2 by (intros ->; lia). reflexivity. }
  assert (Forall (λ y, node_gt h y self = false) (l1 ++ [self])) as Hgt1.
  { apply Forall_app. split.
    - eapply Forall_impl; [exact H1|]. intros y Hy. cbn beta in Hy. unfold node_gt, node_lt.
      rewrite bool_decide_eq_true_2 by lia. reflexivity.
    - constructor; [|constructor]. unfold node_gt.
      rewrite (bool_decide_eq_true_2 (self = self)) by reflexivity.
      apply andb_false_r. }
  split; [|split; [|split]].
  - destruct (decide (order < Z.of_nat (length l1))) as [Hin|Hout].
    + rewrite at_index_app_l by lia. apply (filter_lookup h). assumption.
    + rewrite at_index_app_r by lia.
      rewrite (lookup_ge_None_2 l1) by lia.
      destruct ((self :: l2) !! _) as [x|] eqn:Hx; [|reflexivity].
      rewrite Forall_forall in Hlt2. rewrite (Hlt2 x); [reflexivity|].
      eapply list_elem_of_lookup_2. exact Hx.
  - rewrite bisect_left_app;
      [|assumption|constructor; [lia|eapply Forall_impl; [exact H2|]; cbn; intros; lia]].
    destruct (decide (order < Z.of_nat (length l1))) as [Hin|Hout].
    + rewrite at_index_app_l by lia. rewrite reverse_lookup by lia. f_equal. lia.
    + rewrite at_index_negative by lia. symmetry.
      apply lookup_ge_None_2. rewrite length_reverse. lia.
  - rewrite (cons_middle self l1 l2), app_assoc.
    rewrite bisect_right_app; [| |assumption].
    + rewrite at_index_app_r by (rewrite length_app; cbn; lia).
      rewrite length_app. cbn [length]. f_equal. lia.
    + apply Forall_app. split; [eapply Forall_impl; [exact H1|]; cbn; intros; lia|].
      constructor; [lia|constructor].
  - cbv zeta. set (idx := Z.of_nat (length (children (h !!! self))) - 1 - order).
    rewrite (cons_middle self l1 l2), app_assoc.
    case_bool_decide as Hidx.
    + rewrite at_index_app_r by (rewrite length_app; cbn; lia).
      rewrite length_app. cbn [length].
      replace (Z.to_nat (idx - Z.of_nat (length l1 + 1)))
        with (Z.to_nat (idx - Z.of_nat (length l1) - 1)) by lia.
      apply (filter_lookup h). assumption.
    + destruct (decide (0 <= idx)) as [Hnn|Hneg];
        [|rewrite at_index_negative by lia; reflexivity].
      rewrite at_index_app_l by (rewrite length_app; cbn; lia).
      destruct ((l1 ++ [self]) !! _) as [x|] eqn:Hx; [|reflexivity].
      rewrite Forall_forall in Hgt1. rewrite (Hgt1 x); [reflexivity|].
      eapply list_elem_of_lookup_2. exact Hx.
Qed.

(** A parent with id 3 and children with the ids 1, 2, 4, 5. *)
Lemma child_queries_positions_witness :
  let h := chain 3 [1; 2; 4; 5] in
  get_leftmost_child h 0%nat 0 = Some 1%nat ∧
  get_rightmost_child h 0%nat 0 = Some 4%nat ∧
  get_left_nearest_child h 0%nat 0 = Some 2%nat ∧
  get_right_nearest_child h 0%nat 1 = Some 4%nat.
Proof.
  intros h.
  destruct (child_queries_positions h 0%nat [1; 2]%nat [3; 4]%nat 0)
    as (Hlm & Hrm & Hln & _);
    [reflexivity
    |repeat constructor
    |repeat constructor
    |lia|].
  destruct (child_queries_positions h 0%nat [1; 2]%nat [3; 4]%nat 1)
    as (_ & _ & _ & Hrn);
    [reflexivity
    |repeat constructor
    |repeat constructor
    |lia|].
  split; [exact Hlm|]. split; [exact Hrm|]. split; [exact Hln|exact Hrn].
Defined.

(** The second of four tokens under a common parent. *)
Lemma sibling_queries_positions_witness :
  let h := chain 0 [1; 2; 3; 4] in
  get_leftmost_sibling h 2%nat 0 = Some 1%nat ∧
  get_left_nearest_sibling h 2%nat 0 = Some 1%nat ∧
  get_right_nearest_sibling h 2%nat 0 = Some 4%nat ∧
  get_rightmost_sibling h 2%nat 0 = None.
Proof.
  intros h.
  exact (sibling_queries_positions h 2%nat 0%nat [1]%nat [3; 4]%nat 0
           eq_refl eq_refl
           ltac:(repeat constructor) ltac:(repeat constructor) ltac:(lia)).
Defined.

(** ** A rendered line read back *)

(** X26.  A rendered node line read back: when no field of the line
    holds a tab, cutting the line at the tabs gives the nine fields again,
    and the word, lemma, tag, features and entity columns hold the
    rendered texts.  A field that was absent or empty in the node is read
    back as the blank marker, a string, not as an absent value. *)
Theorem rendered_fields_read_back (h : heap) (n : ref) (fs : list string) :
  str_fields h n = Ok fs →
  Forall (λ f, occurs c_tab f = false) fs →
  ∃ s, node_str h n = Ok s ∧
       split c_tab s = fs ∧
       length fs = 9%nat ∧
       get_field (Some (split c_tab s)) 1 = Ok (Some (str_or (word (h !!! n)) BLANK)) ∧
       get_field (Some (split c_tab s)) 2 = Ok (Some (str_or (lemma (h !!! n)) BLANK)) ∧
       get_field (Some (split c_tab s)) 3 = Ok (Some (str_or (pos (h !!! n)) BLANK)) ∧
       get_field (Some (split c_tab s)) 4 = Ok (Some (render_feats (feats (h !!! n)))) ∧
       get_field (Some (split c_tab s)) 8 = Ok (Some (str_or (nament (h !!! n)) BLANK)).
Proof.
  intros Hfs Hfree. exists (join TAB fs).
  assert (split c_tab (join TAB fs) = fs) as Hsplit.
  { apply (split_join c_tab); [|assumption].
    intros ->. unfold str_fields in Hfs.
    destruct (match secondary_parents (h !!! n) with [] => _ | _ => _ end); discriminate. }
  split; [unfold node_str; rewrite Hfs; reflexivity|].
  split; [exact Hsplit|]. rewrite Hsplit.
  unfold str_fields in Hfs.
  destruct (match secondary_parents (h !!! n) with [] => _ | _ => _ end) as [sheads|e];
    [|discriminate].
  inversion Hfs; subst fs. repeat split.
Qed.

(** A new node with id 1 and no field. *)
Lemma rendered_fields_witness :
  let h := (alloc_tokens [1] []).1 in
  ∃ s, node_str h 0%nat = Ok s ∧
       word (h !!! 0%nat) = None ∧
       get_field (Some (split c_tab s)) 1 = Ok (Some BLANK).
Proof.
  intros h.
  destruct (rendered_fields_read_back h 0%nat
              ["1"; "_"; "_"; "_"; "_"; "_"; "_"; "_"; "_"]%string)
    as (s & Hs & _ & _ & Hw & _).
  - vm_compute. reflexivity.
  - repeat constructor.
  - exists s. split; [exact Hs|]. split; [reflexivity|exact Hw].
Defined.

(** ** Iterating a graph *)

Lemma for_loop_pure {A} (f : ref → A) (l : list ref) (fuel i : nat) :
  (i ≤ length l)%nat → (length l - i < fuel)%nat →
  for_loop fuel (λ n g, Some (g, f n)) {| nodes := l; _iter := Some (i, length l) |}
  = Some ({| nodes := l; _iter := Some (length l, length l) |}, map f (drop i l)).
Proof.
  revert i. induction fuel as [|fuel IH]; intros i Hi Hfuel; [lia|].
  cbn [for_loop]. unfold graph_next. cbn [_iter nodes].
  destruct (decide (i < length l)%nat) as [Hlt|Hge].
  - rewrite bool_decide_eq_true_2 by assumption.
    destruct (lookup_lt_is_Some_2 l i Hlt) as [n Hn]. rewrite Hn.
    rewrite IH by lia. rewrite (drop_S _ _ _ Hn). reflexivity.
  - rewrite bool_decide_eq_false_2 by assumption.
    assert (i = length l) as -> by lia. rewrite drop_all. reflexivity.
Qed.

(** X27.  An [NLPGraph] is its own iterator and keeps one cursor.  A
    loop over a graph visits its nodes after the root, in order, and
    leaves the cursor at the end.  A loop over the graph nested in a loop
    over the same graph restarts that cursor and runs it to the end, so
    the outer loop stops after its first node: the pairs visited are those
    of the first node only. *)
Theorem nested_iteration_shares_cursor (g : NLPGraph) (n1 : ref) (outer inner : nat) :
  nodes g !! 1%nat = Some n1 →
  (2 ≤ outer)%nat →
  (length (nodes g) ≤ inner)%nat →
  for_in inner (λ b g2, Some (g2, b)) g
  = Some ({| nodes := nodes g; _iter := Some (length (nodes g), length (nodes g)) |},
          drop 1 (nodes g)) ∧
  for_in outer (λ a g1, for_in inner (λ b g2, Some (g2, (a, b))) g1) g
  = Some ({| nodes := nodes g; _iter := Some (length (nodes g), length (nodes g)) |},
          [map (pair n1) (drop 1 (nodes g))]).
Proof.
  intros Hn1 Houter Hinner.
  pose proof (lookup_lt_Some _ _ _ Hn1) as Hlen.
  split.
  - unfold for_in, graph_iter.
    rewrite (for_loop_pure (λ b, b) (nodes g) inner 1) by lia.
    rewrite map_id. reflexivity.
  - destruct outer as [|[|outer]]; [lia|lia|].
    unfold for_in at 1. cbn [for_loop]. unfold graph_iter at 1, graph_next at 1.
    cbn [_iter nodes]. rewrite bool_decide_eq_true_2 by assumption. rewrite Hn1.
    unfold for_in, graph_iter. cbn [nodes].
    rewrite (for_loop_pure (pair n1) (nodes g) inner 1) by lia.
    unfold graph_next. cbn [_iter nodes].
    rewrite bool_decide_eq_false_2 by lia. reflexivity.
Qed.

(** A graph of a root and three nodes. *)
Lemma nested_iteration_witness :
  let g := {| nodes := [0; 1; 2; 3]%nat; _iter := None |} in
  for_in 5 (λ a g1, for_in 5 (λ b g2, Some (g2, (a, b))) g1) g
  = Some ({| nodes := [0; 1; 2; 3]%nat; _iter := Some (4, 4)%nat |},
          [[(1, 1); (1, 2); (1, 3)]%nat]).
Proof.
  intros g.
  exact (proj2 (nested_iteration_shares_cursor g 1%nat 5 5 eq_refl ltac:(lia) ltac:(cbn; lia))).
Defined.
